(** * A point quadtree with a backing store (qtree.js)

    Shallow embedding of [src/qtree.js] and the properties of its public
    interface ([insert], [queryRange], [queryRangeByCenter],
    [queryContainedBy], [clear]).

    Modelling conventions.
    - A JavaScript number is a binary64 floating-point number, that is a
      primitive [float]: [+], [-] and [/] round as IEEE 754 prescribes and
      produce the infinities and NaN of the source; [a <= b], [a >= b] and
      [a < b] are [PrimFloat.leb] and [PrimFloat.ltb], which are false as
      soon as an operand is NaN.  What the proofs need of this arithmetic
      is derived from the specification of the operations
      ([Stdlib.Floats.FloatAxioms]).
    - [max_per_cell], [max_depth] and node depths are integers ([Z]).
    - Items and options are objects.  A property that may be absent from an
      object is an [option]: ['x' in item] is [item_x item <> None], and
      reading an absent coordinate gives [undefined], for which every
      comparison is false.  A coordinate that is present is a number.
    - The closure variables [opts], [tree] and [allItems] are the three
      fields of [State]; every public operation returns the new state
      together with its completion (a value, or the error thrown).  A
      call that throws has changed the state up to the [throw].
    - The only recursion of the source that is not structural,
      [Node.insert] calling [divide] calling [insert] on fresh children, is
      defined with fuel; [Node.fuel_for] bounds the fuel that is needed and
      [insert_fuel_enough] shows that the bound is sufficient. *)

From Stdlib Require Import Floats ZArith List Bool Lia Sorted Permutation.
Import ListNotations.

Set Implicit Arguments.
Local Open Scope float_scope.

(** ** Items, errors and completions *)

(** A caller's item: its coordinates when it exposes them, and a tag that
    stands for the rest of the object. *)
Record Item : Type := mkItem {
  item_x : option float;
  item_y : option float;
  item_tag : nat
}.

(** An item as the tree stores it: [{x: item.x, y: item.y, i: index}]. *)
Record IndexItem : Type := mkIndexItem {
  x : option float;
  y : option float;
  i : nat
}.

(** The errors the source throws, one constructor per [throw] site.  The
    two errors of a node carry the coordinates that their message shows,
    [{x: ..., y: ...}]; the errors of the public [insert] carry the item
    they are about. *)
Inductive error : Type :=
  | NotEnoughInitOptions
  | ItemNotInsertedIntoAnyNode (x y : option float)
  | ItemNotInsertedWhileDividing (x y : option float)
  | InvalidItem (it : Item)
  | ItemNotInserted (it : Item)
  | InvalidArgumentsQueryRange
  | InvalidArgumentsQueryRangeCenter
  | InvalidArgumentsQueryContainedBy.

(** How a call ends: it returns a value or throws. *)
Inductive completion (A : Type) : Type :=
  | Normal (a : A)
  | Abrupt (e : error).
Arguments Normal {A} a.
Arguments Abrupt {A} e.

(** The argument of [quadtree]: every property may be absent. *)
Module Options.
Record t : Type := mk {
  top : option float;
  left : option float;
  bottom : option float;
  right : option float;
  max_per_cell : option Z;
  max_depth : option Z;
  debug_mode : option bool
}.
End Options.

(** The effective configuration, [opts] of the source. *)
Module Opts.
Record t : Type := mk {
  top : float;
  left : float;
  bottom : float;
  right : float;
  max_per_cell : Z;
  max_depth : Z;
  debug_mode : bool
}.
End Opts.

(** ** Helpers *)

(** [a >= b] and [a <= b] on values that may be [undefined]. *)
Definition geq (a : option float) (b : float) : bool :=
  match a with Some a => (b <=? a) | None => false end.

Definition leq (a : option float) (b : float) : bool :=
  match a with Some a => (a <=? b) | None => false end.

Definition pointIsInBounds (x y : option float) (top left bottom right : float) : bool :=
  if geq x left && leq x right && geq y top && leq y bottom then true else false.

Definition rangesIntersect (top left bottom right topRange leftRange bottomRange rightRange : float)
  : bool :=
  if (left <=? rightRange) && (leftRange <=? right)
     && (top <=? bottomRange) && (topRange <=? bottom)
  then true else false.

Definition itemToIndex (item : Item) (index : nat) : IndexItem :=
  {| x := item_x item; y := item_y item; i := index |}.

(** The object [storeValidIndices]: its keys are array indices, which a
    [for ... in] loop enumerates in ascending order, so the object is the
    ascending list of its keys.  [store k index] is [index[k] = true]. *)
Fixpoint store (k : nat) (index : list nat) : list nat :=
  match index with
  | [] => [k]
  | j :: rest =>
      if (k <? j)%nat then k :: j :: rest
      else if (k =? j)%nat then j :: rest
      else j :: store k rest
  end.

(** ** Nodes *)

Inductive quadrant : Type := TOP_LEFT | TOP_RIGHT | BOTTOM_LEFT | BOTTOM_RIGHT.

Module Node.

(** A node: its rectangle, its depth, its items and, once divided, its
    four children ([nodes] is [None] for [undefined]). *)
Inductive t : Type :=
  mk { top : float; left : float; bottom : float; right : float; depth : Z;
       items : list IndexItem; nodes : option quad }
with quad : Type :=
  mkQuad { tl : t; tr : t; bl : t; br : t }.

(** [new Node(top, left, bottom, right, depth)]. *)
Definition new (top left bottom right : float) (depth : Z) : t :=
  mk top left bottom right depth [] None.

Definition set_items (this : t) (its : list IndexItem) : t :=
  mk (top this) (left this) (bottom this) (right this) (depth this) its (nodes this).

Definition set_nodes (this : t) (ns : option quad) : t :=
  mk (top this) (left this) (bottom this) (right this) (depth this) (items this) ns.

(** [nodes[q]] and [nodes[q] = n]. *)
Definition get (q : quadrant) (ns : quad) : t :=
  match q with
  | TOP_LEFT => tl ns | TOP_RIGHT => tr ns
  | BOTTOM_LEFT => bl ns | BOTTOM_RIGHT => br ns
  end.

Definition set (q : quadrant) (n : t) (ns : quad) : quad :=
  match q with
  | TOP_LEFT => mkQuad n (tr ns) (bl ns) (br ns)
  | TOP_RIGHT => mkQuad (tl ns) n (bl ns) (br ns)
  | BOTTOM_LEFT => mkQuad (tl ns) (tr ns) n (br ns)
  | BOTTOM_RIGHT => mkQuad (tl ns) (tr ns) (bl ns) n
  end.

Definition containsPoint (this : t) (x y : option float) : bool :=
  pointIsInBounds x y (top this) (left this) (bottom this) (right this).

Definition containsRangePart (this : t) (top' left' bottom' right' : float) : bool :=
  rangesIntersect top' left' bottom' right'
                  (top this) (left this) (bottom this) (right this).

(** The four children [divide] creates. *)
Definition children (this : t) : quad :=
  let halfWidth := (right this - left this) / 2 in
  let halfHeight := (bottom this - top this) / 2 in
  {| tl := new (top this) (left this)
               (top this + halfHeight) (left this + halfWidth) (depth this + 1);
     tr := new (top this) (left this + halfWidth)
               (top this + halfHeight) (right this) (depth this + 1);
     bl := new (top this + halfHeight) (left this)
               (bottom this) (left this + halfWidth) (depth this + 1);
     br := new (top this + halfHeight) (left this + halfWidth)
               (bottom this) (right this) (depth this + 1) |}.

Section Insert.
Variable opts : Opts.t.

(** What [this.insert] is inside the bodies below: the recursive call,
    with one unit of fuel less; [None] is "out of fuel". *)
Variable insert : t -> IndexItem -> option (t * completion bool).

(** The four [if (nodes[q].insert(itemForIndex)) return true;] lines,
    for the quadrants [qs] still to be tried. *)
Fixpoint delegate (qs : list quadrant) (ns : quad) (itemForIndex : IndexItem)
  : option (quad * completion bool) :=
  match qs with
  | [] => Some (ns, Normal false)
  | q :: qs' =>
      match insert (get q ns) itemForIndex with
      | None => None
      | Some (n', Abrupt e) => Some (set q n' ns, Abrupt e)
      | Some (n', Normal true) => Some (set q n' ns, Normal true)
      | Some (n', Normal false) => delegate qs' (set q n' ns) itemForIndex
      end
  end.

(** The loop of [divide] over the items the node held. *)
Fixpoint reinsert (this : t) (its : list IndexItem) : option (t * completion bool) :=
  match its with
  | [] => Some (this, Normal true)
  | it :: rest =>
      match insert this it with
      | None => None
      | Some (this', Abrupt e) => Some (this', Abrupt e)
      | Some (this', Normal resInsert) =>
          if Opts.debug_mode opts && negb resInsert
          then Some (this', Abrupt (ItemNotInsertedWhileDividing (x it) (y it)))
          else reinsert this' rest
      end
  end.

Definition divide (this : t) : option (t * completion bool) :=
  match reinsert (set_nodes this (Some (children this))) (items this) with
  | None => None
  | Some (this', Abrupt e) => Some (this', Abrupt e)
  | Some (this', Normal _) => Some (set_items this' [], Normal true)
  end.

(** The body of [Node.insert]. *)
Definition insert_body (this : t) (itemForIndex : IndexItem)
  : option (t * completion bool) :=
  if negb (containsPoint this (x itemForIndex) (y itemForIndex))
  then Some (this, Normal false)
  else
    match nodes this with
    | Some ns =>
        match delegate [TOP_LEFT; TOP_RIGHT; BOTTOM_LEFT; BOTTOM_RIGHT] ns itemForIndex with
        | None => None
        | Some (ns', Abrupt e) => Some (set_nodes this (Some ns'), Abrupt e)
        | Some (ns', Normal true) => Some (set_nodes this (Some ns'), Normal true)
        | Some (ns', Normal false) =>
            if Opts.debug_mode opts
            then Some (set_nodes this (Some ns'),
                       Abrupt (ItemNotInsertedIntoAnyNode (x itemForIndex)
                                                          (y itemForIndex)))
            else Some (set_nodes this (Some ns'), Normal false)
        end
    | None =>
        if (Z.of_nat (length (items this)) <? Opts.max_per_cell opts)%Z
           || (Opts.max_depth opts <=? depth this)%Z
        then Some (set_items this (items this ++ [itemForIndex]), Normal true)
        else
          match divide this with
          | None => None
          | Some (this', Abrupt e) => Some (this', Abrupt e)
          | Some (this', Normal _) => insert this' itemForIndex
          end
    end.
End Insert.

Fixpoint insert_fuel (fuel : nat) (opts : Opts.t) (this : t) (itemForIndex : IndexItem)
  : option (t * completion bool) :=
  match fuel with
  | O => None
  | S fuel' => insert_body opts (insert_fuel fuel' opts) this itemForIndex
  end.

(** Fuel that suffices for one [insert]: a leaf above [max_depth] can be
    divided once per remaining level, each division costing two calls. *)
Fixpoint fuel_for (opts : Opts.t) (this : t) : nat :=
  match nodes this with
  | None => S (2 * Z.to_nat (Opts.max_depth opts - depth this))
  | Some ns =>
      S (Nat.max (Nat.max (fuel_for opts (tl ns)) (fuel_for opts (tr ns)))
                 (Nat.max (fuel_for opts (bl ns)) (fuel_for opts (br ns))))
  end.

(** [this.insert(itemForIndex)]: the node afterwards and the completion. *)
Definition insert (opts : Opts.t) (this : t) (itemForIndex : IndexItem)
  : t * completion bool :=
  match insert_fuel (fuel_for opts this) opts this itemForIndex with
  | Some r => r
  | None => (this, Normal false)
  end.

(** The loop of [queryRange] over [this.items]; on an empty list it does
    nothing, as the guard [if (this.items.length)] of the source. *)
Fixpoint collect (top' left' bottom' right' : float) (its : list IndexItem)
                 (storeValidIndices : list nat) : list nat :=
  match its with
  | [] => storeValidIndices
  | item :: rest =>
      collect top' left' bottom' right' rest
        (if pointIsInBounds (x item) (y item) top' left' bottom' right'
         then store (i item) storeValidIndices else storeValidIndices)
  end.

(** [this.queryRange(top, left, bottom, right, storeValidIndices)]; the
    result is [storeValidIndices] afterwards.  The node is not changed. *)
Fixpoint queryRange (this : t) (top' left' bottom' right' : float)
                    (storeValidIndices : list nat) : list nat :=
  if negb (containsRangePart this top' left' bottom' right') then storeValidIndices
  else
    let s :=
      match nodes this with
      | Some ns =>
          queryRange (br ns) top' left' bottom' right'
            (queryRange (bl ns) top' left' bottom' right'
              (queryRange (tr ns) top' left' bottom' right'
                (queryRange (tl ns) top' left' bottom' right' storeValidIndices)))
      | None => storeValidIndices
      end in
    collect top' left' bottom' right' (items this) s.

End Node.

Abbreviation Node := Node.t.

(** ** The index: [opts], [tree], [allItems] and the public methods *)

Record State : Type := mkState {
  opts : Opts.t;
  tree : Node;
  allItems : list Item
}.

(** [v || d] for an optional number: absent and [0] are falsy. *)
Definition or_number (v : option Z) (d : Z) : Z :=
  match v with
  | Some 0%Z => d
  | Some n => n
  | None => d
  end.

(** [v || false] for an optional boolean. *)
Definition or_false (v : option bool) : bool :=
  match v with
  | Some b => b
  | None => false
  end.

(** [init(options)]: the new [opts] and [tree], or the error thrown. *)
Definition init (options : Options.t) : completion (Opts.t * Node) :=
  match Options.top options, Options.left options,
        Options.bottom options, Options.right options with
  | Some top', Some left', Some bottom', Some right' =>
      let opts := {| Opts.top := top'; Opts.left := left';
                     Opts.bottom := bottom'; Opts.right := right';
                     Opts.max_per_cell := or_number (Options.max_per_cell options) 2;
                     Opts.max_depth := or_number (Options.max_depth options) 4;
                     Opts.debug_mode := or_false (Options.debug_mode options) |} in
      Normal (opts, Node.new (Opts.top opts) (Opts.left opts)
                             (Opts.bottom opts) (Opts.right opts) 0)
  | _, _, _, _ => Abrupt NotEnoughInitOptions
  end.

(** [quadtree(options)]: [allItems = []], then [init(options)]. *)
Definition quadtree (options : Options.t) : completion State :=
  match init options with
  | Normal (o, t) => Normal {| opts := o; tree := t; allItems := [] |}
  | Abrupt e => Abrupt e
  end.

(** [opts] read as an argument of [init], as [clear] does. *)
Definition as_options (o : Opts.t) : Options.t :=
  {| Options.top := Some (Opts.top o); Options.left := Some (Opts.left o);
     Options.bottom := Some (Opts.bottom o); Options.right := Some (Opts.right o);
     Options.max_per_cell := Some (Opts.max_per_cell o);
     Options.max_depth := Some (Opts.max_depth o);
     Options.debug_mode := Some (Opts.debug_mode o) |}.

Definition has (v : option float) : bool :=
  match v with Some _ => true | None => false end.

Definition checkIsValid (o : Opts.t) (item : Item) : completion bool :=
  if negb (has (item_x item)) || negb (has (item_y item))
  then if Opts.debug_mode o then Abrupt (InvalidItem item) else Normal false
  else Normal true.

Definition itemsByIndex (allItems : list Item) (index : list nat) : list (option Item) :=
  map (fun i => nth_error allItems i) index.

(** The argument of the public [insert]: one item or an array of items. *)
Inductive insert_arg : Type :=
  | One (item : Item)
  | Many (item : list Item).

(** [allItems.push(cur); res = tree.insert(itemToIndex(cur, index))] and the
    check of [res] that follows it in both branches of [_insert]. *)
Definition push_and_insert (st : State) (cur : Item) (index : nat)
  : State * completion unit :=
  let allItems' := allItems st ++ [cur] in
  let (tree', res) := Node.insert (opts st) (tree st) (itemToIndex cur index) in
  let st' := {| opts := opts st; tree := tree'; allItems := allItems' |} in
  match res with
  | Abrupt e => (st', Abrupt e)
  | Normal res =>
      if Opts.debug_mode (opts st) && negb res
      then (st', Abrupt (ItemNotInserted cur))
      else (st', Normal tt)
  end.

(** The [for] loop of the array branch, from position [i] on. *)
Fixpoint insert_loop (st : State) (totalLengthBefore i : nat) (rest : list Item)
  : State * completion unit :=
  match rest with
  | [] => (st, Normal tt)
  | cur :: rest' =>
      match push_and_insert st cur (totalLengthBefore + i) with
      | (st', Abrupt e) => (st', Abrupt e)
      | (st', Normal _) => insert_loop st' totalLengthBefore (S i) rest'
      end
  end.

(** The public [insert].  Its first test, [! tree || (! 'top' in opts)], is
    always false: [tree] is an object and [(! 'top') in opts] is
    [false in opts]. *)
Definition _insert (st : State) (item : insert_arg) : State * completion unit :=
  match item with
  | Many item =>
      let totalLengthBefore := length (allItems st) in
      match item with
      | [] => (st, Normal tt)
      | first :: _ =>
          match checkIsValid (opts st) first with
          | Abrupt e => (st, Abrupt e)
          | Normal false => (st, Normal tt)
          | Normal true => insert_loop st totalLengthBefore 0 item
          end
      end
  | One item =>
      match checkIsValid (opts st) item with
      | Abrupt e => (st, Abrupt e)
      | Normal false => (st, Normal tt)
      | Normal true => push_and_insert st item (length (allItems st ++ [item]) - 1)
      end
  end.

(** An argument of a query: a number, or a value that is not a number. *)
Inductive arg : Type :=
  | Num (q : float)
  | NotNum.

Definition invalid_query (st : State) (e : error) : completion (list (option Item)) :=
  if Opts.debug_mode (opts st) then Abrupt e else Normal [].

Definition _queryRange (st : State) (top left bottom right : arg)
  : completion (list (option Item)) :=
  match top, left, bottom, right with
  | Num top', Num left', Num bottom', Num right' =>
      let index := Node.queryRange (tree st) top' left' bottom' right' [] in
      Normal (itemsByIndex (allItems st) index)
  | _, _, _, _ => invalid_query st InvalidArgumentsQueryRange
  end.

Definition _queryRangeByCenter (st : State) (x y w h : arg)
  : completion (list (option Item)) :=
  match x, y, w, h with
  | Num x, Num y, Num w, Num h =>
      let index :=
        Node.queryRange (tree st) (y - h / 2) (x - w / 2) (y + h / 2) (x + w / 2) [] in
      Normal (itemsByIndex (allItems st) index)
  | _, _, _, _ => invalid_query st InvalidArgumentsQueryRangeCenter
  end.

(** The argument of [queryContainedBy]: [None] is a falsy [obj]. *)
Definition _queryContainedBy (st : State) (obj : option (arg * arg * arg * arg))
  : completion (list (option Item)) :=
  match obj with
  | Some (Num x, Num y, Num w, Num h) =>
      let index :=
        Node.queryRange (tree st) (y - h / 2) (x - w / 2) (y + h / 2) (x + w / 2) [] in
      Normal (itemsByIndex (allItems st) index)
  | _ => invalid_query st InvalidArgumentsQueryContainedBy
  end.

(** The public [clear]: the old root is emptied, then [init(opts)] replaces
    [opts] and [tree].  [allItems] is not assigned. *)
Definition _clear (st : State) : State * completion unit :=
  let emptied := Node.set_nodes (Node.set_items (tree st) []) None in
  match init (as_options (opts st)) with
  | Normal (o, t) => ({| opts := o; tree := t; allItems := allItems st |}, Normal tt)
  | Abrupt e => ({| opts := opts st; tree := emptied; allItems := allItems st |}, Abrupt e)
  end.

(** *** The scenario of the boundary test *)

Definition pt (a b : float) (tag : nat) : Item :=
  {| item_x := Some a; item_y := Some b; item_tag := tag |}.

Definition options100 (mpc md : option Z) (dbg : option bool) : Options.t :=
  {| Options.top := Some 0; Options.left := Some 0;
     Options.bottom := Some 100; Options.right := Some 100;
     Options.max_per_cell := mpc; Options.max_depth := md;
     Options.debug_mode := dbg |}.

(** The state after a list of calls of [insert], errors ignored. *)
Definition inserts (st : State) (calls : list insert_arg) : State :=
  fold_left (fun s a => fst (_insert s a)) calls st.

(** ** Predicates on trees *)

(** The point of [w] passes [containsPoint] of [n]. *)
Definition inside (n : Node) (w : IndexItem) : Prop :=
  Node.containsPoint n (x w) (y w) = true.

(** Same rectangle and same depth. *)
Definition same_box (a b : Node) : Prop :=
  Node.top a = Node.top b /\ Node.left a = Node.left b /\
  Node.bottom a = Node.bottom b /\ Node.right a = Node.right b /\
  Node.depth a = Node.depth b.

(** The items held anywhere in the tree below [n], [n] included. *)
Fixpoint all_items (n : Node) : list IndexItem :=
  Node.items n ++
  match Node.nodes n with
  | None => []
  | Some ns => all_items (Node.tl ns) ++ all_items (Node.tr ns)
               ++ all_items (Node.bl ns) ++ all_items (Node.br ns)
  end.

(** Those held strictly below [n]. *)
Definition kid_items (n : Node) : list IndexItem :=
  match Node.nodes n with
  | None => []
  | Some ns => all_items (Node.tl ns) ++ all_items (Node.tr ns)
               ++ all_items (Node.bl ns) ++ all_items (Node.br ns)
  end.

(** The items held by the four children. *)
Definition quad_items (ns : Node.quad) : list IndexItem :=
  all_items (Node.tl ns) ++ all_items (Node.tr ns)
  ++ all_items (Node.bl ns) ++ all_items (Node.br ns).

(** The children [ns] of [n] have the rectangles and the depth that
    [divide] gives them: the four quadrants cut at the coordinates that
    [divide] computes, at depth [depth n + 1]. *)
Definition quadrants_of (n : Node) (ns : Node.quad) : Prop :=
  forall q, same_box (Node.get q ns) (Node.get q (Node.children n)).

(** The rectangle of [n] is not inverted. *)
Definition box_ok (n : Node) : Prop :=
  (Node.left n <=? Node.right n) = true /\ (Node.top n <=? Node.bottom n) = true.

(** Geometry: every item held at or below a node lies in the rectangle of
    that node, and a divided node has a rectangle that is not inverted and
    the four quadrants as children. *)
Fixpoint geo (n : Node) : Prop :=
  Forall (inside n) (all_items n) /\
  match Node.nodes n with
  | None => True
  | Some ns =>
      box_ok n /\ quadrants_of n ns /\
      geo (Node.tl ns) /\ geo (Node.tr ns) /\ geo (Node.bl ns) /\ geo (Node.br ns)
  end.

(** The top left corner of the rectangle is finite. *)
Definition finite_corner (n : Node) : bool :=
  is_finite (Node.top n) && is_finite (Node.left n).

(** Every divided node of the tree has a finite top left corner. *)
Fixpoint firm (n : Node) : Prop :=
  match Node.nodes n with
  | None => True
  | Some ns =>
      finite_corner n = true /\
      firm (Node.tl ns) /\ firm (Node.tr ns) /\ firm (Node.bl ns) /\ firm (Node.br ns)
  end.

(** A node with children has an empty item list, everywhere in the tree. *)
Fixpoint tidy (n : Node) : Prop :=
  match Node.nodes n with
  | None => True
  | Some ns =>
      Node.items n = [] /\
      tidy (Node.tl ns) /\ tidy (Node.tr ns) /\ tidy (Node.bl ns) /\ tidy (Node.br ns)
  end.

Definition kids_tidy (n : Node) : Prop :=
  match Node.nodes n with
  | None => True
  | Some ns =>
      tidy (Node.tl ns) /\ tidy (Node.tr ns) /\ tidy (Node.bl ns) /\ tidy (Node.br ns)
  end.

(** No node of the tree is deeper than [D]. *)
Fixpoint depth_leb (D : Z) (n : Node) : bool :=
  (Node.depth n <=? D)%Z &&
  match Node.nodes n with
  | None => true
  | Some ns => depth_leb D (Node.tl ns) && depth_leb D (Node.tr ns)
               && depth_leb D (Node.bl ns) && depth_leb D (Node.br ns)
  end.

(** The number of nodes of the tree. *)
Fixpoint node_count (n : Node) : nat :=
  match Node.nodes n with
  | None => 1
  | Some ns => S (node_count (Node.tl ns) + node_count (Node.tr ns)
                  + node_count (Node.bl ns) + node_count (Node.br ns))
  end.

(** [n'] is [n] later: each node keeps its rectangle and depth, a node that
    had children still has them, and its own item list is as it was. *)
Fixpoint grows (n n' : Node) : Prop :=
  same_box n' n /\
  match Node.nodes n with
  | None => True
  | Some ns =>
      match Node.nodes n' with
      | None => False
      | Some ns' =>
          Node.items n' = Node.items n /\
          grows (Node.tl ns) (Node.tl ns') /\ grows (Node.tr ns) (Node.tr ns') /\
          grows (Node.bl ns) (Node.bl ns') /\ grows (Node.br ns) (Node.br ns')
      end
  end.

(** The leaf that [insert] routes the point [(px, py)] to: the node itself
    when it is a leaf, else the leaf of the first child, in the order of
    [insert], that has one. *)
Fixpoint leaf_at (n : Node) (px py : option float) : option Node :=
  if negb (Node.containsPoint n px py) then None
  else
    match Node.nodes n with
    | None => Some n
    | Some ns =>
        match leaf_at (Node.tl ns) px py with
        | Some l => Some l
        | None =>
            match leaf_at (Node.tr ns) px py with
            | Some l => Some l
            | None =>
                match leaf_at (Node.bl ns) px py with
                | Some l => Some l
                | None => leaf_at (Node.br ns) px py
                end
            end
        end
    end.

(** The quadrants in the order in which [insert] tries them, and the first
    child whose rectangle contains the point. *)
Definition quadrants : list quadrant := [TOP_LEFT; TOP_RIGHT; BOTTOM_LEFT; BOTTOM_RIGHT].

Definition hits (ns : Node.quad) (px py : option float) (q : quadrant) : bool :=
  Node.containsPoint (Node.get q ns) px py.

Definition first_hit (ns : Node.quad) (px py : option float) : option quadrant :=
  find (hits ns px py) quadrants.

(** ** Runs of the public interface *)

Inductive op : Type :=
  | Insert (item : insert_arg)
  | QueryRange (top left bottom right : arg)
  | QueryRangeByCenter (x y w h : arg)
  | QueryContainedBy (obj : option (arg * arg * arg * arg))
  | Clear.

Inductive response : Type :=
  | Done (c : completion unit)
  | Found (c : completion (list (option Item))).

(** One call: the state afterwards and what the caller observes. *)
Definition step (st : State) (c : op) : State * response :=
  match c with
  | Insert item => let (st', r) := _insert st item in (st', Done r)
  | QueryRange t l b r => (st, Found (_queryRange st t l b r))
  | QueryRangeByCenter x y w h => (st, Found (_queryRangeByCenter st x y w h))
  | QueryContainedBy obj => (st, Found (_queryContainedBy st obj))
  | Clear => let (st', r) := _clear st in (st', Done r)
  end.

(** A sequence of calls, a thrown error being caught by the caller: the
    final state and the observations in order. *)
Fixpoint run (st : State) (calls : list op) : State * list response :=
  match calls with
  | [] => (st, [])
  | c :: rest =>
      let (st', r) := step st c in
      let (st'', rs) := run st' rest in
      (st'', r :: rs)
  end.

(** The states an index can be in: after construction and any calls. *)
Definition reachable (st : State) : Prop :=
  exists options st0 calls,
    quadtree options = Normal st0 /\ st = fst (run st0 calls).

(** The items of a list of [insert] calls, in the order of the calls. *)
Definition items_of (a : insert_arg) : list Item :=
  match a with
  | One item => [item]
  | Many item => item
  end.

(** The item exposes coordinates that pass the inclusive bounds test. *)
Definition in_bounds (top left bottom right : float) (item : Item) : bool :=
  pointIsInBounds (item_x item) (item_y item) top left bottom right.

Definition in_root (o : Opts.t) (item : Item) : bool :=
  in_bounds (Opts.top o) (Opts.left o) (Opts.bottom o) (Opts.right o) item.

(** ** Vocabulary of binary64 *)

(** The specification of a number is a zero, a finite number or an
    infinity, with the sign [s]. *)
Definition sf_signed (s : bool) (x : spec_float) : bool :=
  match x with
  | S754_zero s' | S754_infinity s' | S754_finite s' _ _ => Bool.eqb s s'
  | S754_nan => false
  end.

(** It is a zero, or positive. *)
Definition sf_nonneg (x : spec_float) : bool :=
  match x with
  | S754_zero _ => true
  | S754_infinity s => negb s
  | S754_nan => false
  | S754_finite s _ _ => negb s
  end.

(** It is a zero or finite. *)
Definition sf_finite (x : spec_float) : bool :=
  match x with
  | S754_zero _ | S754_finite _ _ _ => true
  | _ => false
  end.

(** It is neither NaN nor minus infinity. *)
Definition sf_lower (x : spec_float) : bool :=
  match x with
  | S754_nan => false
  | S754_infinity s => negb s
  | _ => true
  end.

Definition sf_nan (x : spec_float) : bool :=
  match x with S754_nan => true | _ => false end.

(** A key of a number that is not NaN: comparing two numbers is comparing
    their keys in the lexicographic order. *)
Definition sf_key (x : spec_float) : Z * Z * Z :=
  match x with
  | S754_nan => (0, 0, 0)%Z
  | S754_zero _ => (0, 0, 0)%Z
  | S754_infinity s => (if s then -2 else 2, 0, 0)%Z
  | S754_finite s m e => if s then (-1, - e, - Zpos m)%Z else (1, e, Zpos m)%Z
  end.

Definition lex_le (a b : Z * Z * Z) : Prop :=
  let '(c1, e1, m1) := a in
  let '(c2, e2, m2) := b in
  (c1 < c2 \/ (c1 = c2 /\ (e1 < e2 \/ (e1 = e2 /\ m1 <= m2))))%Z.

Definition lex_lt (a b : Z * Z * Z) : Prop :=
  let '(c1, e1, m1) := a in
  let '(c2, e2, m2) := b in
  (c1 < c2 \/ (c1 = c2 /\ (e1 < e2 \/ (e1 = e2 /\ m1 < m2))))%Z.

Definition fkey (f : float) : Z * Z * Z := sf_key (Prim2SF f).

(** The coordinate at which [divide] cuts the interval from [l] to [r]:
    [l + halfWidth] with [halfWidth = (r - l) / 2]. *)
Definition cut (l r : float) : float := l + (r - l) / 2.

(** ** Vocabulary of the statements *)

(** [ins2] returns what [ins1] returns wherever [ins1] has fuel enough. *)
Definition more_defined (ins1 ins2 : Node -> IndexItem -> option (Node * completion bool))
  : Prop :=
  forall n it r, ins1 n it = Some r -> ins2 n it = Some r.

(** The children of [ns'] need no more fuel than those of [ns]. *)
Definition quad_le (o : Opts.t) (ns' ns : Node.quad) : Prop :=
  forall q, (Node.fuel_for o (Node.get q ns') <= Node.fuel_for o (Node.get q ns))%nat.

(** [ins] returns on every node that needs at most the fuel [f], and the
    node it returns needs no more fuel. *)
Definition total_upto (o : Opts.t) (f : nat)
                      (ins : Node -> IndexItem -> option (Node * completion bool))
  : Prop :=
  forall n it, (Node.fuel_for o n <= f)%nat ->
    exists r, ins n it = Some r /\ (Node.fuel_for o (fst r) <= Node.fuel_for o n)%nat.

(** What a call of [insert] that ends in [r] keeps of the node [n], whatever
    the tree: the nodes and their rectangles, the depth cap and, unless it
    throws, the empty item lists of the nodes that have children. *)
Definition keeps (o : Opts.t) (n : Node) (r : Node * completion bool) : Prop :=
  grows n (fst r) /\
  (depth_leb (Opts.max_depth o) n = true ->
   depth_leb (Opts.max_depth o) (fst r) = true) /\
  (forall b, snd r = Normal b -> kids_tidy n ->
     kids_tidy (fst r) /\
     (Node.nodes n = None -> Node.nodes (fst r) <> None -> Node.items (fst r) = [])).

(** The same, for the four children at once. *)
Definition quad_keeps (o : Opts.t) (ns ns' : Node.quad) (c : completion bool) : Prop :=
  forall q,
    grows (Node.get q ns) (Node.get q ns') /\
    (depth_leb (Opts.max_depth o) (Node.get q ns) = true ->
     depth_leb (Opts.max_depth o) (Node.get q ns') = true) /\
    (forall b, c = Normal b -> tidy (Node.get q ns) -> tidy (Node.get q ns')).

(** The one error a call of [Node.insert] can end in: no child accepted
    the item, in debug mode. *)
Definition node_error (o : Opts.t) (e : error) : Prop :=
  Opts.debug_mode o = true /\ exists px py, e = ItemNotInsertedIntoAnyNode px py.

(** What [insert] does on every tree with sound geometry, whatever its
    rectangle: the geometry stays sound, no item appears but the inserted
    one, a point outside the rectangle changes nothing, the only error is
    that of a point that no child accepts, in debug mode, and in debug
    mode a call that returns tells whether the rectangle contains the
    point. *)
Definition sane (o : Opts.t) (n : Node) (it : IndexItem) (r : Node * completion bool)
  : Prop :=
  geo (fst r) /\
  incl (all_items (fst r)) (it :: all_items n) /\
  (Node.containsPoint n (x it) (y it) = false -> r = (n, Normal false)) /\
  (forall e, snd r = Abrupt e -> node_error o e) /\
  (forall b, snd r = Normal b -> Opts.debug_mode o = true ->
     b = Node.containsPoint n (x it) (y it)).

(** [insert] ending in [r] added [it] to the items of the tree below [n]
    exactly once if the rectangle of [n] contains its point, and not at all
    otherwise; no other item was lost or duplicated. *)
Definition owned (n : Node) (it : IndexItem) (r : Node * completion bool) : Prop :=
  Permutation (all_items (fst r))
              (if Node.containsPoint n (x it) (y it) then it :: all_items n
               else all_items n).

(** What [insert] does on a tree with sound geometry whose top left corner
    is finite: it accepts exactly the points of the node's rectangle, never
    throws, adds an accepted item once, and the divided nodes still have a
    finite corner. *)
Definition good (n : Node) (it : IndexItem) (r : Node * completion bool) : Prop :=
  snd r = Normal (Node.containsPoint n (x it) (y it)) /\
  owned n it r /\
  (firm n -> firm (fst r)).

(** The point of [w] passes the bounds test of the query rectangle. *)
Definition in_query (t l b r : float) (w : IndexItem) : Prop :=
  pointIsInBounds (x w) (y w) t l b r = true.

(** [init] never leaves a zero in [max_per_cell] or [max_depth]. *)
Definition normal_opts (o : Opts.t) : Prop :=
  Opts.max_per_cell o <> 0%Z /\ Opts.max_depth o <> 0%Z.

(** The root covers the configured rectangle, at depth 0. *)
Definition root_box (st : State) : Prop :=
  same_box (tree st)
    (Node.new (Opts.top (opts st)) (Opts.left (opts st))
              (Opts.bottom (opts st)) (Opts.right (opts st)) 0).

(** The configured [top] and [left] are finite numbers. *)
Definition finite_origin (o : Opts.t) : bool :=
  is_finite (Opts.top o) && is_finite (Opts.left o).

(** Debug mode is off, or the configured [top] and [left] are finite: the
    completion of an [insert] is then determined by the root rectangle. *)
Definition predictable (o : Opts.t) : bool :=
  negb (Opts.debug_mode o) || finite_origin o.

(** Each entry of the tree stands for an item of the backing store, at a
    position from [k] on, under that position. *)
Definition sound (k : nat) (st : State) : Prop :=
  forall w, In w (all_items (tree st)) ->
    exists it, nth_error (allItems st) (i w) = Some it /\ (k <= i w)%nat /\
               w = itemToIndex it (i w).

(** The tree holds every item of the backing store from position [k] on
    whose point is in the root rectangle. *)
Definition complete (k : nat) (st : State) : Prop :=
  forall j it, nth_error (allItems st) j = Some it -> (k <= j)%nat ->
    in_root (opts st) it = true -> In (itemToIndex it j) (all_items (tree st)).

(** The invariant of the states of an index, [k] being the length of the
    backing store at the last [clear]. *)
Record Inv (k : nat) (st : State) : Prop := mkInv {
  inv_opts : normal_opts (opts st);
  inv_geo : geo (tree st);
  inv_box : root_box st;
  inv_depth : (0 <= Opts.max_depth (opts st))%Z ->
              depth_leb (Opts.max_depth (opts st)) (tree st) = true;
  inv_base : (k <= length (allItems st))%nat;
  inv_sound : sound k st;
  inv_nodup : NoDup (map i (all_items (tree st)));
  inv_full : finite_origin (opts st) = true ->
             tidy (tree st) /\ firm (tree st) /\ complete k st
}.

(** What a call of [insert] appends to the backing store and how it
    completes, as a function of the configuration alone. *)
Definition pushed (o : Opts.t) (cur : Item) : completion unit :=
  if Opts.debug_mode o && negb (in_root o cur)
  then Abrupt (ItemNotInserted cur) else Normal tt.

(** The same for the loop over an array: it stops at the first item that
    throws. *)
Fixpoint loop_effect (o : Opts.t) (rest : list Item) : list Item * completion unit :=
  match rest with
  | [] => ([], Normal tt)
  | cur :: rest' =>
      match pushed o cur with
      | Abrupt e => ([cur], Abrupt e)
      | Normal _ => let (d, c) := loop_effect o rest' in (cur :: d, c)
      end
  end.

(** The same for the public [insert]. *)
Definition insert_effect (o : Opts.t) (a : insert_arg) : list Item * completion unit :=
  match a with
  | One item =>
      match checkIsValid o item with
      | Abrupt e => ([], Abrupt e)
      | Normal false => ([], Normal tt)
      | Normal true => ([item], pushed o item)
      end
  | Many [] => ([], Normal tt)
  | Many (first :: rest) =>
      match checkIsValid o first with
      | Abrupt e => ([], Abrupt e)
      | Normal false => ([], Normal tt)
      | Normal true => loop_effect o (first :: rest)
      end
  end.

(** The answer of a query on the items [live]: those in the root rectangle
    and in the query rectangle, in the order of the backing store. *)
Definition answer (o : Opts.t) (t l b r : float) (live : list Item) : list (option Item) :=
  map Some (filter (fun it => in_root o it && in_bounds t l b r it) live).

(** A call of [insert] that should have the effect [eff] ended in [r]: the
    invariant holds afterwards, whatever happened, and the call had the
    effect [eff] if the configuration is predictable. *)
Definition insert_post (k : nat) (st : State) (eff : list Item * completion unit)
                       (r : State * completion unit) : Prop :=
  Inv k (fst r) /\ opts (fst r) = opts st /\
  grows (tree st) (tree (fst r)) /\
  (exists d, allItems (fst r) = allItems st ++ d) /\
  (predictable (opts st) = true ->
   allItems (fst r) = allItems st ++ fst eff /\ snd r = snd eff).

(** The test of [answer], on a position of the backing store. *)
Definition wanted (o : Opts.t) (t l b r : float) (items : list Item) (j : nat) : bool :=
  match nth_error items j with
  | Some it => in_root o it && in_bounds t l b r it
  | None => false
  end.

(** The items a list of calls appends to the backing store. *)
Definition stored (o : Opts.t) (calls : list insert_arg) : list Item :=
  flat_map (fun a => fst (insert_effect o a)) calls.

(** The items that a sequence of calls leaves indexed, [live] being those
    indexed before: the items appended to the backing store since the last
    [clear]. *)
Fixpoint live_items (o : Opts.t) (live : list Item) (calls : list op) : list Item :=
  match calls with
  | [] => live
  | Insert a :: rest => live_items o (live ++ fst (insert_effect o a)) rest
  | Clear :: rest => live_items o [] rest
  | _ :: rest => live_items o live rest
  end.

(** Two configurations with the same rectangle and the same [debug_mode]. *)
Definition same_frame (o o' : Opts.t) : Prop :=
  Opts.top o = Opts.top o' /\ Opts.left o = Opts.left o' /\
  Opts.bottom o = Opts.bottom o' /\ Opts.right o = Opts.right o' /\
  Opts.debug_mode o = Opts.debug_mode o'.



(** The item lacks [x] or [y]. *)
Definition lacks_xy (it : Item) : bool :=
  negb (has (item_x it)) || negb (has (item_y it)).

(** A concrete index on the square from (0,0) to (100,100). *)
Definition index100 (mpc md : Z) (dbg : bool) : State :=
  {| opts := {| Opts.top := 0; Opts.left := 0; Opts.bottom := 100; Opts.right := 100;
                Opts.max_per_cell := mpc; Opts.max_depth := md;
                Opts.debug_mode := dbg |};
     tree := Node.new 0 0 100 100 0;
     allItems := [] |}.

(** A concrete index on the whole plane, from minus infinity to plus
    infinity in both directions. *)
Definition plane (mpc md : Z) (dbg : bool) : State :=
  {| opts := {| Opts.top := neg_infinity; Opts.left := neg_infinity;
                Opts.bottom := infinity; Opts.right := infinity;
                Opts.max_per_cell := mpc; Opts.max_depth := md;
                Opts.debug_mode := dbg |};
     tree := Node.new neg_infinity neg_infinity infinity infinity 0;
     allItems := [] |}.

(** A concrete index on a rectangle whose width is not a binary64 number:
    from [-2^1023] to [2^1023], by 0 to 100. *)
Definition huge (mpc md : Z) (dbg : bool) : State :=
  {| opts := {| Opts.top := 0; Opts.left := - 0x1p1023;
                Opts.bottom := 100; Opts.right := 0x1p1023;
                Opts.max_per_cell := mpc; Opts.max_depth := md;
                Opts.debug_mode := dbg |};
     tree := Node.new 0 (- 0x1p1023) 100 0x1p1023 0;
     allItems := [] |}.

(** An item without [x]. *)
Definition no_x (tag : nat) : Item :=
  {| item_x := None; item_y := Some 1; item_tag := tag |}.

(** The tree after the items [items] were passed to the root's [insert] one
    after the other, the first under the index [index]. *)
Fixpoint offer_all (o : Opts.t) (t : Node) (index : nat) (items : list Item) : Node :=
  match items with
  | [] => t
  | cur :: rest =>
      offer_all o (fst (Node.insert o t (itemToIndex cur index))) (S index) rest
  end.

(** [P] holds of every node of the tree. *)
Fixpoint every_node (P : Node -> Prop) (n : Node) : Prop :=
  P n /\
  match Node.nodes n with
  | None => True
  | Some ns => every_node P (Node.tl ns) /\ every_node P (Node.tr ns)
               /\ every_node P (Node.bl ns) /\ every_node P (Node.br ns)
  end.

(** The two cuts of [m] lie within its rectangle. *)
Definition cuts_within (m : Node) : Prop :=
  (Node.left m <=? cut (Node.left m) (Node.right m)) = true /\
  (cut (Node.left m) (Node.right m) <=? Node.right m) = true /\
  (Node.top m <=? cut (Node.top m) (Node.bottom m)) = true /\
  (cut (Node.top m) (Node.bottom m) <=? Node.bottom m) = true.

(** What one node must satisfy: items only without children; the children
    are the four quadrants, cut at the coordinates that [divide] computes,
    one level deeper; they leave no gap in the rectangle of the node, they
    overlap on the cuts only, and they lie within the rectangle of the node
    if the cuts do. *)
Definition node_ok (m : Node) : Prop :=
  (Node.items m <> [] -> Node.nodes m = None) /\
  forall ns, Node.nodes m = Some ns ->
    Node.items m = [] /\
    (forall q, same_box (Node.get q ns) (Node.get q (Node.children m))) /\
    (forall q, Node.depth (Node.get q ns) = (Node.depth m + 1)%Z) /\
    (forall px py, Node.containsPoint m px py = true ->
                   exists q, Node.containsPoint (Node.get q ns) px py = true) /\
    (forall q q' a c, q <> q' ->
       Node.containsPoint (Node.get q ns) (Some a) (Some c) = true ->
       Node.containsPoint (Node.get q' ns) (Some a) (Some c) = true ->
       (a =? cut (Node.left m) (Node.right m)) = true \/
       (c =? cut (Node.top m) (Node.bottom m)) = true) /\
    (cuts_within m ->
     forall q px py, Node.containsPoint (Node.get q ns) px py = true ->
                     Node.containsPoint m px py = true).

(** A query, as a call. *)
Definition is_query (c : op) : bool :=
  match c with
  | QueryRange _ _ _ _ | QueryRangeByCenter _ _ _ _ | QueryContainedBy _ => true
  | _ => false
  end.

(** Once the leaf that a point is routed to is at the depth cap, [insert]
    appends to that leaf and creates no node. *)
Definition lands (o : Opts.t) (n : Node) (it : IndexItem) (lf : Node) : Prop :=
  snd (Node.insert o n it) = Normal true /\
  leaf_at (fst (Node.insert o n it)) (x it) (y it)
  = Some (Node.set_items lf (Node.items lf ++ [it])) /\
  node_count (fst (Node.insert o n it)) = node_count n.

(** The items of the calls all have the coordinates [(px, py)]. *)
Definition all_at (px py : option float) (items : list Item) : Prop :=
  Forall (fun it => item_x it = px /\ item_y it = py) items.

(** The wrapped items for [n] items at [(px, py)] stored from position [k]. *)
Definition wrapped_at (px py : option float) (k n : nat) : list IndexItem :=
  map (fun j => {| x := px; y := py; i := j |}) (seq k n).

(** The leaf of the point (10,10) after three items at (10,10) were inserted
    with [max_per_cell = 1] and [max_depth = 2]. *)
Definition capped_leaf : Node :=
  Node.mk 0 0 25 25 2
          [ {| x := Some 10; y := Some 10; i := 0%nat |};
            {| x := Some 10; y := Some 10; i := 1%nat |};
            {| x := Some 10; y := Some 10; i := 2%nat |} ] None.

(** ** Vocabulary of the further properties *)

(** The argument is a number. *)
Definition numeric (a : arg) : bool :=
  match a with Num _ => true | NotNum => false end.

(** The four arguments of a query are numbers. *)
Definition all_numeric (a b c d : arg) : bool :=
  numeric a && numeric b && numeric c && numeric d.

(** Every leaf above the depth cap holds at most [max_per_cell] items (none
    when [max_per_cell] is negative). *)
Fixpoint within_capacity (o : Opts.t) (n : Node) : bool :=
  match Node.nodes n with
  | None =>
      (Z.of_nat (length (Node.items n)) <=? Z.max 0 (Opts.max_per_cell o))%Z
      || (Opts.max_depth o <=? Node.depth n)%Z
  | Some ns =>
      within_capacity o (Node.tl ns) && within_capacity o (Node.tr ns)
      && within_capacity o (Node.bl ns) && within_capacity o (Node.br ns)
  end.

(** [this.divide()], the recursive calls being [Node.insert]. *)
Definition divide_now (o : Opts.t) (this : Node) : option (Node * completion bool) :=
  Node.divide o (fun n it => Some (Node.insert o n it)) this.

(** The indices a scan of all the items of the tree finds, without any
    pruning. *)
Definition linear_scan (t l b r : float) (n : Node) : list nat :=
  Node.collect t l b r (all_items n) [].

(** The query rectangle [(t, l, b, r)] lies within [(t', l', b', r')]. *)
Definition within_rect (t l b r t' l' b' r' : float) : bool :=
  (t' <=? t) && (l' <=? l) && (b <=? b') && (r <=? r').

(** The item has both coordinates, and its point is in the root rectangle
    if debug mode is on: [insert] stores it without raising. *)
Definition accepted_quietly (o : Opts.t) (it : Item) : bool :=
  negb (lacks_xy it) && (negb (Opts.debug_mode o) || in_root o it).

(** An entry of the tree, and a tree, with every index moved up by [k]. *)
Definition shift_item (k : nat) (w : IndexItem) : IndexItem :=
  {| x := x w; y := y w; i := (k + i w)%nat |}.

Fixpoint shift (k : nat) (n : Node) : Node :=
  Node.mk (Node.top n) (Node.left n) (Node.bottom n) (Node.right n) (Node.depth n)
          (map (shift_item k) (Node.items n))
          match Node.nodes n with
          | None => None
          | Some ns =>
              Some (Node.mkQuad (shift k (Node.tl ns)) (shift k (Node.tr ns))
                                (shift k (Node.bl ns)) (shift k (Node.br ns)))
          end.

Definition shift_quad (k : nat) (ns : Node.quad) : Node.quad :=
  Node.mkQuad (shift k (Node.tl ns)) (shift k (Node.tr ns))
              (shift k (Node.bl ns)) (shift k (Node.br ns)).

Definition shift_result (k : nat) (r : Node * completion bool) : Node * completion bool :=
  (shift k (fst r), snd r).

Definition shift_quads (k : nat) (r : Node.quad * completion bool)
  : Node.quad * completion bool :=
  (shift_quad k (fst r), snd r).

(** Two indexes with the same configuration and the same tree up to the
    positions of the items, the backing store of the first one holding [k]
    items more in front. *)
Definition shifted (k : nat) (s1 s2 : State) : Prop :=
  opts s1 = opts s2 /\ tree s1 = shift k (tree s2) /\
  exists pre, length pre = k /\ allItems s1 = pre ++ allItems s2.

Unset Implicit Arguments.

(** ** Binary64 arithmetic: rounding, order and the cut of an interval *)

Section Binary64.

Local Open Scope Z_scope.

Lemma digits2_bounds m :
  2 ^ (Zpos (digits2_pos m) - 1) <= Zpos m < 2 ^ Zpos (digits2_pos m).
Proof.
  induction m as [p IH|p IH|]; simpl digits2_pos.
  - rewrite Pos2Z.inj_succ.
    replace (Z.succ (Zpos (digits2_pos p)) - 1) with (Z.succ (Zpos (digits2_pos p) - 1)) by lia.
    rewrite !Z.pow_succ_r by lia. lia.
  - rewrite Pos2Z.inj_succ.
    replace (Z.succ (Zpos (digits2_pos p)) - 1) with (Z.succ (Zpos (digits2_pos p) - 1)) by lia.
    rewrite !Z.pow_succ_r by lia. lia.
  - simpl. lia.
Qed.

Lemma digits2_le m k : 0 <= k -> Zpos m < 2 ^ k -> Zpos (digits2_pos m) <= k.
Proof.
  intros Hk H. destruct (digits2_bounds m) as [H1 _].
  destruct (Z_le_gt_dec (Zpos (digits2_pos m)) k) as [|Hgt]; [assumption|].
  assert (2 ^ k <= 2 ^ (Zpos (digits2_pos m) - 1)) by (apply Z.pow_le_mono_r; lia).
  lia.
Qed.

Lemma shr_1_m mrs : 0 <= shr_m mrs -> shr_m (shr_1 mrs) = shr_m mrs / 2.
Proof.
  destruct mrs as [m r s]. simpl. intros H.
  destruct m as [|[p|p|]|p]; simpl; try lia.
  - reflexivity.
  - apply Z.div_unique with 1; lia.
  - apply Z.div_unique with 0; lia.
  - reflexivity.
Qed.

Lemma iter_shr_m p : forall mrs,
  0 <= shr_m mrs -> shr_m (SpecFloat.iter_pos shr_1 p mrs) = shr_m mrs / 2 ^ Zpos p.
Proof.
  induction p as [p IH|p IH|]; intros mrs H; cbn [SpecFloat.iter_pos].
  - assert (H1 : 0 <= shr_m (shr_1 mrs)) by (rewrite shr_1_m by lia; apply Z.div_pos; lia).
    assert (H2 : 0 <= shr_m (SpecFloat.iter_pos shr_1 p (shr_1 mrs)))
      by (rewrite IH by lia; apply Z.div_pos; [lia | apply Z.pow_pos_nonneg; lia]).
    rewrite IH, IH, shr_1_m by lia.
    rewrite !Z.div_div by (try apply Z.pow_pos_nonneg; lia).
    f_equal. change (Z.pos p~1) with (2 * Z.pos p + 1).
    replace (2 * Zpos p + 1) with (1 + Zpos p + Zpos p) by lia.
    rewrite !Z.pow_add_r by lia. lia.
  - assert (H2 : 0 <= shr_m (SpecFloat.iter_pos shr_1 p mrs))
      by (rewrite IH by lia; apply Z.div_pos; [lia | apply Z.pow_pos_nonneg; lia]).
    rewrite IH, IH by lia.
    rewrite !Z.div_div by (try apply Z.pow_pos_nonneg; lia).
    f_equal. change (Z.pos p~0) with (2 * Z.pos p).
    replace (2 * Zpos p) with (Zpos p + Zpos p) by lia.
    rewrite !Z.pow_add_r by lia. lia.
  - rewrite shr_1_m by lia. reflexivity.
Qed.

Lemma shr_record_of_loc_m m l : shr_m (shr_record_of_loc m l) = m.
Proof. destruct l as [|[]]; reflexivity. Qed.

(** [shr] divides the mantissa by [2^n] and adds [n] to the exponent, for a
    positive [n]; it does nothing otherwise. *)
Lemma shr_spec mrs e n :
  0 <= shr_m mrs ->
  shr_m (fst (shr mrs e n)) = shr_m mrs / 2 ^ Z.max 0 n /\
  snd (shr mrs e n) = e + Z.max 0 n.
Proof.
  intros H. destruct n as [|p|p]; simpl.
  - rewrite Z.div_1_r. lia.
  - rewrite iter_shr_m by lia. split; [reflexivity | lia].
  - rewrite Z.div_1_r. lia.
Qed.

Lemma round_nearest_even_bounds m l :
  m <= round_nearest_even m l <= m + 1.
Proof. destruct l as [|[]]; simpl; try lia. destruct (Z.even m); lia. Qed.

Section Rounding.
Let prec := 53.
Let emax := 1024.

(** [binary_round_aux] on a mantissa that is not negative: the mantissa is
    shifted to the exponent [fexp], rounded to [m1] (the truncated mantissa
    or the next integer), and shifted once more. *)
Lemma binary_round_aux_spec s mx ex lx :
  0 <= mx ->
  let d := Z.max 0 (fexp prec emax (Zdigits2 mx + ex) - ex) in
  exists m1,
    mx / 2 ^ d <= m1 <= mx / 2 ^ d + 1 /\
    let n2 := Z.max 0 (fexp prec emax (Zdigits2 m1 + (ex + d)) - (ex + d)) in
    binary_round_aux prec emax s mx ex lx =
    match m1 / 2 ^ n2 with
    | Z0 => S754_zero s
    | Zpos m => if ex + d + n2 <=? emax - prec then S754_finite s m (ex + d + n2)
                else S754_infinity s
    | Zneg _ => S754_nan
    end.
Proof.
  intros H d. unfold binary_round_aux, shr_fexp.
  destruct (shr_spec (shr_record_of_loc mx lx) ex
              (fexp prec emax (Zdigits2 mx + ex) - ex)) as [A1 A2].
  { rewrite shr_record_of_loc_m. exact H. }
  rewrite shr_record_of_loc_m in A1. fold d in A1, A2.
  destruct (shr (shr_record_of_loc mx lx) ex _) as [mrs' e'].
  cbn [fst snd] in A1, A2. subst e'.
  set (m1 := round_nearest_even (shr_m mrs') (loc_of_shr_record mrs')).
  exists m1.
  pose proof (round_nearest_even_bounds (shr_m mrs') (loc_of_shr_record mrs')) as Hm1.
  fold m1 in Hm1. rewrite A1 in Hm1. split; [exact Hm1|].
  assert (0 <= mx / 2 ^ d) by (apply Z.div_pos; [lia | apply Z.pow_pos_nonneg; lia]).
  destruct (shr_spec (shr_record_of_loc m1 loc_Exact) (ex + d)
              (fexp prec emax (Zdigits2 m1 + (ex + d)) - (ex + d))) as [B1 B2].
  { simpl. lia. }
  destruct (shr (shr_record_of_loc m1 loc_Exact) _ _) as [mrs'' e''].
  cbn [fst snd] in B1, B2. simpl shr_m in B1 at 2.
  cbv zeta. rewrite B1, B2. reflexivity.
Qed.

Lemma binary_round_aux_sign s mx ex lx :
  0 <= mx -> sf_signed s (binary_round_aux prec emax s mx ex lx) = true.
Proof.
  intros H. destruct (binary_round_aux_spec s mx ex lx H) as (m1 & Hm1 & ->).
  cbv zeta.
  set (d := Z.max 0 (fexp prec emax (Zdigits2 mx + ex) - ex)) in *.
  set (n2 := Z.max 0 _).
  assert (0 <= mx / 2 ^ d) by (apply Z.div_pos; [lia | apply Z.pow_pos_nonneg; lia]).
  assert (0 <= m1 / 2 ^ n2) by (apply Z.div_pos; [lia | apply Z.pow_pos_nonneg; lia]).
  destruct (m1 / 2 ^ n2); try lia; simpl.
  - apply eqb_reflx.
  - destruct (_ <=? _); simpl; apply eqb_reflx.
Qed.
End Rounding.

Lemma SFcompare_key a b :
  sf_nan a = false -> sf_nan b = false ->
  exists c, SFcompare a b = Some c /\
    (c = Lt <-> lex_lt (sf_key a) (sf_key b)) /\
    (c = Gt <-> lex_lt (sf_key b) (sf_key a)).
Proof.
  destruct a as [sa|sa| |sa ma ea], b as [sb|sb| |sb mb eb]; simpl;
    try discriminate; intros _ _;
    try (destruct sa); try (destruct sb); simpl;
    try (eexists; split; [reflexivity|]; split; split; intros H; try discriminate H;
         try reflexivity; lia).
  - change (Pos.compare_cont Eq ma mb) with (Pos.compare ma mb).
    destruct (Z.compare_spec ea eb); destruct (Pos.compare_spec ma mb); simpl;
      eexists; (split; [reflexivity|]); split; split; intros H'; try discriminate H';
      try reflexivity; try lia.
  - change (Pos.compare_cont Eq ma mb) with (Pos.compare ma mb).
    destruct (Z.compare_spec ea eb); destruct (Pos.compare_spec ma mb); simpl;
      eexists; (split; [reflexivity|]); split; split; intros H'; try discriminate H';
      try reflexivity; try lia.
Qed.

Lemma SFleb_key a b :
  SFleb a b = true <->
  sf_nan a = false /\ sf_nan b = false /\ lex_le (sf_key a) (sf_key b).
Proof.
  unfold SFleb.
  destruct (sf_nan a) eqn:Na.
  { destruct a; try discriminate. simpl. split; [discriminate | intros [H _]; discriminate]. }
  destruct (sf_nan b) eqn:Nb.
  { destruct b; try discriminate. destruct a; simpl;
      (split; [discriminate | intros (_ & H & _); discriminate]). }
  destruct (SFcompare_key a b Na Nb) as (c & -> & HLt & HGt).
  destruct (sf_key a) as [[c1 e1] m1], (sf_key b) as [[c2 e2] m2].
  unfold lex_lt, lex_le in *.
  destruct c; split; intros H; try discriminate; auto.
  - split; [reflexivity|]. split; [reflexivity|].
    assert (~ (c1 < c2 \/ c1 = c2 /\ (e1 < e2 \/ e1 = e2 /\ m1 < m2)))
      by (intros X; apply HLt in X; discriminate).
    assert (~ (c2 < c1 \/ c2 = c1 /\ (e2 < e1 \/ e2 = e1 /\ m2 < m1)))
      by (intros X; apply HGt in X; discriminate).
    lia.
  - split; [reflexivity|]. split; [reflexivity|].
    assert (c1 < c2 \/ c1 = c2 /\ (e1 < e2 \/ e1 = e2 /\ m1 < m2)) by (apply HLt; reflexivity).
    lia.
  - assert (c2 < c1 \/ c2 = c1 /\ (e2 < e1 \/ e2 = e1 /\ m2 < m1)) by (apply HGt; reflexivity).
    lia.
Qed.

Lemma SFltb_key a b :
  SFltb a b = true <->
  sf_nan a = false /\ sf_nan b = false /\ lex_lt (sf_key a) (sf_key b).
Proof.
  unfold SFltb.
  destruct (sf_nan a) eqn:Na.
  { destruct a; try discriminate. simpl. split; [discriminate | intros [H _]; discriminate]. }
  destruct (sf_nan b) eqn:Nb.
  { destruct b; try discriminate. destruct a; simpl;
      (split; [discriminate | intros (_ & H & _); discriminate]). }
  destruct (SFcompare_key a b Na Nb) as (c & -> & HLt & HGt).
  destruct c; split; intros H; try discriminate; auto.
  - destruct H as (_ & _ & H). apply HLt in H. discriminate.
  - split; [reflexivity|]. split; [reflexivity|]. apply HLt. reflexivity.
  - destruct H as (_ & _ & H). apply HLt in H. discriminate.
Qed.

Lemma SFeqb_key a b :
  SFeqb a b = true <->
  sf_nan a = false /\ sf_nan b = false /\ sf_key a = sf_key b.
Proof.
  unfold SFeqb.
  destruct (sf_nan a) eqn:Na.
  { destruct a; try discriminate. simpl. split; [discriminate | intros [H _]; discriminate]. }
  destruct (sf_nan b) eqn:Nb.
  { destruct b; try discriminate. destruct a; simpl;
      (split; [discriminate | intros (_ & H & _); discriminate]). }
  destruct (SFcompare_key a b Na Nb) as (c & -> & HLt & HGt).
  destruct (sf_key a) as [[c1 e1] m1], (sf_key b) as [[c2 e2] m2].
  unfold lex_lt in *.
  destruct c; split; intros H; try discriminate; auto.
  - split; [reflexivity|]. split; [reflexivity|].
    assert (~ (c1 < c2 \/ c1 = c2 /\ (e1 < e2 \/ e1 = e2 /\ m1 < m2)))
      by (intros X; apply HLt in X; discriminate).
    assert (~ (c2 < c1 \/ c2 = c1 /\ (e2 < e1 \/ e2 = e1 /\ m2 < m1)))
      by (intros X; apply HGt in X; discriminate).
    f_equal; [f_equal|]; lia.
  - destruct H as (_ & _ & H). injection H as -> -> ->.
    assert (c2 < c2 \/ c2 = c2 /\ (e2 < e2 \/ e2 = e2 /\ m2 < m2)) by (apply HLt; reflexivity).
    lia.
  - destruct H as (_ & _ & H). injection H as -> -> ->.
    assert (c2 < c2 \/ c2 = c2 /\ (e2 < e2 \/ e2 = e2 /\ m2 < m2)) by (apply HGt; reflexivity).
    lia.
Qed.

Section Arith.

Lemma shl_align_spec mx ex ex' :
  snd (shl_align mx ex ex') = Z.min ex ex' /\
  Zpos (fst (shl_align mx ex ex')) = Zpos mx * 2 ^ (ex - Z.min ex ex').
Proof.
  unfold shl_align. destruct (ex' - ex) as [|d|d] eqn:E; cbn [fst snd].
  - replace (Z.min ex ex') with ex by lia. rewrite Z.sub_diag. simpl. lia.
  - replace (Z.min ex ex') with ex by lia. rewrite Z.sub_diag. simpl. lia.
  - replace (Z.min ex ex') with ex' by lia. split; [reflexivity|].
    change (Pos.iter xO mx d) with (shift_pos d mx).
    rewrite shift_pos_correct.
    replace (ex - ex') with (Zpos d) by lia.
    rewrite Z.mul_comm. reflexivity.
Qed.

Lemma digits2_shift m mz k :
  0 <= k -> Zpos mz = Zpos m * 2 ^ k ->
  Zpos (digits2_pos mz) = Zpos (digits2_pos m) + k.
Proof.
  intros Hk E.
  destruct (digits2_bounds m) as [A1 A2], (digits2_bounds mz) as [B1 B2].
  set (dm := Zpos (digits2_pos m)) in *. set (dz := Zpos (digits2_pos mz)) in *.
  assert (0 < dm) by (unfold dm; lia). assert (0 < dz) by (unfold dz; lia).
  assert (P : 0 < 2 ^ k) by (apply Z.pow_pos_nonneg; lia).
  assert (U : Zpos mz < 2 ^ (dm + k)) by (rewrite Z.pow_add_r by lia; nia).
  assert (L : 2 ^ (dm - 1 + k) <= Zpos mz) by (rewrite Z.pow_add_r by lia; nia).
  destruct (Z.lt_trichotomy dz (dm + k)) as [C|[C|C]]; [|exact C|].
  - assert (2 ^ dz <= 2 ^ (dm - 1 + k)) by (apply Z.pow_le_mono_r; lia). lia.
  - assert (2 ^ (dm + k) <= 2 ^ (dz - 1)) by (apply Z.pow_le_mono_r; lia). lia.
Qed.

Lemma Zdigits2_le m k : 0 <= m -> 0 <= k -> m < 2 ^ k -> Zdigits2 m <= k.
Proof.
  intros Hm Hk H. destruct m as [|p|p]; simpl; try lia.
  apply digits2_le; assumption.
Qed.

Lemma binary_round_sign s m e : sf_signed s (binary_round 53 1024 s m e) = true.
Proof.
  unfold binary_round. destruct (shl_align m e _) as [mz ez].
  apply binary_round_aux_sign. lia.
Qed.

Lemma bounded_spec M E :
  bounded 53 1024 M E = true ->
  Zpos M < 2 ^ 53 /\ -1074 <= E <= 971 /\
  (E = -1074 \/ 2 ^ 52 <= Zpos M).
Proof.
  unfold bounded, canonical_mantissa, fexp, SpecFloat.emin.
  rewrite andb_true_iff, Z.eqb_eq, Z.leb_le. intros [H1 H2].
  destruct (digits2_bounds M) as [B1 B2].
  set (d := Zpos (digits2_pos M)) in *.
  assert (d <= 53) by lia.
  assert (Zpos M < 2 ^ 53).
  { assert (2 ^ d <= 2 ^ 53) by (apply Z.pow_le_mono_r; lia). lia. }
  split; [assumption|]. split; [lia|].
  destruct (Z.eq_dec E (-1074)) as [|N]; [left; assumption | right].
  assert (d = 53) by lia.
  replace 52 with (d - 1) by lia. exact B1.
Qed.

(** Rounding a number smaller than a representable number does not
    overflow. *)
Lemma binary_round_finite s m e M E :
  bounded 53 1024 M E = true -> e <= E ->
  Zpos m < Zpos M * 2 ^ (E - e) ->
  sf_finite (binary_round 53 1024 s m e) = true.
Proof.
  intros HB He Hm. destruct (bounded_spec M E HB) as (HM & HE & _).
  unfold binary_round.
  set (D := Zpos (digits2_pos m) + e).
  set (f := fexp 53 1024 D).
  destruct (shl_align_spec m e f) as [S1 S2].
  destruct (shl_align m e f) as [mz ez]. cbn [fst snd] in S1, S2.
  assert (P : 0 < 2 ^ (E - e)) by (apply Z.pow_pos_nonneg; lia).
  assert (Hdm : Zpos (digits2_pos m) <= 53 + (E - e)).
  { apply digits2_le; [lia|]. rewrite Z.pow_add_r by lia. nia. }
  assert (Hf : f <= E /\ -1074 <= f /\ D - 53 <= f).
  { unfold f, fexp, SpecFloat.emin, D. lia. }
  assert (Hez : ez <= f /\ ez <= e) by lia.
  assert (Hdz : Zpos (digits2_pos mz) + ez = D).
  { rewrite (digits2_shift m mz (e - Z.min e f)) by (try exact S2; lia).
    unfold D. lia. }
  destruct (binary_round_aux_spec s (Zpos mz) ez loc_Exact) as (m1 & Hm1 & ->); [lia|].
  cbv zeta. simpl Zdigits2 in *. rewrite Hdz in *. fold f in Hm1 |- *.
  replace (Z.max 0 (f - ez)) with (f - ez) in * by lia.
  replace (ez + (f - ez)) with f by lia.
  set (q := Zpos mz / 2 ^ (f - ez)) in *.
  assert (Hq0 : 0 <= q) by (apply Z.div_pos; [lia | apply Z.pow_pos_nonneg; lia]).
  assert (Hq1 : q < 2 ^ 53).
  { apply Z.div_lt_upper_bound; [apply Z.pow_pos_nonneg; lia|].
    rewrite <- Z.pow_add_r by lia.
    destruct (digits2_bounds mz) as [_ B].
    assert (2 ^ Zpos (digits2_pos mz) <= 2 ^ (f - ez + 53))
      by (apply Z.pow_le_mono_r; lia).
    lia. }
  assert (Hq2 : f = 971 -> q <= 2 ^ 53 - 2).
  { intros Ef. assert (EE : E = 971) by lia. assert (Ee : ez = e) by lia.
    assert (Emz : Zpos mz = Zpos m).
    { rewrite S2. replace (e - Z.min e f) with 0 by lia. simpl. lia. }
    assert (q < Zpos M); [|lia].
    unfold q. apply Z.div_lt_upper_bound; [apply Z.pow_pos_nonneg; lia|].
    rewrite Emz. replace (f - ez) with (E - e) by lia. rewrite Z.mul_comm. exact Hm. }
  set (n2 := Z.max 0 (fexp 53 1024 (Zdigits2 m1 + f) - f)).
  assert (Hn2 : f + n2 <= 971).
  { assert (Hd1 : Zdigits2 m1 <= 54).
    { apply Zdigits2_le; lia. }
    destruct (Z.eq_dec f 971) as [Ef|Nf].
    - assert (Zdigits2 m1 <= 53).
      { specialize (Hq2 Ef). apply Zdigits2_le; lia. }
      unfold n2, fexp, SpecFloat.emin. lia.
    - unfold n2, fexp, SpecFloat.emin. lia. }
  assert (H0 : 0 <= m1 / 2 ^ n2) by (apply Z.div_pos; [lia | apply Z.pow_pos_nonneg; lia]).
  destruct (m1 / 2 ^ n2); try reflexivity; [|lia].
  replace (f + n2 <=? 1024 - 53) with true; [reflexivity|].
  symmetry. apply Z.leb_le. lia.
Qed.
End Arith.

Lemma sf_signed_nonneg x : sf_signed false x = true -> sf_nonneg x = true.
Proof. destruct x as [[]|[]| |[] ? ?]; simpl; auto. Qed.

Lemma sf_signed_lower x : sf_signed false x = true -> sf_lower x = true.
Proof. destruct x as [[]|[]| |[] ? ?]; simpl; auto. Qed.

Lemma sf_finite_lower x : sf_finite x = true -> sf_lower x = true.
Proof. destruct x as [[]|[]| |[] ? ?]; simpl; auto. Qed.

Lemma binary_normalize_nonneg z e :
  0 <= z -> sf_signed false (binary_normalize 53 1024 z e false) = true.
Proof.
  intros H. destruct z as [|p|p]; simpl; [reflexivity | | lia].
  apply binary_round_sign.
Qed.

(** [x - y] is not negative when [y <= x] and [y] is finite. *)
Lemma SFsub_nonneg x y :
  valid_binary x = true -> valid_binary y = true ->
  sf_finite y = true -> SFleb y x = true ->
  sf_nonneg (SFsub 53 1024 x y) = true.
Proof.
  intros Vx Vy Fy Hle. apply SFleb_key in Hle. destruct Hle as (Ny & Nx & Hle).
  destruct y as [sy|sy| |sy my ey]; try discriminate;
    destruct x as [sx|sx| |sx mx ex]; try discriminate; simpl in Hle |- *.
  - destruct sx, sy; reflexivity.
  - destruct sx; [lia | reflexivity].
  - destruct sx; [lia | reflexivity].
  - destruct sy; simpl in Hle; [reflexivity | lia].
  - destruct sx; [destruct sy; simpl in Hle; lia | reflexivity].
  - apply sf_signed_nonneg, binary_normalize_nonneg.
    destruct (shl_align_spec mx ex (Z.min ex ey)) as [_ ->].
    destruct (shl_align_spec my ey (Z.min ex ey)) as [_ ->].
    rewrite ?Z.min_id.
    replace (Z.min ex (Z.min ex ey)) with (Z.min ex ey) by lia.
    replace (Z.min ey (Z.min ex ey)) with (Z.min ex ey) by lia.
    simpl in Vx, Vy.
    destruct (bounded_spec _ _ Vx) as (X1 & X2 & X3).
    destruct (bounded_spec _ _ Vy) as (Y1 & Y2 & Y3).
    assert (Px : 0 < 2 ^ (ex - Z.min ex ey)) by (apply Z.pow_pos_nonneg; lia).
    assert (Py : 0 < 2 ^ (ey - Z.min ex ey)) by (apply Z.pow_pos_nonneg; lia).
    set (kx := ex - Z.min ex ey) in *. set (ky := ey - Z.min ex ey) in *.
    assert (Hk : (ex <= ey -> kx = 0 /\ ky = ey - ex) /\
                 (ey <= ex -> ky = 0 /\ kx = ex - ey)) by (unfold kx, ky; lia).
    assert (Hp : forall k, 1 <= k -> 2 <= 2 ^ k).
    { intros k Hk1. change 2 with (2 ^ 1) at 1. apply Z.pow_le_mono_r; lia. }
    clearbody kx ky.
    destruct sx, sy; simpl in Hle; cbn [cond_Zopp].
    + destruct (Z.lt_trichotomy ex ey) as [C|[C|C]]; [| |lia].
      * destruct Hk as [[-> ->] _]; [lia|].
        change (2 ^ 0) with 1. assert (2 <= 2 ^ (ey - ex)) by (apply Hp; lia).
        assert (2 ^ 52 <= Z.pos my) by lia. nia.
      * subst ey. destruct Hk as [[-> ->] _]; [lia|].
        rewrite Z.sub_diag. change (2 ^ 0) with 1. lia.
    + lia.
    + nia.
    + destruct (Z.lt_trichotomy ex ey) as [C|[C|C]]; [lia| |].
      * subst ey. destruct Hk as [[-> ->] _]; [lia|].
        rewrite Z.sub_diag. change (2 ^ 0) with 1. lia.
      * destruct Hk as [_ [-> ->]]; [lia|].
        change (2 ^ 0) with 1. assert (2 <= 2 ^ (ex - ey)) by (apply Hp; lia).
        assert (2 ^ 52 <= Z.pos mx) by lia. nia.
Qed.

(** Halving keeps the sign. *)
Lemma SFdiv_nonneg x my ey :
  sf_nonneg x = true ->
  sf_nonneg (SFdiv 53 1024 x (S754_finite false my ey)) = true.
Proof.
  destruct x as [sx|sx| |sx mx ex]; simpl; try discriminate.
  - intros _. reflexivity.
  - destruct sx; [discriminate | reflexivity].
  - destruct sx; [discriminate|]. intros _. cbn [xorb].
    unfold SFdiv_core_binary.
    set (e' := Z.min _ _). set (m' := match ex - ey - e' with 0 => _ | _ => _ end).
    assert (Hm' : 0 <= m').
    { unfold m'. destruct (ex - ey - e'); try lia. apply Z.shiftl_nonneg. lia. }
    pose proof (Z.div_pos m' (Zpos my) Hm' (Pos2Z.is_pos my)) as Hq.
    unfold Z.div in Hq. destruct (Z.div_eucl m' (Zpos my)) as [q r].
    cbn [fst] in Hq.
    apply sf_signed_nonneg, binary_round_aux_sign. exact Hq.
Qed.

(** Adding a number that is not negative to a finite number gives neither
    NaN nor minus infinity. *)
Lemma SFadd_lower l h :
  valid_binary l = true -> sf_finite l = true -> sf_nonneg h = true ->
  sf_lower (SFadd 53 1024 l h) = true.
Proof.
  intros Vl Fl Hh.
  destruct l as [sl|sl| |sl ml el]; try discriminate;
    destruct h as [sh|sh| |sh mh eh]; try discriminate; simpl in Hh |- *.
  - destruct sl, sh; reflexivity.
  - destruct sh; [discriminate | reflexivity].
  - reflexivity.
  - reflexivity.
  - destruct sh; [discriminate | reflexivity].
  - destruct sh; [discriminate|]. clear Hh.
    destruct (shl_align_spec ml el (Z.min el eh)) as [_ ->].
    destruct (shl_align_spec mh eh (Z.min el eh)) as [_ ->].
    replace (Z.min el (Z.min el eh)) with (Z.min el eh) by lia.
    replace (Z.min eh (Z.min el eh)) with (Z.min el eh) by lia.
    assert (Pl : 0 < 2 ^ (el - Z.min el eh)) by (apply Z.pow_pos_nonneg; lia).
    assert (Ph : 0 < 2 ^ (eh - Z.min el eh)) by (apply Z.pow_pos_nonneg; lia).
    cbn [cond_Zopp].
    set (L := Zpos ml * 2 ^ (el - Z.min el eh)) in *.
    set (H := Zpos mh * 2 ^ (eh - Z.min el eh)) in *.
    assert (0 < L) by (unfold L; nia). assert (0 < H) by (unfold H; nia).
    destruct sl; cbn [cond_Zopp].
    + destruct (- L + H) as [|p|p] eqn:E; cbn [binary_normalize].
      * reflexivity.
      * apply sf_signed_lower, binary_round_sign.
      * apply sf_finite_lower.
        apply (binary_round_finite true p (Z.min el eh) ml el Vl); [lia|].
        fold L. lia.
    + apply sf_signed_lower, binary_normalize_nonneg. lia.
Qed.

End Binary64.

Lemma SFeqb_refl x : SFeqb x x = negb (sf_nan x).
Proof.
  destruct (sf_nan x) eqn:N.
  - destruct x; try discriminate. reflexivity.
  - simpl. apply SFeqb_key. auto.
Qed.

Lemma is_nan_spec f : is_nan f = sf_nan (Prim2SF f).
Proof. unfold is_nan. rewrite FloatAxioms.eqb_spec, SFeqb_refl, negb_involutive. reflexivity. Qed.

Lemma Prim2SF_infinity : Prim2SF infinity = S754_infinity false.
Proof. reflexivity. Qed.

Lemma Prim2SF_two : Prim2SF 2 = S754_finite false 4503599627370496 (-51).
Proof. reflexivity. Qed.

Lemma is_finite_spec f : is_finite f = sf_finite (Prim2SF f).
Proof.
  unfold is_finite, is_infinity. rewrite is_nan_spec, FloatAxioms.eqb_spec, FloatAxioms.abs_spec, Prim2SF_infinity.
  destruct (Prim2SF f) as [s|s| |s m e]; try reflexivity; destruct s; reflexivity.
Qed.

Lemma leb_key a b :
  (a <=? b) = true <->
  is_nan a = false /\ is_nan b = false /\ lex_le (fkey a) (fkey b).
Proof. rewrite FloatAxioms.leb_spec, !is_nan_spec. apply SFleb_key. Qed.

Lemma ltb_key a b :
  (a <? b) = true <->
  is_nan a = false /\ is_nan b = false /\ lex_lt (fkey a) (fkey b).
Proof. rewrite FloatAxioms.ltb_spec, !is_nan_spec. apply SFltb_key. Qed.

Lemma eqb_key a b :
  (a =? b) = true <->
  is_nan a = false /\ is_nan b = false /\ fkey a = fkey b.
Proof. rewrite FloatAxioms.eqb_spec, !is_nan_spec. apply SFeqb_key. Qed.

(** Turns the comparisons of the context into facts on keys. *)
Ltac fkeys :=
  repeat match goal with
         | H : (_ <=? _) = true |- _ => apply leb_key in H; destruct H as (? & ? & H)
         | H : (_ <? _) = true |- _ => apply ltb_key in H; destruct H as (? & ? & H)
         | H : (_ =? _) = true |- _ => apply eqb_key in H; destruct H as (? & ? & H)
         end;
  repeat match goal with
         | |- context [fkey ?a] =>
             let c := fresh "c" in let e := fresh "e" in let m := fresh "m" in
             destruct (fkey a) as [[c e] m]
         | H : context [fkey ?a] |- _ =>
             let c := fresh "c" in let e := fresh "e" in let m := fresh "m" in
             destruct (fkey a) as [[c e] m]
         end;
  unfold lex_le, lex_lt in *.

Lemma leb_trans a b c : (a <=? b) = true -> (b <=? c) = true -> (a <=? c) = true.
Proof.
  intros H1 H2. apply leb_key. fkeys. repeat split; try assumption. fkeys. lia.
Qed.

Lemma leb_defined a b : (a <=? b) = true -> is_nan a = false /\ is_nan b = false.
Proof. intros H. apply leb_key in H. tauto. Qed.

Lemma leb_refl a : is_nan a = false -> (a <=? a) = true.
Proof. intros H. apply leb_key. repeat split; try assumption. fkeys. lia. Qed.

Lemma leb_total a b :
  is_nan a = false -> is_nan b = false -> (a <=? b) = true \/ (b <=? a) = true.
Proof.
  intros Ha Hb.
  assert (lex_le (fkey a) (fkey b) \/ lex_le (fkey b) (fkey a)) as [H|H].
  { fkeys. lia. }
  - left. apply leb_key. auto.
  - right. apply leb_key. auto.
Qed.


Lemma ltb_not_leb a b : (a <? b) = true -> (b <=? a) = false.
Proof.
  intros H. apply not_true_is_false. intros H'. fkeys. lia.
Qed.

Lemma not_leb_ltb a b :
  is_nan a = false -> is_nan b = false -> (a <=? b) = false -> (b <? a) = true.
Proof.
  intros Ha Hb H. apply ltb_key. repeat split; try assumption.
  assert (N : ~ lex_le (fkey a) (fkey b)).
  { intros X. rewrite (proj2 (leb_key a b)) in H by auto. discriminate. }
  fkeys. lia.
Qed.

Lemma leb_antisym a b : (a <=? b) = true -> (b <=? a) = true -> (a =? b) = true.
Proof.
  intros H1 H2. apply eqb_key. fkeys. repeat split; try assumption.
  fkeys. f_equal; [f_equal|]; lia.
Qed.

Lemma eqb_leb a b : (a =? b) = true -> (a <=? b) = true.
Proof.
  intros H. apply leb_key. apply eqb_key in H. destruct H as (Ha & Hb & E).
  rewrite E. repeat split; try assumption. fkeys. lia.
Qed.

Lemma is_finite_not_nan a : is_finite a = true -> is_nan a = false.
Proof. rewrite is_finite_spec, is_nan_spec. destruct (Prim2SF a); simpl; auto. Qed.


Lemma cut_spec l r :
  Prim2SF (cut l r) =
  SFadd 53 1024 (Prim2SF l)
        (SFdiv 53 1024 (SFsub 53 1024 (Prim2SF r) (Prim2SF l))
               (S754_finite false 4503599627370496 (-51))).
Proof.
  unfold cut. rewrite FloatAxioms.add_spec, FloatAxioms.div_spec, FloatAxioms.sub_spec, Prim2SF_two. reflexivity.
Qed.

(** From an infinite or undefined [l] the cut is NaN. *)
Lemma cut_nan l r : is_finite l = false -> is_nan (cut l r) = true.
Proof.
  rewrite is_finite_spec, is_nan_spec, cut_spec.
  destruct (Prim2SF l) as [sl|sl| |sl ml el]; try discriminate; intros _.
  - destruct (Prim2SF r) as [sr|sr| |sr mr er]; destruct sl; try destruct sr; reflexivity.
  - reflexivity.
Qed.

(** From a finite [l] that is at most [r] the cut is a number, finite or
    plus infinity. *)
Lemma cut_lower l r :
  is_finite l = true -> (l <=? r) = true -> sf_lower (Prim2SF (cut l r)) = true.
Proof.
  rewrite is_finite_spec, FloatAxioms.leb_spec, cut_spec. intros Fl Hle.
  apply SFadd_lower; [apply Prim2SF_valid | exact Fl|].
  apply SFdiv_nonneg.
  apply SFsub_nonneg; auto using Prim2SF_valid.
Qed.

Lemma cut_defined l r :
  is_finite l = true -> (l <=? r) = true -> is_nan (cut l r) = false.
Proof.
  intros Fl Hle. pose proof (cut_lower l r Fl Hle) as H.
  rewrite is_nan_spec. destruct (Prim2SF (cut l r)); try discriminate; reflexivity.
Qed.

(** A cut below some number is finite. *)
Lemma cut_finite l r a :
  is_finite l = true -> (l <=? r) = true -> (cut l r <? a) = true ->
  is_finite (cut l r) = true.
Proof.
  intros Fl Hle Hlt. pose proof (cut_lower l r Fl Hle) as H.
  rewrite is_finite_spec. rewrite FloatAxioms.ltb_spec in Hlt. apply SFltb_key in Hlt.
  destruct Hlt as (_ & Na & Hlt).
  destruct (Prim2SF (cut l r)) as [s|s| |s m e]; try discriminate; try reflexivity.
  destruct s; [discriminate|]. exfalso.
  destruct (Prim2SF a) as [s|s| |s m e]; try discriminate; simpl in Hlt;
    try destruct s; simpl in Hlt; lia.
Qed.

Set Implicit Arguments.

(** ** Lemmas on fuel *)

Section Fuel.
Variable o : Opts.t.

Lemma delegate_mono ins1 ins2 :
  more_defined ins1 ins2 ->
  forall qs ns it r,
    Node.delegate ins1 qs ns it = Some r -> Node.delegate ins2 qs ns it = Some r.
Proof.
  intros H qs; induction qs as [|q qs IH]; simpl; intros ns it r E; auto.
  destruct (ins1 (Node.get q ns) it) as [[n' c]|] eqn:E1; try discriminate.
  rewrite (H _ _ _ E1).
  destruct c as [[|]|e]; auto.
Qed.

Lemma reinsert_mono ins1 ins2 :
  more_defined ins1 ins2 ->
  forall its n r,
    Node.reinsert o ins1 n its = Some r -> Node.reinsert o ins2 n its = Some r.
Proof.
  intros H its; induction its as [|it its IH]; simpl; intros n r E; auto.
  destruct (ins1 n it) as [[n' c]|] eqn:E1; try discriminate.
  rewrite (H _ _ _ E1).
  destruct c as [b|e]; auto.
  destruct (Opts.debug_mode o && negb b); auto.
Qed.

Lemma insert_body_mono ins1 ins2 :
  more_defined ins1 ins2 ->
  more_defined (Node.insert_body o ins1) (Node.insert_body o ins2).
Proof.
  intros H n it r. unfold Node.insert_body, Node.divide.
  destruct (negb _); auto.
  destruct (Node.nodes n) as [ns|].
  - destruct (Node.delegate ins1 _ ns it) as [[ns' c]|] eqn:E; try discriminate.
    rewrite (delegate_mono H _ _ _ E). auto.
  - destruct (_ || _); auto.
    destruct (Node.reinsert o ins1 _ _) as [[n' c]|] eqn:E; try discriminate.
    rewrite (reinsert_mono H _ _ E).
    destruct c; auto.
Qed.

Lemma insert_fuel_S f :
  more_defined (Node.insert_fuel f o) (Node.insert_fuel (S f) o).
Proof.
  induction f as [|f IH]; intros n it r E.
  - discriminate.
  - change (Node.insert_body o (Node.insert_fuel (S f) o) n it = Some r).
    exact (insert_body_mono IH _ _ E).
Qed.

Lemma insert_fuel_mono f f' :
  (f <= f')%nat -> more_defined (Node.insert_fuel f o) (Node.insert_fuel f' o).
Proof.
  induction 1 as [|f' _ IH]; intros n it r E; auto.
  apply insert_fuel_S, IH, E.
Qed.

Lemma quad_le_set q n' ns' ns :
  quad_le o ns' ns ->
  (Node.fuel_for o n' <= Node.fuel_for o (Node.get q ns'))%nat ->
  quad_le o (Node.set q n' ns') ns.
Proof.
  intros H Hn q'. specialize (H q') as Hq'. specialize (H q).
  destruct q, q'; simpl in *; lia.
Qed.

Lemma delegate_total f ins :
  total_upto o f ins ->
  forall qs ns0 ns it,
    quad_le o ns ns0 ->
    (forall q, (Node.fuel_for o (Node.get q ns0) <= f)%nat) ->
    exists r, Node.delegate ins qs ns it = Some r /\ quad_le o (fst r) ns0.
Proof.
  intros H qs; induction qs as [|q qs IH]; simpl; intros ns0 ns it Hle Hf.
  - eexists; split; [reflexivity | exact Hle].
  - destruct (H (Node.get q ns) it) as [[n' c] [E Hn']].
    { specialize (Hle q). specialize (Hf q). lia. }
    rewrite E. cbn [fst] in Hn'.
    assert (quad_le o (Node.set q n' ns) ns0) by (apply quad_le_set; auto).
    destruct c as [[|]|e]; try (eexists; split; [reflexivity | assumption]).
    apply IH; auto.
Qed.

Lemma reinsert_total f ins :
  total_upto o f ins ->
  forall its n,
    (Node.fuel_for o n <= f)%nat ->
    exists r, Node.reinsert o ins n its = Some r
              /\ (Node.fuel_for o (fst r) <= Node.fuel_for o n)%nat.
Proof.
  intros H its; induction its as [|it its IH]; simpl; intros n Hf.
  - eexists; split; [reflexivity | simpl; lia].
  - destruct (H n it Hf) as [[n' c] [E Hn']]. rewrite E. cbn [fst] in Hn'.
    destruct c as [b|e]; try (eexists; split; [reflexivity | assumption]).
    destruct (Opts.debug_mode o && negb b);
      try (eexists; split; [reflexivity | assumption]).
    destruct (IH n') as [r [E' Hr]]; [lia|].
    exists r; split; [exact E' | lia].
Qed.

Lemma fuel_for_interior n ns :
  Node.nodes n = Some ns ->
  Node.fuel_for o n =
  S (Nat.max (Nat.max (Node.fuel_for o (Node.tl ns)) (Node.fuel_for o (Node.tr ns)))
             (Nat.max (Node.fuel_for o (Node.bl ns)) (Node.fuel_for o (Node.br ns)))).
Proof. destruct n; simpl; intros ->; reflexivity. Qed.

Lemma fuel_for_leaf n :
  Node.nodes n = None ->
  Node.fuel_for o n = S (2 * Z.to_nat (Opts.max_depth o - Node.depth n)).
Proof. destruct n; simpl; intros ->; reflexivity. Qed.

Lemma fuel_for_set_nodes n ns' ns :
  Node.nodes n = Some ns -> quad_le o ns' ns ->
  (Node.fuel_for o (Node.set_nodes n (Some ns')) <= Node.fuel_for o n)%nat.
Proof.
  intros E H. rewrite (fuel_for_interior n E).
  rewrite (@fuel_for_interior (Node.set_nodes n (Some ns')) ns' eq_refl).
  pose proof (H TOP_LEFT); pose proof (H TOP_RIGHT);
    pose proof (H BOTTOM_LEFT); pose proof (H BOTTOM_RIGHT).
  simpl in *; lia.
Qed.

Lemma fuel_for_set_items n its :
  Node.fuel_for o (Node.set_items n its) = Node.fuel_for o n.
Proof. destruct n as [? ? ? ? ? ? [ns|]]; reflexivity. Qed.

Lemma fuel_for_children n :
  Node.nodes n = None -> (Node.depth n < Opts.max_depth o)%Z ->
  S (Node.fuel_for o (Node.set_nodes n (Some (Node.children n)))) = Node.fuel_for o n.
Proof.
  intros E H. rewrite (fuel_for_leaf n E).
  rewrite (@fuel_for_interior (Node.set_nodes n (Some (Node.children n))) _ eq_refl).
  simpl.
  replace (Z.to_nat (Opts.max_depth o - Node.depth n))
    with (S (Z.to_nat (Opts.max_depth o - (Node.depth n + 1)))) by lia.
  lia.
Qed.

Lemma insert_body_total f ins :
  total_upto o f ins -> total_upto o (S f) (Node.insert_body o ins).
Proof.
  intros H n it Hf. unfold Node.insert_body, Node.divide.
  destruct (negb _); [eexists; split; [reflexivity | simpl; lia]|].
  destruct (Node.nodes n) as [ns|] eqn:En.
  - destruct (@delegate_total f ins H [TOP_LEFT; TOP_RIGHT; BOTTOM_LEFT; BOTTOM_RIGHT]
                              ns ns it) as [[ns' c] [E Hle]].
    { intros q; lia. }
    { rewrite (fuel_for_interior n En) in Hf. intros q; destruct q; simpl; lia. }
    rewrite E. cbn [fst] in Hle.
    pose proof (fuel_for_set_nodes n En Hle).
    destruct c as [[|]|e]; try destruct (Opts.debug_mode o);
      eexists; split; try reflexivity; assumption.
  - destruct (_ || _) eqn:Eroom.
    + eexists; split; [reflexivity|]. cbn [fst]. rewrite fuel_for_set_items. lia.
    + apply orb_false_iff in Eroom. destruct Eroom as [_ Ed].
      apply Z.leb_gt in Ed.
      pose proof (fuel_for_children n En Ed) as Hc.
      destruct (@reinsert_total f ins H (Node.items n)
                  (Node.set_nodes n (Some (Node.children n)))) as [[n1 c] [E Hn1]];
        [lia|].
      rewrite E. cbn [fst] in Hn1.
      destruct c as [b|e]; [|eexists; split; [reflexivity | cbn [fst]; lia]].
      destruct (H (Node.set_items n1 []) it) as [r [E' Hr]].
      { rewrite fuel_for_set_items. lia. }
      exists r; split; [exact E'|]. rewrite fuel_for_set_items in Hr. lia.
Qed.

Lemma insert_fuel_total f : total_upto o f (Node.insert_fuel f o).
Proof.
  induction f as [|f IH].
  - intros n it Hf. destruct n as [? ? ? ? ? ? [ns|]]; simpl in Hf; lia.
  - exact (insert_body_total IH).
Qed.

(** With the fuel [Node.fuel_for] or more, [Node.insert_fuel] gives the
    result of [Node.insert]. *)
Lemma insert_fuel_enough f n it :
  (Node.fuel_for o n <= f)%nat ->
  Node.insert_fuel f o n it = Some (Node.insert o n it).
Proof.
  intros Hf. unfold Node.insert.
  destruct (@insert_fuel_total (Node.fuel_for o n) n it (le_n _)) as [r [E _]].
  rewrite E. exact (insert_fuel_mono Hf _ _ E).
Qed.

(** [Node.insert] satisfies the equation of the source's body. *)
Lemma insert_unfold n it :
  Node.insert_body o (fun n' it' => Some (Node.insert o n' it')) n it
  = Some (Node.insert o n it).
Proof.
  pose proof (@insert_fuel_enough (S (Node.fuel_for o n)) n it (Nat.le_succ_diag_r _)) as E.
  simpl in E.
  destruct (@insert_body_total (Node.fuel_for o n) _
              (@insert_fuel_total (Node.fuel_for o n)) n it) as [r [E' _]]; [lia|].
  rewrite E' in E. injection E as <-.
  revert E'. apply insert_body_mono.
  intros n' it' r' E''.
  destruct (Nat.le_ge_cases (Node.fuel_for o n') (Node.fuel_for o n)) as [Hle|Hle].
  - rewrite (@insert_fuel_enough _ n' it' Hle) in E''. exact E''.
  - unfold Node.insert. rewrite (insert_fuel_mono Hle _ _ E''). reflexivity.
Qed.
End Fuel.

(** ** Basic facts on trees *)

(** Reading a field of a node that was just updated. *)
Ltac nsimpl :=
  cbn [Node.nodes Node.items Node.depth Node.top Node.left Node.bottom Node.right
       Node.set_items Node.set_nodes Node.new fst snd] in *.

Lemma node_induction (P : Node -> Prop) :
  (forall n, Node.nodes n = None -> P n) ->
  (forall n ns, Node.nodes n = Some ns ->
     P (Node.tl ns) -> P (Node.tr ns) -> P (Node.bl ns) -> P (Node.br ns) -> P n) ->
  forall n, P n.
Proof.
  intros Hleaf Hint. fix IH 1.
  intros [t l b r d its [[n1 n2 n3 n4]|]].
  - apply (Hint (Node.mk t l b r d its (Some (Node.mkQuad n1 n2 n3 n4)))
                (Node.mkQuad n1 n2 n3 n4) eq_refl); simpl; apply IH.
  - apply Hleaf. reflexivity.
Qed.

Lemma quadrant_eq_dec (q q' : quadrant) : {q = q'} + {q <> q'}.
Proof. decide equality. Qed.

Lemma get_set_same q n ns : Node.get q (Node.set q n ns) = n.
Proof. destruct q; reflexivity. Qed.

Lemma get_set_other q q' n ns : q <> q' -> Node.get q' (Node.set q n ns) = Node.get q' ns.
Proof. destruct q, q'; intros H; try reflexivity; contradiction H; reflexivity. Qed.

Lemma set_get q ns : Node.set q (Node.get q ns) ns = ns.
Proof. destruct q, ns; reflexivity. Qed.

Lemma same_box_refl n : same_box n n.
Proof. repeat split. Qed.

Lemma same_box_set_nodes n ns : same_box (Node.set_nodes n ns) n.
Proof. repeat split. Qed.

Lemma same_box_set_items n its : same_box (Node.set_items n its) n.
Proof. repeat split. Qed.

Lemma same_box_sym a b : same_box a b -> same_box b a.
Proof. unfold same_box. intuition congruence. Qed.

Lemma same_box_trans a b c : same_box a b -> same_box b c -> same_box a c.
Proof. unfold same_box. intuition congruence. Qed.

Lemma grows_eq n n' :
  grows n n' =
  (same_box n' n /\
   match Node.nodes n with
   | None => True
   | Some ns =>
       match Node.nodes n' with
       | None => False
       | Some ns' =>
           Node.items n' = Node.items n /\
           grows (Node.tl ns) (Node.tl ns') /\ grows (Node.tr ns) (Node.tr ns') /\
           grows (Node.bl ns) (Node.bl ns') /\ grows (Node.br ns) (Node.br ns')
       end
   end).
Proof. destruct n; reflexivity. Qed.

Lemma tidy_eq n :
  tidy n =
  match Node.nodes n with
  | None => True
  | Some ns =>
      Node.items n = [] /\
      tidy (Node.tl ns) /\ tidy (Node.tr ns) /\ tidy (Node.bl ns) /\ tidy (Node.br ns)
  end.
Proof. destruct n; reflexivity. Qed.

Lemma depth_leb_eq D n :
  depth_leb D n =
  (Node.depth n <=? D)%Z &&
  match Node.nodes n with
  | None => true
  | Some ns => depth_leb D (Node.tl ns) && depth_leb D (Node.tr ns)
               && depth_leb D (Node.bl ns) && depth_leb D (Node.br ns)
  end.
Proof. destruct n; reflexivity. Qed.

Lemma geo_eq n :
  geo n =
  (Forall (inside n) (all_items n) /\
   match Node.nodes n with
   | None => True
   | Some ns =>
       box_ok n /\ quadrants_of n ns /\
       geo (Node.tl ns) /\ geo (Node.tr ns) /\ geo (Node.bl ns) /\ geo (Node.br ns)
   end).
Proof. destruct n; reflexivity. Qed.

Lemma all_items_eq n : all_items n = Node.items n ++ kid_items n.
Proof. destruct n; reflexivity. Qed.

Lemma firm_eq n :
  firm n =
  match Node.nodes n with
  | None => True
  | Some ns =>
      finite_corner n = true /\
      firm (Node.tl ns) /\ firm (Node.tr ns) /\ firm (Node.bl ns) /\ firm (Node.br ns)
  end.
Proof. destruct n; reflexivity. Qed.

Lemma kid_items_eq n ns : Node.nodes n = Some ns -> kid_items n = quad_items ns.
Proof. unfold kid_items. intros ->. reflexivity. Qed.

Lemma grows_box n n' : grows n n' -> same_box n' n.
Proof. rewrite grows_eq. tauto. Qed.

Lemma grows_refl n : grows n n.
Proof.
  induction n as [n E|n ns E H1 H2 H3 H4] using node_induction;
    rewrite grows_eq, E; auto using same_box_refl.
  repeat split; auto.
Qed.

Lemma grows_trans a : forall b c, grows a b -> grows b c -> grows a c.
Proof.
  induction a as [a E|a ns E H1 H2 H3 H4] using node_induction; intros b c.
  - rewrite (grows_eq a b), (grows_eq a c), E.
    intros [Hb _] Hc. apply grows_box in Hc. eauto using same_box_trans.
  - rewrite (grows_eq a b), (grows_eq a c), (grows_eq b c), E.
    intros [Hb Hab] [Hc Hbc].
    destruct (Node.nodes b) as [nb|]; [|contradiction].
    destruct (Node.nodes c) as [nc|]; [|contradiction].
    split; [eauto using same_box_trans|].
    intuition (eauto; congruence).
Qed.

Lemma grows_interior n n' :
  grows n n' -> Node.nodes n <> None ->
  Node.nodes n' <> None /\ Node.items n' = Node.items n.
Proof.
  rewrite grows_eq. intros [_ H] Hn.
  destruct (Node.nodes n); [|contradiction].
  destruct (Node.nodes n'); [|contradiction].
  split; [discriminate | tauto].
Qed.

Lemma tidy_kids n :
  tidy n <-> kids_tidy n /\ (Node.nodes n <> None -> Node.items n = []).
Proof.
  rewrite tidy_eq. unfold kids_tidy. destruct (Node.nodes n).
  - split; [intros [? ?]; auto | intros [? H]; split; auto; apply H; discriminate].
  - split; auto. intros _. split; auto. intros H; contradiction H; reflexivity.
Qed.

(** ** What [insert] keeps, whatever the tree *)

Section Structure.
Variable o : Opts.t.

Lemma keeps_same n c : keeps o n (n, c).
Proof.
  repeat split; simpl; auto using grows_refl.
  intros E1 E2. contradiction.
Qed.

Lemma keeps_tidy n n' b : keeps o n (n', Normal b) -> tidy n -> tidy n'.
Proof.
  intros (Hg & _ & Ht) Hn. simpl in *.
  apply tidy_kids in Hn. destruct Hn as [Hk Hi].
  destruct (Ht b eq_refl Hk) as [Hk' Hi'].
  apply tidy_kids. split; auto. intros Hn'.
  destruct (Node.nodes n) as [ns|] eqn:E.
  - destruct (@grows_interior n n' Hg) as [_ ->]; [congruence|].
    apply Hi. discriminate.
  - auto.
Qed.

Lemma quad_keeps_set q ns n' c :
  keeps o (Node.get q ns) (n', c) -> quad_keeps o ns (Node.set q n' ns) c.
Proof.
  intros H q'. destruct (quadrant_eq_dec q q') as [<-|Hq].
  - rewrite get_set_same. destruct H as (Hg & Hd & Ht). simpl in *.
    repeat split; auto. intros b -> Hn. apply (@keeps_tidy (Node.get q ns) n' b); [|exact Hn].
    unfold keeps; simpl; auto.
  - rewrite (get_set_other _ _ Hq). auto using grows_refl.
Qed.

Lemma quad_keeps_trans ns1 ns2 ns3 c :
  quad_keeps o ns1 ns2 (Normal false) -> quad_keeps o ns2 ns3 c -> quad_keeps o ns1 ns3 c.
Proof.
  intros H12 H23 q. destruct (H12 q) as (G1 & D1 & T1), (H23 q) as (G2 & D2 & T2).
  repeat split; eauto using grows_trans.
Qed.

Section Body.
Variable ins : Node -> IndexItem -> option (Node * completion bool).
Hypothesis ins_keeps : forall n it r, ins n it = Some r -> keeps o n r.

Lemma delegate_keeps qs : forall ns it ns' c,
  Node.delegate ins qs ns it = Some (ns', c) -> quad_keeps o ns ns' c.
Proof.
  induction qs as [|q qs IH]; simpl; intros ns it ns' c E.
  - injection E as <- <-. intros q. auto using grows_refl.
  - destruct (ins (Node.get q ns) it) as [[n1 c1]|] eqn:E1; try discriminate.
    apply ins_keeps in E1.
    destruct c1 as [[|]|e]; try (injection E as <- <-; apply quad_keeps_set, E1).
    eapply quad_keeps_trans; [apply quad_keeps_set, E1 | eapply IH, E].
Qed.

Lemma reinsert_keeps its : forall n n' c,
  Node.reinsert o ins n its = Some (n', c) ->
  grows n n' /\
  (depth_leb (Opts.max_depth o) n = true -> depth_leb (Opts.max_depth o) n' = true) /\
  (forall b, c = Normal b -> kids_tidy n -> kids_tidy n').
Proof.
  induction its as [|it its IH]; simpl; intros n n' c E.
  - injection E as <- <-. auto using grows_refl.
  - destruct (ins n it) as [[n1 c1]|] eqn:E1; try discriminate.
    apply ins_keeps in E1. destruct E1 as (G1 & D1 & T1). simpl in *.
    destruct c1 as [b1|e].
    + destruct (Opts.debug_mode o && negb b1).
      * injection E as <- <-. repeat split; auto. discriminate.
      * destruct (IH _ _ _ E) as (G2 & D2 & T2).
        repeat split; eauto using grows_trans.
        intros b Hc Hk. apply (T2 b Hc). apply (T1 b1 eq_refl Hk).
    + injection E as <- <-. repeat split; auto. discriminate.
Qed.

Lemma insert_body_keeps n it r :
  Node.insert_body o ins n it = Some r -> keeps o n r.
Proof.
  unfold Node.insert_body, Node.divide.
  destruct (negb _).
  { intros E; injection E as <-. apply keeps_same. }
  destruct (Node.nodes n) as [ns|] eqn:En.
  - destruct (Node.delegate ins _ ns it) as [[ns' c]|] eqn:E; try discriminate.
    apply delegate_keeps in E. intros Er.
    assert (Hk : keeps o n (Node.set_nodes n (Some ns'), c)).
    { unfold keeps. cbn [fst snd]. split; [|split].
      - rewrite grows_eq, En. simpl (Node.nodes (Node.set_nodes _ _)).
        split; [apply same_box_set_nodes|].
        split; [reflexivity|].
        repeat split; first [apply (E TOP_LEFT) | apply (E TOP_RIGHT)
                            | apply (E BOTTOM_LEFT) | apply (E BOTTOM_RIGHT)].
      - rewrite (depth_leb_eq (Opts.max_depth o) n), En.
        rewrite (depth_leb_eq (Opts.max_depth o) (Node.set_nodes n (Some ns'))).
        simpl (Node.nodes (Node.set_nodes _ _)).
        simpl (Node.depth (Node.set_nodes _ _)).
        rewrite !andb_true_iff. intros (? & ((? & ?) & ?) & ?).
        repeat split; auto;
          first [apply (E TOP_LEFT) | apply (E TOP_RIGHT)
                | apply (E BOTTOM_LEFT) | apply (E BOTTOM_RIGHT)]; auto.
      - intros b Hc Hk. split; [|rewrite En; discriminate].
        unfold kids_tidy in *. simpl (Node.nodes (Node.set_nodes _ _)).
        rewrite En in Hk. destruct Hk as (? & ? & ? & ?).
        repeat split;
          first [eapply (E TOP_LEFT) | eapply (E TOP_RIGHT)
                | eapply (E BOTTOM_LEFT) | eapply (E BOTTOM_RIGHT)]; eauto. }
    destruct c as [[|]|e]; try (injection Er as <-; exact Hk).
    destruct (Opts.debug_mode o); injection Er as <-; [|exact Hk].
    destruct Hk as (? & ? & ?). repeat split; simpl in *; auto; discriminate.
  - destruct (_ || _) eqn:Eroom.
    + intros E; injection E as <-. unfold keeps. split; [|split]; nsimpl.
      * rewrite grows_eq, En. split; auto. apply same_box_set_items.
      * rewrite (depth_leb_eq (Opts.max_depth o) n),
          (depth_leb_eq (Opts.max_depth o) (Node.set_items _ _)).
        nsimpl. auto.
      * intros b _ Hk. split; [exact Hk|]. intros _ H. contradiction.
    + apply orb_false_iff in Eroom. destruct Eroom as [_ Ed].
      apply Z.leb_gt in Ed.
      destruct (Node.reinsert o ins _ _) as [[n1 c]|] eqn:E; try discriminate.
      apply reinsert_keeps in E. destruct E as (G1 & D1 & T1).
      assert (Hbox : same_box n1 n).
      { apply grows_box in G1. exact G1. }
      assert (Hd1 : depth_leb (Opts.max_depth o) n = true ->
                    depth_leb (Opts.max_depth o) n1 = true).
      { intros Hd. apply D1. rewrite (depth_leb_eq (Opts.max_depth o) n), En in Hd.
        rewrite depth_leb_eq. nsimpl.
        rewrite andb_true_r in Hd. apply Z.leb_le in Hd.
        apply andb_true_iff. split; [apply Z.leb_le; exact Hd|].
        simpl.
        assert ((Node.depth n + 1 <=? Opts.max_depth o)%Z = true) as ->
            by (apply Z.leb_le; lia).
        reflexivity. }
      destruct (@grows_interior _ n1 G1) as [Hn1 Hi1]; [nsimpl; discriminate|].
      destruct c as [b|e].
      * intros E. apply ins_keeps in E. destruct E as (G2 & D2 & T2).
        assert (Hn3 : Node.nodes (Node.set_items n1 []) <> None) by exact Hn1.
        destruct (@grows_interior _ _ G2 Hn3) as [Hn' Hi'].
        unfold keeps. split; [|split].
        -- rewrite grows_eq, En. split; auto.
           apply grows_box in G2. eapply same_box_trans; [exact G2|].
           eapply same_box_trans; [apply same_box_set_items | exact Hbox].
        -- intros Hd. apply D2. specialize (Hd1 Hd).
           rewrite depth_leb_eq in Hd1. rewrite depth_leb_eq. exact Hd1.
        -- intros b0 Hc _. split; [|intros _ _; exact Hi'].
           destruct (T2 b0 Hc) as [Hk _]; auto.
           apply (T1 b eq_refl). unfold kids_tidy. simpl. tauto.
      * intros E; injection E as <-. unfold keeps. nsimpl. split; [|split]; auto.
        -- rewrite grows_eq, En. auto.
        -- discriminate.
Qed.
End Body.

Lemma insert_fuel_keeps f : forall n it r,
  Node.insert_fuel f o n it = Some r -> keeps o n r.
Proof.
  induction f as [|f IH]; intros n it r E; [discriminate|].
  exact (@insert_body_keeps _ IH _ _ _ E).
Qed.

Lemma insert_keeps n it : keeps o n (Node.insert o n it).
Proof. eapply insert_fuel_keeps. apply insert_fuel_enough, le_n. Qed.
End Structure.

(** ** Geometry of the rectangles *)

Lemma if_true (c : bool) : (if c then true else false) = c.
Proof. destruct c; reflexivity. Qed.

Lemma pointIsInBounds_true px py t l b r :
  pointIsInBounds px py t l b r = true <->
  exists a c, px = Some a /\ py = Some c /\
    (l <=? a) = true /\ (a <=? r) = true /\ (t <=? c) = true /\ (c <=? b) = true.
Proof.
  unfold pointIsInBounds, geq, leq. rewrite if_true.
  destruct px as [a|], py as [c|]; simpl;
    rewrite ?andb_false_r, ?andb_true_iff.
  - split.
    + intros [[[? ?] ?] ?]. exists a, c. repeat split; assumption.
    + intros (a' & c' & Ea & Ec & H). injection Ea as Ea. injection Ec as Ec. subst a' c'. tauto.
  - split; [discriminate | intros (? & ? & _ & H & _); discriminate].
  - split; [discriminate | intros (? & ? & H & _); discriminate].
  - split; [discriminate | intros (? & ? & H & _); discriminate].
Qed.

Lemma pointIsInBounds_some a c t l b r :
  pointIsInBounds (Some a) (Some c) t l b r =
  (l <=? a) && (a <=? r) && (t <=? c) && (c <=? b).
Proof. unfold pointIsInBounds, geq, leq. apply if_true. Qed.

Lemma rangesIntersect_true t l b r tR lR bR rR :
  rangesIntersect t l b r tR lR bR rR = true <->
  (l <=? rR) = true /\ (lR <=? r) = true /\ (t <=? bR) = true /\ (tR <=? b) = true.
Proof.
  unfold rangesIntersect. rewrite if_true, !andb_true_iff. tauto.
Qed.

Lemma containsPoint_box a b px py :
  same_box a b -> Node.containsPoint a px py = Node.containsPoint b px py.
Proof.
  intros (Ht & Hl & Hb & Hr & _). unfold Node.containsPoint.
  rewrite Ht, Hl, Hb, Hr. reflexivity.
Qed.

Lemma inside_box a b w : same_box a b -> inside a w -> inside b w.
Proof. unfold inside. intros H. rewrite (containsPoint_box _ _ H). auto. Qed.

Lemma finite_corner_box a b : same_box a b -> finite_corner a = finite_corner b.
Proof. intros (Ht & Hl & _). unfold finite_corner. rewrite Ht, Hl. reflexivity. Qed.

Lemma box_ok_box a b : same_box a b -> box_ok a -> box_ok b.
Proof. intros (Ht & Hl & Hb & Hr & _). unfold box_ok. rewrite Ht, Hl, Hb, Hr. auto. Qed.

(** A rectangle that contains a point is not inverted. *)
Lemma containsPoint_box_ok n px py : Node.containsPoint n px py = true -> box_ok n.
Proof.
  unfold Node.containsPoint. intros H. apply pointIsInBounds_true in H.
  destruct H as (a & c & _ & _ & ? & ? & ? & ?). split; eapply leb_trans; eauto.
Qed.

(** The rectangles of the four children, by the cuts. *)
Lemma containsPoint_children n q px py :
  Node.containsPoint (Node.get q (Node.children n)) px py =
  match q with
  | TOP_LEFT =>
      pointIsInBounds px py (Node.top n) (Node.left n)
        (cut (Node.top n) (Node.bottom n)) (cut (Node.left n) (Node.right n))
  | TOP_RIGHT =>
      pointIsInBounds px py (Node.top n) (cut (Node.left n) (Node.right n))
        (cut (Node.top n) (Node.bottom n)) (Node.right n)
  | BOTTOM_LEFT =>
      pointIsInBounds px py (cut (Node.top n) (Node.bottom n)) (Node.left n)
        (Node.bottom n) (cut (Node.left n) (Node.right n))
  | BOTTOM_RIGHT =>
      pointIsInBounds px py (cut (Node.top n) (Node.bottom n))
        (cut (Node.left n) (Node.right n)) (Node.bottom n) (Node.right n)
  end.
Proof. destruct q; reflexivity. Qed.

Lemma finite_corner_children n q :
  finite_corner (Node.get q (Node.children n)) =
  match q with
  | TOP_LEFT => is_finite (Node.top n) && is_finite (Node.left n)
  | TOP_RIGHT => is_finite (Node.top n) && is_finite (cut (Node.left n) (Node.right n))
  | BOTTOM_LEFT => is_finite (cut (Node.top n) (Node.bottom n)) && is_finite (Node.left n)
  | BOTTOM_RIGHT => is_finite (cut (Node.top n) (Node.bottom n))
                    && is_finite (cut (Node.left n) (Node.right n))
  end.
Proof. destruct q; reflexivity. Qed.

(** No gaps: under a finite top left corner, a point of the parent's
    rectangle is in a quadrant. *)
Lemma children_cover n px py :
  finite_corner n = true ->
  Node.containsPoint n px py = true ->
  exists q, Node.containsPoint (Node.get q (Node.children n)) px py = true.
Proof.
  intros Hf H. unfold Node.containsPoint in H.
  apply pointIsInBounds_true in H. destruct H as (a & c & -> & -> & Hl & Hr & Ht & Hb).
  unfold finite_corner in Hf. apply andb_true_iff in Hf. destruct Hf as [Ft Fl].
  pose proof (cut_defined _ _ Fl (leb_trans _ _ _ Hl Hr)) as Dx.
  pose proof (cut_defined _ _ Ft (leb_trans _ _ _ Ht Hb)) as Dy.
  destruct (leb_defined _ _ Hl) as [_ Da], (leb_defined _ _ Ht) as [_ Dc].
  destruct (leb_total _ _ Da Dx) as [Hx|Hx], (leb_total _ _ Dc Dy) as [Hy|Hy].
  - exists TOP_LEFT. rewrite containsPoint_children.
    apply pointIsInBounds_true. exists a, c. tauto.
  - exists BOTTOM_LEFT. rewrite containsPoint_children.
    apply pointIsInBounds_true. exists a, c. tauto.
  - exists TOP_RIGHT. rewrite containsPoint_children.
    apply pointIsInBounds_true. exists a, c. tauto.
  - exists BOTTOM_RIGHT. rewrite containsPoint_children.
    apply pointIsInBounds_true. exists a, c. tauto.
Qed.

Lemma quadrants_cover n ns px py :
  quadrants_of n ns -> finite_corner n = true ->
  Node.containsPoint n px py = true ->
  exists q, Node.containsPoint (Node.get q ns) px py = true.
Proof.
  intros Hq Hf H. destruct (children_cover _ _ _ Hf H) as [q Hc].
  exists q. rewrite (containsPoint_box _ _ (Hq q)). exact Hc.
Qed.

Lemma nan_leb_l a b : is_nan a = true -> (a <=? b) = false.
Proof.
  intros H. destruct (a <=? b) eqn:E; [|reflexivity].
  apply leb_defined in E. destruct E. congruence.
Qed.

Lemma nan_leb_r a b : is_nan b = true -> (a <=? b) = false.
Proof.
  intros H. destruct (a <=? b) eqn:E; [|reflexivity].
  apply leb_defined in E. destruct E. congruence.
Qed.

(** Without a finite top left corner a cut is not a number, and no child
    contains any point. *)
Lemma children_dead n q px py :
  finite_corner n = false ->
  Node.containsPoint (Node.get q (Node.children n)) px py = false.
Proof.
  intros Hf. unfold finite_corner in Hf. apply andb_false_iff in Hf.
  destruct (Node.containsPoint _ px py) eqn:E; [|reflexivity]. exfalso.
  rewrite containsPoint_children in E.
  destruct Hf as [Hf|Hf].
  - apply cut_nan with (r := Node.bottom n) in Hf.
    destruct q; apply pointIsInBounds_true in E;
      destruct E as (a & c & _ & _ & H1 & H2 & H3 & H4);
      first [rewrite (nan_leb_r _ _ Hf) in H4; discriminate
            |rewrite (nan_leb_l _ _ Hf) in H3; discriminate].
  - apply cut_nan with (r := Node.right n) in Hf.
    destruct q; apply pointIsInBounds_true in E;
      destruct E as (a & c & _ & _ & H1 & H2 & H3 & H4);
      first [rewrite (nan_leb_r _ _ Hf) in H2; discriminate
            |rewrite (nan_leb_l _ _ Hf) in H1; discriminate].
Qed.

Lemma quadrants_dead n ns q px py :
  quadrants_of n ns -> finite_corner n = false ->
  Node.containsPoint (Node.get q ns) px py = false.
Proof.
  intros Hq Hf. rewrite (containsPoint_box _ _ (Hq q)). apply children_dead, Hf.
Qed.

(** The first child, in the order of [insert], whose rectangle contains a
    point of the parent has a finite top left corner if the parent has. *)
Lemma first_hit_children n px py q :
  finite_corner n = true ->
  Node.containsPoint n px py = true ->
  first_hit (Node.children n) px py = Some q ->
  finite_corner (Node.get q (Node.children n)) = true.
Proof.
  intros Hf H. unfold Node.containsPoint in H.
  apply pointIsInBounds_true in H. destruct H as (a & c & -> & -> & Hl & Hr & Ht & Hb).
  unfold finite_corner in Hf. apply andb_true_iff in Hf. destruct Hf as [Ft Fl].
  pose proof (leb_trans _ _ _ Hl Hr) as Hlr. pose proof (leb_trans _ _ _ Ht Hb) as Htb.
  destruct (leb_defined _ _ Hl) as [_ Da], (leb_defined _ _ Ht) as [_ Dc].
  pose proof (cut_defined _ _ Fl Hlr) as Dx. pose proof (cut_defined _ _ Ft Htb) as Dy.
  assert (Fx : (a <=? cut (Node.left n) (Node.right n)) = false ->
               is_finite (cut (Node.left n) (Node.right n)) = true).
  { intros E. apply (cut_finite _ _ a Fl Hlr). apply not_leb_ltb; assumption. }
  assert (Fy : (c <=? cut (Node.top n) (Node.bottom n)) = false ->
               is_finite (cut (Node.top n) (Node.bottom n)) = true).
  { intros E. apply (cut_finite _ _ c Ft Htb). apply not_leb_ltb; assumption. }
  unfold first_hit, quadrants, hits. cbn [find].
  rewrite !containsPoint_children, !pointIsInBounds_some, Hl, Hr, Ht, Hb.
  cbn [andb]. rewrite !andb_true_r.
  destruct (a <=? cut (Node.left n) (Node.right n)) eqn:Ex,
           (c <=? cut (Node.top n) (Node.bottom n)) eqn:Ey; cbn [andb].
  - intros E. injection E as <-. rewrite finite_corner_children, Ft, Fl. reflexivity.
  - rewrite ?andb_false_r. cbn [andb].
    destruct (cut (Node.top n) (Node.bottom n) <=? c) eqn:Ey'; cbn [andb].
    + intros E. injection E as <-. rewrite finite_corner_children, Fl, Fy; auto.
    + rewrite ?andb_false_r. discriminate.
  - destruct (cut (Node.left n) (Node.right n) <=? a) eqn:Ex'; cbn [andb].
    + intros E. injection E as <-. rewrite finite_corner_children, Ft, Fx; auto.
    + rewrite ?andb_false_r. cbn [andb]. rewrite ?andb_false_r. discriminate.
  - rewrite ?andb_false_r. cbn [andb].
    destruct (cut (Node.left n) (Node.right n) <=? a) eqn:Ex',
             (cut (Node.top n) (Node.bottom n) <=? c) eqn:Ey'; cbn [andb];
      try discriminate.
    intros E. injection E as <-. rewrite finite_corner_children, Fx, Fy; auto.
Qed.

Lemma hits_box ns ns' px py q :
  (forall q, same_box (Node.get q ns') (Node.get q ns)) ->
  hits ns' px py q = hits ns px py q.
Proof. intros H. unfold hits. apply containsPoint_box, H. Qed.

Lemma first_hit_box ns ns' px py :
  (forall q, same_box (Node.get q ns') (Node.get q ns)) ->
  first_hit ns' px py = first_hit ns px py.
Proof.
  intros H. unfold first_hit, quadrants. cbn [find].
  rewrite !(@hits_box ns ns' px py _ H). reflexivity.
Qed.

Lemma first_hit_finite n ns px py q :
  quadrants_of n ns -> finite_corner n = true ->
  Node.containsPoint n px py = true ->
  first_hit ns px py = Some q ->
  finite_corner (Node.get q ns) = true.
Proof.
  intros Hq Hf H E. rewrite (@first_hit_box _ _ px py Hq) in E.
  rewrite (@finite_corner_box _ _ (Hq q)). eapply first_hit_children; eauto.
Qed.

Lemma first_hit_hits ns px py q :
  first_hit ns px py = Some q -> Node.containsPoint (Node.get q ns) px py = true.
Proof. unfold first_hit. intros H. apply find_some in H. apply H. Qed.

Lemma first_hit_none ns px py :
  first_hit ns px py = None ->
  forall q, Node.containsPoint (Node.get q ns) px py = false.
Proof.
  unfold first_hit. intros H q.
  apply (@find_none _ _ _ H q). unfold quadrants. destruct q; simpl; tauto.
Qed.

Lemma first_hit_some ns px py q :
  Node.containsPoint (Node.get q ns) px py = true ->
  exists q', first_hit ns px py = Some q'.
Proof.
  intros H. destruct (first_hit ns px py) as [q'|] eqn:E; [eauto|].
  rewrite (@first_hit_none _ _ _ E q) in H. discriminate.
Qed.

(** No overlaps except on the cuts: a point in two different quadrants is
    on a cut. *)
Lemma quadrants_overlap n ns q q' a c :
  quadrants_of n ns -> q <> q' ->
  Node.containsPoint (Node.get q ns) (Some a) (Some c) = true ->
  Node.containsPoint (Node.get q' ns) (Some a) (Some c) = true ->
  (a =? cut (Node.left n) (Node.right n)) = true \/
  (c =? cut (Node.top n) (Node.bottom n)) = true.
Proof.
  intros Hq Hne H H'.
  rewrite (containsPoint_box _ _ (Hq q)), containsPoint_children in H.
  rewrite (containsPoint_box _ _ (Hq q')), containsPoint_children in H'.
  destruct q, q'; try (contradiction Hne; reflexivity);
    rewrite pointIsInBounds_some, !andb_true_iff in H, H';
    first [left; apply leb_antisym; tauto | right; apply leb_antisym; tauto].
Qed.

(** Each quadrant lies within the parent's rectangle if the cuts do. *)
Lemma quadrants_within n ns q px py :
  quadrants_of n ns -> cuts_within n ->
  Node.containsPoint (Node.get q ns) px py = true ->
  Node.containsPoint n px py = true.
Proof.
  intros Hq (X1 & X2 & Y1 & Y2) H.
  rewrite (containsPoint_box _ _ (Hq q)), containsPoint_children in H.
  unfold Node.containsPoint.
  destruct q; apply pointIsInBounds_true in H;
    destruct H as (a & c & -> & -> & Hl & Hr & Ht & Hb);
    apply pointIsInBounds_true; exists a, c;
    repeat split; try assumption; eauto using leb_trans.
Qed.

(** ** What [insert] does on every tree with sound geometry *)

Lemma quad_items_in ns w :
  In w (quad_items ns) <-> exists q, In w (all_items (Node.get q ns)).
Proof.
  unfold quad_items. rewrite !in_app_iff. split.
  - intros [H|[H|[H|H]]];
      [exists TOP_LEFT | exists TOP_RIGHT | exists BOTTOM_LEFT | exists BOTTOM_RIGHT]; auto.
  - intros (q & H). destruct q; simpl in H; tauto.
Qed.

Lemma kid_items_in n w :
  In w (kid_items n) <->
  exists ns q, Node.nodes n = Some ns /\ In w (all_items (Node.get q ns)).
Proof.
  unfold kid_items. destruct (Node.nodes n) as [ns|].
  - fold (quad_items ns). rewrite quad_items_in. split.
    + intros [q H]. eauto.
    + intros (ns' & q & E & H). injection E as <-. eauto.
  - split; [contradiction | intros (? & ? & E & _); discriminate].
Qed.

Lemma all_items_interior n ns :
  Node.nodes n = Some ns -> all_items n = Node.items n ++ quad_items ns.
Proof. intros E. rewrite all_items_eq, (@kid_items_eq n ns E). reflexivity. Qed.

Lemma all_items_leaf n : Node.nodes n = None -> all_items n = Node.items n.
Proof. intros E. rewrite all_items_eq. unfold kid_items. rewrite E. apply app_nil_r. Qed.

Lemma all_items_set_items n its :
  all_items (Node.set_items n its) = its ++ kid_items n.
Proof. rewrite all_items_eq. reflexivity. Qed.

Lemma children_set_nodes n ns : Node.children (Node.set_nodes n ns) = Node.children n.
Proof. reflexivity. Qed.

Lemma geo_inside n : geo n -> Forall (inside n) (all_items n).
Proof. rewrite geo_eq. tauto. Qed.

Lemma geo_kid n ns q : geo n -> Node.nodes n = Some ns -> geo (Node.get q ns).
Proof. rewrite geo_eq. intros [_ H] E. rewrite E in H. destruct q; simpl; tauto. Qed.

Lemma geo_quadrants n ns : geo n -> Node.nodes n = Some ns -> quadrants_of n ns.
Proof. rewrite geo_eq. intros [_ H] E. rewrite E in H. tauto. Qed.

Lemma geo_box_ok n ns : geo n -> Node.nodes n = Some ns -> box_ok n.
Proof. rewrite geo_eq. intros [_ H] E. rewrite E in H. tauto. Qed.

Lemma geo_interior n ns :
  Node.nodes n = Some ns ->
  Forall (inside n) (Node.items n ++ quad_items ns) ->
  box_ok n -> quadrants_of n ns ->
  (forall q, geo (Node.get q ns)) ->
  geo n.
Proof.
  intros E Hi Hb Hq Hk. rewrite geo_eq, E, (@all_items_interior n ns E).
  split; [exact Hi|]. split; [exact Hb|]. split; [exact Hq|].
  split; [apply (Hk TOP_LEFT)|]. split; [apply (Hk TOP_RIGHT)|].
  split; [apply (Hk BOTTOM_LEFT) | apply (Hk BOTTOM_RIGHT)].
Qed.

Lemma geo_leaf n :
  Node.nodes n = None -> Forall (inside n) (Node.items n) -> geo n.
Proof. intros E H. rewrite geo_eq, E, (@all_items_leaf n E). auto. Qed.

Lemma geo_set_items_nil n : geo n -> geo (Node.set_items n []).
Proof.
  rewrite !geo_eq, all_items_set_items, (all_items_eq n). nsimpl.
  intros [H G]. split; [|exact G].
  apply Forall_app in H. destruct H as [_ H]. exact H.
Qed.

Lemma geo_new t l b r d : geo (Node.new t l b r d).
Proof. apply geo_leaf; [reflexivity | constructor]. Qed.

Lemma geo_children n q : geo (Node.get q (Node.children n)).
Proof. destruct q; apply geo_new. Qed.

Lemma quad_items_children n : quad_items (Node.children n) = [].
Proof. reflexivity. Qed.

Lemma geo_set q n1 ns :
  (forall q', geo (Node.get q' ns)) -> geo n1 ->
  forall q', geo (Node.get q' (Node.set q n1 ns)).
Proof.
  intros Hg H1 q'. destruct (quadrant_eq_dec q q') as [<-|Hq].
  - rewrite get_set_same. exact H1.
  - rewrite (get_set_other _ _ Hq). apply Hg.
Qed.

Lemma quad_items_set_incl q n1 ns it :
  incl (all_items n1) (it :: all_items (Node.get q ns)) ->
  incl (quad_items (Node.set q n1 ns)) (it :: quad_items ns).
Proof.
  intros H w Hw. apply quad_items_in in Hw. destruct Hw as [q' Hw].
  destruct (quadrant_eq_dec q q') as [<-|Hq].
  - rewrite get_set_same in Hw. apply H in Hw. destruct Hw as [Hw|Hw]; [left; exact Hw|].
    right. apply quad_items_in. eauto.
  - rewrite (get_set_other _ _ Hq) in Hw. right. apply quad_items_in. eauto.
Qed.

Section Sane.
Variable o : Opts.t.

Section Body.
Variable ins : Node -> IndexItem -> option (Node * completion bool).
Hypothesis ins_keeps : forall n it r, ins n it = Some r -> keeps o n r.
Hypothesis ins_sane : forall n it r, ins n it = Some r -> geo n -> sane o n it r.

Lemma delegate_sane qs : forall ns it ns' c,
  Node.delegate ins qs ns it = Some (ns', c) ->
  (forall q, geo (Node.get q ns)) ->
  (forall q, geo (Node.get q ns')) /\
  incl (quad_items ns') (it :: quad_items ns) /\
  (forall e, c = Abrupt e -> node_error o e).
Proof.
  induction qs as [|q qs IH]; simpl; intros ns it ns' c E Hg.
  - injection E as <- <-. split; [exact Hg|]. split; [apply incl_tl, incl_refl|discriminate].
  - destruct (ins (Node.get q ns) it) as [[n1 c1]|] eqn:E1; try discriminate.
    destruct (@ins_sane _ _ _ E1 (Hg q)) as (Hg1 & Hin1 & _ & Hab & _).
    cbn [fst snd] in Hg1, Hin1, Hab.
    pose proof (@geo_set q n1 ns Hg Hg1) as Hset.
    pose proof (@quad_items_set_incl q n1 ns it Hin1) as Hincl.
    destruct c1 as [[|]|e].
    + injection E as <- <-. split; [exact Hset|]. split; [exact Hincl|discriminate].
    + destruct (@IH _ _ _ _ E Hset) as (G & I & A).
      split; [exact G|]. split; [|exact A].
      intros w Hw. apply I in Hw. destruct Hw as [<-|Hw]; [left; reflexivity|].
      apply Hincl, Hw.
    + injection E as <- <-. split; [exact Hset|]. split; [exact Hincl|].
      intros e' Ee. injection Ee as <-. apply Hab. reflexivity.
Qed.

Lemma reinsert_sane its : forall n n' c,
  Node.reinsert o ins n its = Some (n', c) ->
  geo n -> Node.nodes n <> None -> incl its (Node.items n) ->
  geo n' /\ incl (all_items n') (all_items n) /\
  (forall e, c = Abrupt e -> node_error o e).
Proof.
  induction its as [|it its IH]; simpl; intros n n' c E Hg Hn Hits.
  - injection E as <- <-. split; [exact Hg|]. split; [apply incl_refl|discriminate].
  - destruct (ins n it) as [[n1 c1]|] eqn:E1; try discriminate.
    destruct (@ins_sane _ _ _ E1 Hg) as (Hg1 & Hin1 & _ & Hab & Hdbg).
    destruct (@ins_keeps _ _ _ E1) as (Hgr & _).
    cbn [fst snd] in Hg1, Hin1, Hab, Hdbg, Hgr.
    assert (Hit : In it (all_items n)).
    { rewrite all_items_eq. apply in_or_app. left. apply Hits. left. reflexivity. }
    assert (Hin1' : incl (all_items n1) (all_items n)).
    { intros w Hw. apply Hin1 in Hw. destruct Hw as [<-|Hw]; assumption. }
    destruct c1 as [b|e].
    + destruct (Opts.debug_mode o && negb b) eqn:Ed.
      * exfalso. apply andb_true_iff in Ed. destruct Ed as [D Nb].
        specialize (Hdbg b eq_refl D).
        pose proof (@geo_inside n Hg) as Hall. rewrite Forall_forall in Hall.
        specialize (Hall _ Hit). unfold inside in Hall. rewrite Hall in Hdbg.
        subst b. discriminate.
      * destruct (@grows_interior n n1 Hgr Hn) as [Hn1 Hi1].
        destruct (@IH _ _ _ E Hg1 Hn1) as (G & I & A).
        { rewrite Hi1. intros w Hw. apply Hits. right. exact Hw. }
        split; [exact G|]. split; [|exact A].
        eapply incl_tran; eassumption.
    + injection E as <- <-. split; [exact Hg1|]. split; [exact Hin1'|].
      intros e' Ee. injection Ee as <-. apply Hab. reflexivity.
Qed.

Lemma insert_body_sane n it r :
  Node.insert_body o ins n it = Some r -> geo n -> sane o n it r.
Proof.
  unfold Node.insert_body, Node.divide, sane.
  destruct (Node.containsPoint n (x it) (y it)) eqn:Eb; cbn [negb].
  2:{ intros E Hg. injection E as <-. cbn [fst snd].
      split; [exact Hg|]. split; [apply incl_tl, incl_refl|].
      split; [reflexivity|]. split; [discriminate|].
      intros b Hb _. injection Hb as <-. reflexivity. }
  intros E Hg.
  pose proof (@geo_inside n Hg) as Hins.
  destruct (Node.nodes n) as [ns|] eqn:En.
  - destruct (Node.delegate ins _ ns it) as [[ns' c]|] eqn:Ed; try discriminate.
    pose proof (@delegate_keeps o ins ins_keeps _ _ _ _ _ Ed) as Hk.
    destruct (@delegate_sane _ _ _ _ _ Ed (fun q => @geo_kid n ns q Hg En))
      as (Hgk & Hincl & Hab).
    assert (Hincl' : incl (all_items (Node.set_nodes n (Some ns'))) (it :: all_items n)).
    { rewrite (@all_items_interior (Node.set_nodes n (Some ns')) ns' eq_refl).
      rewrite (@all_items_interior n ns En). nsimpl.
      intros w Hw. apply in_app_or in Hw. destruct Hw as [Hw|Hw].
      - right. apply in_or_app. left. exact Hw.
      - apply Hincl in Hw. destruct Hw as [Hw|Hw]; [left; exact Hw|].
        right. apply in_or_app. right. exact Hw. }
    assert (Hgeo' : geo (Node.set_nodes n (Some ns'))).
    { apply (@geo_interior _ ns'); [reflexivity| | | |exact Hgk].
      - rewrite <- (@all_items_interior (Node.set_nodes n (Some ns')) ns' eq_refl).
        rewrite Forall_forall. intros w Hw. apply Hincl' in Hw.
        apply (@inside_box n); [apply same_box_sym, same_box_set_nodes|].
        destruct Hw as [<-|Hw]; [exact Eb|].
        rewrite Forall_forall in Hins. auto.
      - apply (@box_ok_box n); [apply same_box_sym, same_box_set_nodes|].
        apply (@geo_box_ok n ns Hg En).
      - intros q. rewrite children_set_nodes.
        eapply same_box_trans; [|apply (@geo_quadrants n ns Hg En)].
        apply grows_box, Hk. }
    destruct c as [[|]|e].
    + injection E as <-. cbn [fst snd].
      split; [exact Hgeo'|]. split; [exact Hincl'|].
      split; [discriminate|]. split; [discriminate|].
      intros b Hb _. injection Hb as <-. reflexivity.
    + destruct (Opts.debug_mode o) eqn:D; injection E as <-; cbn [fst snd].
      * split; [exact Hgeo'|]. split; [exact Hincl'|].
        split; [discriminate|]. split; [|discriminate].
        intros e Ee. injection Ee as <-. split; [exact D|eauto].
      * split; [exact Hgeo'|]. split; [exact Hincl'|].
        split; [discriminate|]. split; [discriminate|].
        intros b _ Hd. discriminate.
    + injection E as <-. cbn [fst snd].
      split; [exact Hgeo'|]. split; [exact Hincl'|].
      split; [discriminate|]. split; [|discriminate].
      intros e' Ee. injection Ee as <-. apply Hab. reflexivity.
  - rewrite (@all_items_leaf n En) in *.
    destruct (_ || _) eqn:Eroom.
    + injection E as <-. cbn [fst snd].
      assert (Ea : all_items (Node.set_items n (Node.items n ++ [it]))
                   = Node.items n ++ [it]).
      { rewrite all_items_set_items. unfold kid_items. rewrite En. apply app_nil_r. }
      split; [|split; [|split; [discriminate|split; [discriminate|]]]].
      * apply geo_leaf; [exact En|]. nsimpl.
        apply Forall_app. split.
        -- eapply Forall_impl; [|exact Hins]. intros w.
           apply inside_box, same_box_sym, same_box_set_items.
        -- repeat constructor. exact Eb.
      * rewrite Ea. intros w Hw. apply in_app_or in Hw.
        destruct Hw as [Hw|[<-|[]]]; [right; exact Hw|left; reflexivity].
      * intros b Hb _. injection Hb as <-. reflexivity.
    + set (n1 := Node.set_nodes n (Some (Node.children n))) in *.
      assert (Hg1 : geo n1).
      { apply (@geo_interior _ (Node.children n)); [reflexivity| | | |].
        - rewrite quad_items_children, app_nil_r. exact Hins.
        - apply (@containsPoint_box_ok n _ _ Eb).
        - intros q. apply same_box_refl.
        - intros q. apply geo_children. }
      assert (Ha1 : all_items n1 = Node.items n).
      { rewrite (@all_items_interior n1 (Node.children n) eq_refl).
        rewrite quad_items_children. apply app_nil_r. }
      destruct (Node.reinsert o ins n1 (Node.items n)) as [[n2 c]|] eqn:Er;
        try discriminate.
      destruct (@reinsert_sane _ _ _ _ Er Hg1) as (Hg2 & Hin2 & Hab2);
        [discriminate | apply incl_refl |].
      rewrite Ha1 in Hin2.
      pose proof (@reinsert_keeps o ins ins_keeps _ _ _ _ Er) as (Hgr & _).
      pose proof (@grows_box _ _ Hgr) as Hb2.
      destruct c as [b|e].
      * destruct (@ins_sane _ _ _ E (@geo_set_items_nil _ Hg2))
          as (Hg' & Hin & _ & Hab & Hdbg).
        rewrite (@containsPoint_box (Node.set_items n2 []) n) in Hdbg
          by (eapply same_box_trans; [apply same_box_set_items | exact Hb2]).
        rewrite Eb in Hdbg.
        split; [exact Hg'|]. split; [|split; [discriminate|split; [exact Hab|exact Hdbg]]].
        intros w Hw. apply Hin in Hw. destruct Hw as [Hw|Hw]; [left; exact Hw|].
        right. apply Hin2. rewrite all_items_set_items in Hw. cbn [app] in Hw.
        rewrite all_items_eq. apply in_or_app. right. exact Hw.
      * injection E as <-. cbn [fst snd].
        split; [exact Hg2|]. split; [apply incl_tl, Hin2|].
        split; [discriminate|]. split; [|discriminate].
        intros e' Ee. injection Ee as <-. apply Hab2. reflexivity.
Qed.
End Body.

Lemma insert_fuel_sane f : forall n it r,
  Node.insert_fuel f o n it = Some r -> geo n -> sane o n it r.
Proof.
  induction f as [|f IH]; intros n it r E; [discriminate|].
  exact (@insert_body_sane _ (@insert_fuel_keeps o f) IH _ _ _ E).
Qed.

Lemma insert_sane n it : geo n -> sane o n it (Node.insert o n it).
Proof. eapply insert_fuel_sane. apply insert_fuel_enough, le_n. Qed.
End Sane.

(** ** What [insert] does under a finite top left corner *)

Lemma quad_items_set q n1 ns w :
  Permutation (all_items n1) (w :: all_items (Node.get q ns)) ->
  Permutation (quad_items (Node.set q n1 ns)) (w :: quad_items ns).
Proof.
  intros H. unfold quad_items. destruct q; simpl in *.
  - rewrite H. reflexivity.
  - rewrite H. simpl. symmetry. apply Permutation_middle.
  - rewrite H. simpl.
    rewrite (app_assoc (all_items (Node.tl ns))). rewrite <- Permutation_middle.
    rewrite <- app_assoc. reflexivity.
  - rewrite H. simpl.
    rewrite !app_assoc. rewrite <- Permutation_middle. reflexivity.
Qed.

Lemma app_cancel_front (A : Type) (l k k' : list A) (w : A) :
  Permutation (l ++ k') (w :: l ++ k) -> Permutation k' (w :: k).
Proof.
  intros H. apply (Permutation_app_inv_l l).
  rewrite H. apply Permutation_middle.
Qed.

Lemma firm_kid n ns q : firm n -> Node.nodes n = Some ns -> firm (Node.get q ns).
Proof. rewrite firm_eq. intros H E. rewrite E in H. destruct q; simpl; tauto. Qed.

Lemma firm_corner n ns : firm n -> Node.nodes n = Some ns -> finite_corner n = true.
Proof. rewrite firm_eq. intros H E. rewrite E in H. tauto. Qed.

Lemma firm_interior n ns :
  Node.nodes n = Some ns -> finite_corner n = true ->
  (forall q, firm (Node.get q ns)) -> firm n.
Proof.
  intros E Hf Hk. rewrite firm_eq, E. split; [exact Hf|].
  split; [apply (Hk TOP_LEFT)|]. split; [apply (Hk TOP_RIGHT)|].
  split; [apply (Hk BOTTOM_LEFT) | apply (Hk BOTTOM_RIGHT)].
Qed.

Lemma firm_leaf n : Node.nodes n = None -> firm n.
Proof. intros E. rewrite firm_eq, E. exact I. Qed.

Lemma firm_set_items n its : firm n -> firm (Node.set_items n its).
Proof. rewrite !firm_eq. nsimpl. auto. Qed.

Lemma firm_set q n1 ns :
  (forall q', firm (Node.get q' ns)) -> firm n1 ->
  forall q', firm (Node.get q' (Node.set q n1 ns)).
Proof.
  intros Hg H1 q'. destruct (quadrant_eq_dec q q') as [<-|Hq].
  - rewrite get_set_same. exact H1.
  - rewrite (get_set_other _ _ Hq). apply Hg.
Qed.

Lemma firm_children n q : firm (Node.get q (Node.children n)).
Proof. destruct q; apply firm_leaf; reflexivity. Qed.

Section Good.
Variable o : Opts.t.

Section Body.
Variable ins : Node -> IndexItem -> option (Node * completion bool).
Hypothesis ins_keeps : forall n it r, ins n it = Some r -> keeps o n r.
Hypothesis ins_sane : forall n it r, ins n it = Some r -> geo n -> sane o n it r.
Hypothesis ins_good : forall n it r,
  ins n it = Some r -> geo n -> finite_corner n = true -> good n it r.

(** The children before the first one whose rectangle contains the point
    reject it and stay as they are; what that first child answers, unless
    it is [false], is the answer of the four lines. *)
Lemma delegate_first qs : forall ns it ns' c q,
  Node.delegate ins qs ns it = Some (ns', c) ->
  (forall q, geo (Node.get q ns)) ->
  find (hits ns (x it) (y it)) qs = Some q ->
  exists n1 c1, ins (Node.get q ns) it = Some (n1, c1) /\
    (c1 <> Normal false -> ns' = Node.set q n1 ns /\ c = c1).
Proof.
  induction qs as [|q0 qs IH]; simpl; intros ns it ns' c q E Hg Hf; [discriminate|].
  destruct (ins (Node.get q0 ns) it) as [[n1 c1]|] eqn:E1; try discriminate.
  destruct (hits ns (x it) (y it) q0) eqn:Eh.
  - injection Hf as <-. exists n1, c1. split; [exact E1|]. intros Hc.
    destruct c1 as [[|]|e];
      [injection E as <- <-; auto | contradiction Hc; reflexivity
       | injection E as <- <-; auto].
  - destruct (@ins_sane _ _ _ E1 (Hg q0)) as (_ & _ & Hrej & _).
    specialize (Hrej Eh). injection Hrej as -> ->. rewrite set_get in E.
    exact (@IH _ _ _ _ _ E Hg Hf).
Qed.

Lemma reinsert_good its : forall n n' c,
  Node.reinsert o ins n its = Some (n', c) ->
  geo n -> finite_corner n = true -> Node.nodes n <> None ->
  incl its (Node.items n) ->
  c = Normal true /\ Permutation (kid_items n') (its ++ kid_items n) /\
  (firm n -> firm n').
Proof.
  induction its as [|it its IH]; simpl; intros n n' c E Hg Hf Hn Hits.
  - injection E as <- <-. auto.
  - destruct (ins n it) as [[n1 c1]|] eqn:E1; try discriminate.
    destruct (@ins_good _ _ _ E1 Hg Hf) as (Hc & Hown & Hfirm).
    destruct (@ins_sane _ _ _ E1 Hg) as (Hg1 & _).
    destruct (@ins_keeps _ _ _ E1) as (Hgr & _).
    unfold owned in Hown. cbn [fst snd] in Hc, Hown, Hfirm, Hg1, Hgr.
    assert (Hit : inside n it).
    { pose proof (@geo_inside n Hg) as Hall. rewrite Forall_forall in Hall.
      apply Hall. rewrite all_items_eq. apply in_or_app. left. apply Hits. left. reflexivity. }
    unfold inside in Hit. rewrite Hit in Hc, Hown. subst c1.
    cbn [negb] in E. rewrite andb_false_r in E.
    destruct (@grows_interior n n1 Hgr Hn) as [Hn1 Hi1].
    rewrite (all_items_eq n1), (all_items_eq n), Hi1 in Hown.
    apply app_cancel_front in Hown.
    destruct (@IH _ _ _ E Hg1) as (Hc' & Hp & Hfirm'); [| exact Hn1 | |].
    + rewrite <- Hf. apply finite_corner_box, grows_box, Hgr.
    + rewrite Hi1. intros w Hw. apply Hits. right. exact Hw.
    + split; [exact Hc'|]. split; [|auto].
      rewrite Hp, Hown. symmetry. apply Permutation_middle.
Qed.

Lemma insert_body_good n it r :
  Node.insert_body o ins n it = Some r -> geo n -> finite_corner n = true ->
  good n it r.
Proof.
  unfold Node.insert_body, Node.divide, good, owned.
  destruct (Node.containsPoint n (x it) (y it)) eqn:Eb; cbn [negb].
  2:{ intros E Hg Hf. injection E as <-. cbn [fst snd]. auto. }
  intros E Hg Hf.
  destruct (Node.nodes n) as [ns|] eqn:En.
  - destruct (Node.delegate ins _ ns it) as [[ns' c]|] eqn:Ed; try discriminate.
    pose proof (@geo_quadrants n ns Hg En) as Hq.
    destruct (@quadrants_cover n ns _ _ Hq Hf Eb) as [q0 Hq0].
    destruct (@first_hit_some ns _ _ q0 Hq0) as [q Efh].
    pose proof (@first_hit_finite n ns _ _ q Hq Hf Eb Efh) as Hfq.
    pose proof (@first_hit_hits ns _ _ q Efh) as Hhq.
    destruct (@delegate_first _ _ _ _ _ q Ed (fun q => @geo_kid n ns q Hg En) Efh)
      as (n1 & c1 & E1 & Hres).
    destruct (@ins_good _ _ _ E1 (@geo_kid n ns q Hg En) Hfq) as (Hc1 & Hown1 & Hfirm1).
    unfold owned in Hown1. cbn [fst snd] in Hc1, Hown1, Hfirm1.
    rewrite Hhq in Hc1, Hown1. subst c1.
    destruct Hres as [-> ->]; [discriminate|].
    injection E as <-. cbn [fst snd].
    split; [reflexivity|]. split.
    + rewrite (@all_items_interior (Node.set_nodes n (Some (Node.set q n1 ns))) _ eq_refl).
      nsimpl. rewrite (@quad_items_set q n1 ns it Hown1), (@all_items_interior n ns En).
      symmetry. apply Permutation_middle.
    + intros Hfirm.
      apply (@firm_interior (Node.set_nodes n (Some (Node.set q n1 ns))) (Node.set q n1 ns));
        [reflexivity | exact Hf |].
      apply firm_set.
      * intros q'. apply (@firm_kid n ns q' Hfirm En).
      * apply Hfirm1, (@firm_kid n ns q Hfirm En).
  - destruct (_ || _) eqn:Eroom.
    + injection E as <-. cbn [fst snd].
      split; [reflexivity|]. split.
      * rewrite all_items_set_items, (@all_items_leaf n En). unfold kid_items.
        rewrite En, app_nil_r. symmetry. apply Permutation_cons_append.
      * intros _. apply firm_leaf. exact En.
    + set (n1 := Node.set_nodes n (Some (Node.children n))) in *.
      pose proof (@geo_inside n Hg) as Hins. rewrite (@all_items_leaf n En) in Hins.
      assert (Hg1 : geo n1).
      { apply (@geo_interior _ (Node.children n)); [reflexivity| | | |].
        - rewrite quad_items_children, app_nil_r. exact Hins.
        - apply (@containsPoint_box_ok n _ _ Eb).
        - intros q. apply same_box_refl.
        - intros q. apply geo_children. }
      assert (Hf1 : firm n1).
      { apply (@firm_interior n1 (Node.children n)); [reflexivity | exact Hf |].
        apply firm_children. }
      destruct (Node.reinsert o ins n1 (Node.items n)) as [[n2 c]|] eqn:Er;
        try discriminate.
      destruct (@reinsert_good _ _ _ _ Er Hg1 Hf) as (-> & Hp & Hfirm2);
        [discriminate | apply incl_refl |].
      destruct (@reinsert_sane o ins ins_keeps ins_sane _ _ _ _ Er Hg1) as (Hg2 & _);
        [discriminate | apply incl_refl |].
      pose proof (@reinsert_keeps o ins ins_keeps _ _ _ _ Er) as (Hgr & _).
      pose proof (@grows_box _ _ Hgr) as Hb2.
      assert (Hb3 : same_box (Node.set_items n2 []) n)
        by (eapply same_box_trans; [apply same_box_set_items | exact Hb2]).
      destruct (@ins_good _ _ _ E (@geo_set_items_nil _ Hg2)) as (Hc & Hown & Hfirm).
      { rewrite <- Hf. apply finite_corner_box, Hb3. }
      unfold owned in Hown.
      rewrite (@containsPoint_box (Node.set_items n2 []) n _ _ Hb3) in Hc, Hown.
      rewrite Eb in Hc, Hown.
      split; [exact Hc|]. split.
      * rewrite Hown, all_items_set_items, (@all_items_leaf n En). cbn [app].
        rewrite Hp. change (kid_items n1) with (quad_items (Node.children n)).
        rewrite quad_items_children, app_nil_r. reflexivity.
      * intros _. apply Hfirm, firm_set_items, Hfirm2, Hf1.
Qed.
End Body.

Lemma insert_fuel_good f : forall n it r,
  Node.insert_fuel f o n it = Some r -> geo n -> finite_corner n = true ->
  good n it r.
Proof.
  induction f as [|f IH]; intros n it r E; [discriminate|].
  exact (@insert_body_good _ (@insert_fuel_keeps o f) (@insert_fuel_sane o f) IH _ _ _ E).
Qed.

Lemma insert_good n it :
  geo n -> finite_corner n = true -> good n it (Node.insert o n it).
Proof. eapply insert_fuel_good. apply insert_fuel_enough, le_n. Qed.

(** *** Without a finite corner *)

Lemma insert_reject n it :
  Node.containsPoint n (x it) (y it) = false -> Node.insert o n it = (n, Normal false).
Proof.
  intros H. pose proof (insert_unfold o n it) as E.
  unfold Node.insert_body in E. rewrite H in E. cbn [negb] in E.
  injection E as <-. reflexivity.
Qed.

Lemma set_nodes_same n ns : Node.nodes n = Some ns -> Node.set_nodes n (Some ns) = n.
Proof. destruct n; simpl. intros ->. reflexivity. Qed.

Lemma delegate_dead qs : forall ns it,
  (forall q, Node.containsPoint (Node.get q ns) (x it) (y it) = false) ->
  Node.delegate (fun n' it' => Some (Node.insert o n' it')) qs ns it
  = Some (ns, Normal false).
Proof.
  induction qs as [|q qs IH]; simpl; intros ns it Hm; [reflexivity|].
  rewrite (@insert_reject _ _ (Hm q)), set_get. apply IH, Hm.
Qed.

(** A node whose children contain no point of the plane keeps the tree as
    it is, and answers [false] or throws. *)
Lemma insert_dead n ns it :
  Node.nodes n = Some ns ->
  (forall q, Node.containsPoint (Node.get q ns) (x it) (y it) = false) ->
  fst (Node.insert o n it) = n /\
  (Node.containsPoint n (x it) (y it) = true ->
   snd (Node.insert o n it) =
   if Opts.debug_mode o
   then Abrupt (ItemNotInsertedIntoAnyNode (x it) (y it)) else Normal false).
Proof.
  intros En Hm. pose proof (insert_unfold o n it) as E.
  unfold Node.insert_body in E.
  destruct (Node.containsPoint n (x it) (y it)); cbn [negb] in E.
  - rewrite En, (@delegate_dead _ ns it Hm), (@set_nodes_same n ns En) in E.
    destruct (Opts.debug_mode o); injection E as <-; auto.
  - injection E as <-. split; [reflexivity|discriminate].
Qed.

Lemma reinsert_dead its : forall n ns,
  Node.nodes n = Some ns ->
  (forall q px py, Node.containsPoint (Node.get q ns) px py = false) ->
  exists c, Node.reinsert o (fun n' it' => Some (Node.insert o n' it')) n its
            = Some (n, c).
Proof.
  induction its as [|it its IH]; simpl; intros n ns En Hm; [eauto|].
  destruct (@insert_dead n ns it En (fun q => Hm q _ _)) as [H _].
  destruct (Node.insert o n it) as [n1 c1]. cbn [fst] in H. subst n1.
  destruct c1 as [b|e]; [|eauto].
  destruct (Opts.debug_mode o && negb b); [eauto|].
  apply (IH n ns En Hm).
Qed.

(** A node without a finite top left corner: [insert] appends to it while
    it has room, and otherwise the tree keeps its items, or loses those of
    the node; the item does not enter it. *)
Lemma insert_stuck n it :
  geo n -> finite_corner n = false ->
  fst (Node.insert o n it) = n \/
  (Node.nodes n = None /\
   (fst (Node.insert o n it) = Node.set_items n (Node.items n ++ [it]) \/
    fst (Node.insert o n it) = Node.set_nodes n (Some (Node.children n)) \/
    fst (Node.insert o n it)
    = Node.set_items (Node.set_nodes n (Some (Node.children n))) [])).
Proof.
  intros Hg Hf.
  destruct (Node.nodes n) as [ns|] eqn:En.
  - left. apply (@insert_dead n ns it En).
    intros q. apply (@quadrants_dead n ns q _ _ (@geo_quadrants n ns Hg En) Hf).
  - pose proof (insert_unfold o n it) as E.
    unfold Node.insert_body, Node.divide in E. rewrite En in E.
    destruct (negb _); [injection E as <-; left; reflexivity|].
    right. split; [reflexivity|].
    destruct (_ || _); [injection E as <-; left; reflexivity|].
    set (n1 := Node.set_nodes n (Some (Node.children n))) in *.
    assert (Hd : forall q px py,
              Node.containsPoint (Node.get q (Node.children n)) px py = false)
      by (intros q px py; apply children_dead, Hf).
    destruct (@reinsert_dead (Node.items n) n1 (Node.children n) eq_refl Hd) as [c Er].
    rewrite Er in E. destruct c as [b|e].
    + injection E as E. right. right. rewrite <- E.
      apply (@insert_dead (Node.set_items n1 []) (Node.children n) it eq_refl).
      intros q. apply Hd.
    + injection E as <-. right. left. reflexivity.
Qed.

(** Whatever the rectangle, the items of the tree after an [insert] are
    among those before and the inserted one, each as often. *)
Lemma insert_sub n it :
  geo n ->
  exists l, Permutation (all_items (fst (Node.insert o n it)) ++ l) (it :: all_items n).
Proof.
  intros Hg. destruct (finite_corner n) eqn:Hf.
  - destruct (@insert_good n it Hg Hf) as (_ & Hown & _). unfold owned in Hown.
    destruct (Node.containsPoint n (x it) (y it)).
    + exists []. rewrite app_nil_r. exact Hown.
    + exists [it]. rewrite Hown. symmetry. apply Permutation_cons_append.
  - destruct (@insert_stuck n it Hg Hf) as [->|[En [->|[->| ->]]]].
    + exists [it]. symmetry. apply Permutation_cons_append.
    + exists []. rewrite app_nil_r, all_items_set_items, (@all_items_leaf n En).
      unfold kid_items. rewrite En, app_nil_r. symmetry. apply Permutation_cons_append.
    + exists [it].
      rewrite (@all_items_interior (Node.set_nodes n (Some (Node.children n))) _ eq_refl).
      rewrite quad_items_children, app_nil_r, (@all_items_leaf n En). nsimpl.
      symmetry. apply Permutation_cons_append.
    + exists (it :: all_items n). rewrite all_items_set_items. reflexivity.
Qed.
End Good.

(** ** What [queryRange] collects *)

Lemma store_in k index j : In j (store k index) <-> j = k \/ In j index.
Proof.
  induction index as [|h rest IH]; simpl.
  - intuition.
  - destruct (k <? h)%nat eqn:E1; [simpl; intuition|].
    destruct (k =? h)%nat eqn:E2.
    + apply Nat.eqb_eq in E2. subst. simpl. intuition.
    + simpl. rewrite IH. intuition.
Qed.

Lemma store_sorted k index :
  StronglySorted lt index -> StronglySorted lt (store k index).
Proof.
  induction 1 as [|h rest Hs IH Hh]; simpl.
  - repeat constructor.
  - destruct (k <? h)%nat eqn:E1.
    + apply Nat.ltb_lt in E1. constructor; [constructor; assumption|].
      constructor; [exact E1|]. rewrite Forall_forall in *. intros j Hj.
      specialize (Hh j Hj). lia.
    + destruct (k =? h)%nat eqn:E2; [constructor; assumption|].
      apply Nat.ltb_ge in E1. apply Nat.eqb_neq in E2.
      constructor; [exact IH|]. rewrite Forall_forall in *. intros j Hj.
      apply store_in in Hj. destruct Hj as [->|Hj]; [lia | auto].
Qed.

Lemma collect_in t l b r its : forall index j,
  In j (Node.collect t l b r its index) <->
  In j index \/ exists w, In w its /\ in_query t l b r w /\ i w = j.
Proof.
  unfold in_query.
  induction its as [|it its IH]; simpl; intros index j.
  - split; [auto | intros [H|(w & [] & _)]; exact H].
  - rewrite IH. destruct (pointIsInBounds (x it) (y it) t l b r) eqn:E.
    + rewrite store_in. split.
      * intros [[->|H]|(w & Hw & Hq & Hi)]; eauto 7.
      * intros [H|(w & [<-|Hw] & Hq & Hi)]; eauto 7.
    + split.
      * intros [H|(w & Hw & Hq & Hi)]; eauto 7.
      * intros [H|(w & [<-|Hw] & Hq & Hi)]; eauto 7. congruence.
Qed.

Lemma collect_sorted t l b r its : forall index,
  StronglySorted lt index -> StronglySorted lt (Node.collect t l b r its index).
Proof.
  induction its as [|it its IH]; simpl; intros index H; auto.
  apply IH. destruct (pointIsInBounds _ _ _ _ _ _); auto using store_sorted.
Qed.

Lemma queryRange_eq n t l b r index :
  Node.queryRange n t l b r index =
  if negb (Node.containsRangePart n t l b r) then index
  else
    Node.collect t l b r (Node.items n)
      match Node.nodes n with
      | Some ns =>
          Node.queryRange (Node.br ns) t l b r
            (Node.queryRange (Node.bl ns) t l b r
              (Node.queryRange (Node.tr ns) t l b r
                (Node.queryRange (Node.tl ns) t l b r index)))
      | None => index
      end.
Proof. destruct n; reflexivity. Qed.

Lemma queryRange_sorted t l b r n : forall index,
  StronglySorted lt index -> StronglySorted lt (Node.queryRange n t l b r index).
Proof.
  induction n as [n E|n ns E H1 H2 H3 H4] using node_induction; intros index H;
    rewrite queryRange_eq, E; destruct (negb _); auto; apply collect_sorted; auto.
Qed.

(** A node whose rectangle holds a point of the query rectangle is not
    pruned. *)
Lemma inside_intersects n t l b r w :
  inside n w -> in_query t l b r w -> Node.containsRangePart n t l b r = true.
Proof.
  unfold inside, in_query, Node.containsPoint, Node.containsRangePart.
  rewrite !pointIsInBounds_true, rangesIntersect_true.
  intros (a & c & Ea & Ec & ? & ? & ? & ?) (a' & c' & Ea' & Ec' & ? & ? & ? & ?).
  rewrite Ea in Ea'. rewrite Ec in Ec'. injection Ea' as <-. injection Ec' as <-.
  repeat split; eapply leb_trans; eauto.
Qed.

(** The indices [queryRange] adds are those of the items of the tree whose
    point is in the query rectangle. *)
Lemma queryRange_in t l b r n : forall index j,
  geo n ->
  (In j (Node.queryRange n t l b r index) <->
   In j index \/ exists w, In w (all_items n) /\ in_query t l b r w /\ i w = j).
Proof.
  induction n as [n E|n ns E H1 H2 H3 H4] using node_induction; intros index j Hg;
    rewrite queryRange_eq;
    destruct (Node.containsRangePart n t l b r) eqn:Ec; cbn [negb].
  - rewrite collect_in, E, all_items_eq. unfold kid_items. rewrite E, app_nil_r. tauto.
  - split; [auto|]. intros [H|(w & Hw & Hq & _)]; [exact H|].
    pose proof (@geo_inside n Hg) as Hall. rewrite Forall_forall in Hall.
    rewrite (@inside_intersects n t l b r w (Hall w Hw) Hq) in Ec. discriminate.
  - rewrite collect_in, E.
    rewrite (H4 _ _ (@geo_kid n ns BOTTOM_RIGHT Hg E)).
    rewrite (H3 _ _ (@geo_kid n ns BOTTOM_LEFT Hg E)).
    rewrite (H2 _ _ (@geo_kid n ns TOP_RIGHT Hg E)).
    rewrite (H1 _ _ (@geo_kid n ns TOP_LEFT Hg E)).
    split.
    + intros [[[[[H|(w & Hw & Hq)]|(w & Hw & Hq)]|(w & Hw & Hq)]|(w & Hw & Hq)]
             |(w & Hw & Hq)]; auto; right; exists w; (split; [|exact Hq]);
        rewrite all_items_eq, in_app_iff; auto; right;
        apply kid_items_in; exists ns.
      * exists TOP_LEFT; auto.
      * exists TOP_RIGHT; auto.
      * exists BOTTOM_LEFT; auto.
      * exists BOTTOM_RIGHT; auto.
    + intros [H|(w & Hw & Hq)]; [tauto|].
      rewrite all_items_eq, in_app_iff, kid_items_in in Hw.
      destruct Hw as [Hw|(ns' & q & E' & Hw)]; [eauto 8|].
      rewrite E in E'. injection E' as <-.
      destruct q; simpl in Hw; eauto 10.
  - split; [auto|]. intros [H|(w & Hw & Hq & _)]; [exact H|].
    pose proof (@geo_inside n Hg) as Hall. rewrite Forall_forall in Hall.
    rewrite (@inside_intersects n t l b r w (Hall w Hw) Hq) in Ec. discriminate.
Qed.
(** ** The invariant of the index *)

Lemma containsPoint_root st px py :
  root_box st ->
  Node.containsPoint (tree st) px py =
  pointIsInBounds px py (Opts.top (opts st)) (Opts.left (opts st))
                  (Opts.bottom (opts st)) (Opts.right (opts st)).
Proof. intros H. rewrite (containsPoint_box _ _ H). reflexivity. Qed.

Lemma finite_corner_root st :
  root_box st -> finite_corner (tree st) = finite_origin (opts st).
Proof. intros H. rewrite (@finite_corner_box _ _ H). reflexivity. Qed.

Lemma finite_predictable o : finite_origin o = true -> predictable o = true.
Proof. unfold predictable. intros ->. apply orb_true_r. Qed.

Lemma quiet_predictable o : Opts.debug_mode o = false -> predictable o = true.
Proof. unfold predictable. intros ->. reflexivity. Qed.

Lemma init_normal options o t : init options = Normal (o, t) -> normal_opts o.
Proof.
  unfold init.
  destruct (Options.top options), (Options.left options),
    (Options.bottom options), (Options.right options); try discriminate.
  intros E. injection E as <- _. unfold normal_opts. simpl.
  destruct (Options.max_per_cell options) as [[| |]|],
    (Options.max_depth options) as [[| |]|]; simpl; split; discriminate.
Qed.

Lemma init_as_options o :
  normal_opts o ->
  init (as_options o) =
  Normal (o, Node.new (Opts.top o) (Opts.left o) (Opts.bottom o) (Opts.right o) 0).
Proof.
  intros [H1 H2]. destruct o as [t l b r mpc md dbg]. unfold init. simpl in *.
  destruct mpc; try (contradiction H1; reflexivity);
    destruct md; try (contradiction H2; reflexivity); reflexivity.
Qed.

Lemma Inv_new o items :
  normal_opts o ->
  Inv (length items)
      {| opts := o;
         tree := Node.new (Opts.top o) (Opts.left o) (Opts.bottom o) (Opts.right o) 0;
         allItems := items |}.
Proof.
  intros Ho. constructor; unfold sound, complete; cbn [opts tree allItems].
  - exact Ho.
  - apply geo_new.
  - apply same_box_refl.
  - intros H. apply Z.leb_le in H. rewrite depth_leb_eq. nsimpl. rewrite H. reflexivity.
  - apply le_n.
  - intros w [].
  - constructor.
  - intros _. split; [exact I|]. split; [exact I|].
    intros j it E Hj _. exfalso. cbn [allItems] in E.
    assert (nth_error items j <> None) as Hn by congruence.
    apply nth_error_Some in Hn. lia.
Qed.

Lemma quadtree_Inv options st : quadtree options = Normal st -> Inv 0 st.
Proof.
  unfold quadtree. destruct (init options) as [[o t]|e] eqn:E; try discriminate.
  intros E'. injection E' as <-.
  pose proof (init_normal _ E) as Ho.
  unfold init in E.
  destruct (Options.top options), (Options.left options),
    (Options.bottom options), (Options.right options); try discriminate.
  injection E as <- <-.
  exact (@Inv_new _ [] Ho).
Qed.

Lemma clear_spec st :
  normal_opts (opts st) ->
  _clear st =
  ({| opts := opts st;
      tree := Node.new (Opts.top (opts st)) (Opts.left (opts st))
                       (Opts.bottom (opts st)) (Opts.right (opts st)) 0;
      allItems := allItems st |}, Normal tt).
Proof. intros H. unfold _clear. rewrite (init_as_options H). reflexivity. Qed.

(** The positions held by the tree are positions of the backing store. *)
Lemma sound_lt k st w :
  sound k st -> In w (all_items (tree st)) -> (i w < length (allItems st))%nat.
Proof.
  intros Hs Hw. destruct (Hs w Hw) as (it & E & _).
  apply nth_error_Some. congruence.
Qed.

(** What a call of [tree.insert] from the public [insert] can end in. *)
Lemma push_and_insert_spec k st cur :
  Inv k st ->
  let r := push_and_insert st cur (length (allItems st)) in
  Inv k (fst r) /\
  fst r = {| opts := opts st;
             tree := fst (Node.insert (opts st) (tree st)
                            (itemToIndex cur (length (allItems st))));
             allItems := allItems st ++ [cur] |} /\
  grows (tree st) (tree (fst r)) /\
  (predictable (opts st) = true -> snd r = pushed (opts st) cur) /\
  (forall e, snd r = Abrupt e ->
     Opts.debug_mode (opts st) = true /\
     ((e = ItemNotInserted cur /\ in_root (opts st) cur = false) \/
      (node_error (opts st) e /\ in_root (opts st) cur = true /\
       finite_origin (opts st) = false))).
Proof.
  intros [Ho Hg Hb Hd Hk Hs Hnd Hfull]. unfold push_and_insert.
  set (it := itemToIndex cur (length (allItems st))).
  pose proof (@insert_sane (opts st) (tree st) it Hg) as Hsane.
  pose proof (insert_keeps (opts st) (tree st) it) as Hkeeps.
  pose proof (@insert_sub (opts st) (tree st) it Hg) as Hsub.
  assert (Hgood : finite_origin (opts st) = true ->
                  good (tree st) it (Node.insert (opts st) (tree st) it)).
  { intros Hf. apply insert_good; [exact Hg|].
    rewrite (finite_corner_root Hb). exact Hf. }
  assert (Hc : Node.containsPoint (tree st) (x it) (y it) = in_root (opts st) cur)
    by (rewrite (containsPoint_root _ _ Hb); reflexivity).
  destruct (Node.insert (opts st) (tree st) it) as [tree' res].
  destruct Hsane as (Hg' & Hincl & Hrej & Hab & Hdbg).
  cbn [fst snd] in Hg', Hincl, Hrej, Hab, Hdbg, Hsub.
  assert (Hgr : grows (tree st) tree') by apply Hkeeps.
  assert (HI : Inv k {| opts := opts st; tree := tree'; allItems := allItems st ++ [cur] |}).
  { constructor; unfold sound, complete; cbn [opts tree allItems].
    - exact Ho.
    - exact Hg'.
    - apply grows_box in Hgr. eapply same_box_trans; [exact Hgr | exact Hb].
    - intros H. destruct Hkeeps as (_ & Hdep & _). apply Hdep, Hd, H.
    - rewrite length_app. simpl. lia.
    - intros w Hw. apply Hincl in Hw. destruct Hw as [<-|Hw].
      + exists cur. cbn [i it itemToIndex].
        rewrite nth_error_app2, Nat.sub_diag by apply le_n.
        split; [reflexivity|]. split; [exact Hk|reflexivity].
      + destruct (Hs w Hw) as (it0 & E & Hkw & Ew). exists it0.
        rewrite nth_error_app1 by (apply nth_error_Some; congruence). auto.
    - destruct Hsub as [l Hp].
      apply (Permutation_map i) in Hp. rewrite map_app in Hp.
      apply (@NoDup_app_remove_r _ _ (map i l)).
      apply (Permutation_NoDup (Permutation_sym Hp)).
      cbn [map]. constructor; [|exact Hnd].
      rewrite in_map_iff. intros (w & Ew & Hw).
      pose proof (@sound_lt k st w Hs Hw) as Hlt.
      cbn [i it itemToIndex] in Ew. lia.
    - intros Hf. destruct (Hfull Hf) as (Ht & Hfirm & Hcomp).
      destruct (Hgood Hf) as (Hres & Hown & Hfirm'). unfold owned in Hown.
      cbn [fst snd] in Hres, Hown, Hfirm'. subst res.
      split; [exact (@keeps_tidy (opts st) (tree st) tree' _ Hkeeps Ht)|].
      split; [exact (Hfirm' Hfirm)|].
      intros j it0 E Hj Hr.
      destruct (Nat.lt_ge_cases j (length (allItems st))) as [Hlt|Hge].
      + rewrite nth_error_app1 in E by exact Hlt.
        apply (Permutation_in _ (Permutation_sym Hown)).
        pose proof (Hcomp j it0 E Hj Hr) as Hin.
        destruct (Node.containsPoint (tree st) (x it) (y it)); [right|]; exact Hin.
      + rewrite nth_error_app2 in E by exact Hge.
        destruct (j - length (allItems st))%nat as [|m] eqn:Em;
          [|destruct m; discriminate].
        cbn in E. injection E as <-.
        assert (j = length (allItems st)) as -> by lia.
        apply (Permutation_in _ (Permutation_sym Hown)).
        rewrite Hc, Hr. left. reflexivity. }
  assert (Hfst : forall c : completion unit,
            fst ({| opts := opts st; tree := tree'; allItems := allItems st ++ [cur] |}, c)
            = {| opts := opts st; tree := tree'; allItems := allItems st ++ [cur] |})
    by reflexivity.
  assert (Hpred : predictable (opts st) = true ->
            match res with
            | Abrupt e => Abrupt e
            | Normal b =>
                if Opts.debug_mode (opts st) && negb b
                then Abrupt (ItemNotInserted cur) else Normal tt
            end = pushed (opts st) cur).
  { unfold predictable, pushed. intros Hp.
    destruct (Opts.debug_mode (opts st)) eqn:D; cbn [negb orb andb] in *.
    - destruct (Hgood Hp) as (Hres & _). cbn [snd] in Hres. subst res.
      rewrite Hc. reflexivity.
    - destruct res as [b|e]; [reflexivity|].
      destruct (Hab e eq_refl) as [D' _]. congruence. }
  assert (Herr : forall e,
            match res with
            | Abrupt e => Abrupt e
            | Normal b =>
                if Opts.debug_mode (opts st) && negb b
                then Abrupt (ItemNotInserted cur) else Normal tt
            end = Abrupt e ->
            Opts.debug_mode (opts st) = true /\
            ((e = ItemNotInserted cur /\ in_root (opts st) cur = false) \/
             (node_error (opts st) e /\ in_root (opts st) cur = true /\
              finite_origin (opts st) = false))).
  { intros e He. destruct res as [b|e'].
    - destruct (Opts.debug_mode (opts st)) eqn:D; cbn [andb] in He; [|discriminate].
      split; [reflexivity|]. destruct b; cbn [negb] in He; [discriminate|].
      injection He as <-. left. split; [reflexivity|].
      rewrite <- Hc. symmetry. apply (Hdbg false eq_refl eq_refl).
    - injection He as <-. pose proof (Hab e' eq_refl) as Hne.
      split; [apply Hne|]. right. split; [exact Hne|].
      destruct (Node.containsPoint (tree st) (x it) (y it)) eqn:Ec.
      + split; [rewrite <- Hc; reflexivity|].
        destruct (finite_origin (opts st)) eqn:Hf; [|reflexivity].
        destruct (Hgood eq_refl) as (Hres & _). discriminate.
      + specialize (Hrej eq_refl). discriminate. }
  cbv zeta.
  destruct res as [b|e]; [destruct (Opts.debug_mode (opts st) && negb b)|];
    cbn [fst snd]; (split; [exact HI|]); (split; [reflexivity|]);
    (split; [exact Hgr|]); (split; [exact Hpred | exact Herr]).
Qed.

Lemma insert_post_same k st c : Inv k st -> insert_post k st ([], c) (st, c).
Proof.
  intros H. unfold insert_post. cbn [fst snd]. rewrite app_nil_r.
  split; [exact H|]. split; [reflexivity|]. split; [apply grows_refl|].
  split; [exists []; rewrite app_nil_r; reflexivity|]. auto.
Qed.

Lemma insert_loop_spec k rest : forall st tlb i,
  Inv k st -> (tlb + i = length (allItems st))%nat ->
  insert_post k st (loop_effect (opts st) rest) (insert_loop st tlb i rest).
Proof.
  induction rest as [|cur rest IH]; intros st tlb i HI Hlen; simpl.
  - apply insert_post_same, HI.
  - rewrite Hlen.
    destruct (push_and_insert_spec cur HI) as (HI1 & Hf & Hgr & Hp & _).
    destruct (push_and_insert st cur (length (allItems st))) as [st1 c1].
    cbn [fst snd] in HI1, Hf, Hgr, Hp.
    assert (Ho : opts st1 = opts st) by (rewrite Hf; reflexivity).
    assert (Ha : allItems st1 = allItems st ++ [cur]) by (rewrite Hf; reflexivity).
    destruct c1 as [u|e].
    + assert (Hlen1 : (tlb + S i = length (allItems st1))%nat).
      { rewrite Ha, length_app. simpl. lia. }
      destruct (IH st1 tlb (S i) HI1 Hlen1) as (HI2 & Ho2 & Hgr2 & [d Hd] & Hp2).
      unfold insert_post.
      split; [exact HI2|]. split; [congruence|].
      split; [eapply grows_trans; eauto|].
      split; [exists ([cur] ++ d); rewrite Hd, Ha, <- app_assoc; reflexivity|].
      intros Hpr. rewrite <- (Hp Hpr).
      rewrite Ho in Hp2. destruct (Hp2 Hpr) as [Ha2 Hc2].
      destruct (loop_effect (opts st) rest) as [d' c]. cbn [fst snd] in *.
      split; [rewrite Ha2, Ha, <- app_assoc; reflexivity | exact Hc2].
    + unfold insert_post. cbn [fst snd].
      split; [exact HI1|]. split; [exact Ho|]. split; [exact Hgr|].
      split; [exists [cur]; exact Ha|].
      intros Hpr. rewrite <- (Hp Hpr). cbn [fst snd]. auto.
Qed.

Lemma _insert_spec k st a :
  Inv k st -> insert_post k st (insert_effect (opts st) a) (_insert st a).
Proof.
  intros HI. destruct a as [item|[|first rest]]; unfold insert_effect, _insert.
  - destruct (checkIsValid (opts st) item) as [[|]|e];
      try (apply insert_post_same, HI).
    rewrite length_app, Nat.add_sub.
    destruct (push_and_insert_spec item HI) as (HI1 & Hf & Hgr & Hp & _).
    unfold insert_post. cbn [fst snd].
    split; [exact HI1|]. split; [rewrite Hf; reflexivity|]. split; [exact Hgr|].
    split; [exists [item]; rewrite Hf; reflexivity|].
    intros Hpr. split; [rewrite Hf; reflexivity | exact (Hp Hpr)].
  - apply insert_post_same, HI.
  - destruct (checkIsValid (opts st) first) as [[|]|e];
      try (apply insert_post_same, HI).
    apply insert_loop_spec; auto.
Qed.

(** ** The answer of a query *)

Lemma sorted_unique (l1 : list nat) : forall l2,
  StronglySorted lt l1 -> StronglySorted lt l2 ->
  (forall j, In j l1 <-> In j l2) -> l1 = l2.
Proof.
  induction l1 as [|a l1 IH]; intros [|b l2] H1 H2 Hin.
  - reflexivity.
  - destruct (proj2 (Hin b) (or_introl eq_refl)).
  - destruct (proj1 (Hin a) (or_introl eq_refl)).
  - inversion H1 as [|? ? S1 F1]; inversion H2 as [|? ? S2 F2]; subst.
    rewrite Forall_forall in F1, F2.
    assert (a = b).
    { destruct (proj1 (Hin a) (or_introl eq_refl)) as [Hab|Hab]; [auto|].
      destruct (proj2 (Hin b) (or_introl eq_refl)) as [Hba|Hba]; [auto|].
      specialize (F1 _ Hba). specialize (F2 _ Hab). lia. }
    subst b. f_equal. apply IH; auto.
    intros j. split; intros Hj.
    + destruct (proj1 (Hin j) (or_intror Hj)) as [->|H]; [|exact H].
      specialize (F1 _ Hj). lia.
    + destruct (proj2 (Hin j) (or_intror Hj)) as [->|H]; [|exact H].
      specialize (F2 _ Hj). lia.
Qed.

Lemma seq_sorted n : forall k, StronglySorted lt (seq k n).
Proof.
  induction n as [|n IH]; intros k; simpl; constructor; auto.
  rewrite Forall_forall. intros j Hj. apply in_seq in Hj. lia.
Qed.

Lemma filter_sorted (p : nat -> bool) l :
  StronglySorted lt l -> StronglySorted lt (filter p l).
Proof.
  induction 1 as [|a l S IH F]; simpl; [constructor|].
  destruct (p a); auto. constructor; auto.
  rewrite Forall_forall in *. intros j Hj. apply filter_In in Hj. apply F, Hj.
Qed.

Lemma map_filter_seq o t l b r items n : forall k,
  (k + n = length items)%nat ->
  map (fun j => nth_error items j) (filter (wanted o t l b r items) (seq k n))
  = answer o t l b r (skipn k items).
Proof.
  unfold answer.
  induction n as [|n IH]; intros k Hk; simpl.
  - rewrite skipn_all2 by lia. reflexivity.
  - assert (Hlt : (k < length items)%nat) by lia.
    destruct (nth_error items k) as [it|] eqn:E;
      [|apply nth_error_None in E; lia].
    assert (Hs : skipn k items = it :: skipn (S k) items).
    { clear -E. revert items E. induction k as [|k IHk]; intros [|a items] E;
        try discriminate; simpl in *.
      - injection E as ->. reflexivity.
      - apply IHk, E. }
    rewrite Hs. simpl. unfold wanted at 1. rewrite E.
    destruct (in_root o it && in_bounds t l b r it); simpl;
      rewrite IH by lia; [rewrite E|]; reflexivity.
Qed.


(** The indices a query collects, on every index: those of the entries of
    the tree whose point is in the query rectangle, in ascending order. *)
Lemma tree_query_in k st t l b r j :
  Inv k st ->
  (In j (Node.queryRange (tree st) t l b r []) <->
   exists w, In w (all_items (tree st)) /\ in_query t l b r w /\ i w = j).
Proof.
  intros HI. rewrite (@queryRange_in t l b r (tree st) [] j (inv_geo HI)).
  split; [intros [[]|H]; exact H | auto].
Qed.

(** The entries of the tree stand for items in the root rectangle. *)
Lemma tree_entry k st w :
  Inv k st -> In w (all_items (tree st)) ->
  exists it, nth_error (allItems st) (i w) = Some it /\ (k <= i w)%nat /\
             w = itemToIndex it (i w) /\ in_root (opts st) it = true.
Proof.
  intros HI Hw. destruct (inv_sound HI w Hw) as (it & E & Hk & Ew).
  exists it. split; [exact E|]. split; [exact Hk|]. split; [exact Ew|].
  pose proof (@geo_inside _ (inv_geo HI)) as Hall. rewrite Forall_forall in Hall.
  specialize (Hall w Hw). unfold inside in Hall.
  rewrite (containsPoint_root _ _ (inv_box HI)), Ew in Hall. exact Hall.
Qed.

Lemma query_spec k st t l b r :
  Inv k st -> finite_origin (opts st) = true ->
  itemsByIndex (allItems st) (Node.queryRange (tree st) t l b r [])
  = answer (opts st) t l b r (skipn k (allItems st)).
Proof.
  intros HI Hf.
  pose proof (inv_base HI) as Hk.
  destruct (inv_full HI Hf) as (_ & _ & Hcomp).
  rewrite <- (@map_filter_seq _ _ _ _ _ _ (length (allItems st) - k)) by lia.
  unfold itemsByIndex. f_equal.
  apply sorted_unique.
  - apply queryRange_sorted. constructor.
  - apply filter_sorted, seq_sorted.
  - intros j. rewrite (tree_query_in t l b r j HI), filter_In, in_seq.
    unfold wanted. split.
    + intros (w & Hw & Hq & <-).
      destruct (@tree_entry k st w HI Hw) as (it & E & Hkw & Ew & Hr).
      rewrite E, Hr. cbn [andb]. split.
      * assert (nth_error (allItems st) (i w) <> None) as Hn by congruence.
        apply nth_error_Some in Hn. lia.
      * unfold in_query in Hq. rewrite Ew in Hq. exact Hq.
    + intros [Hj Hw].
      destruct (nth_error (allItems st) j) as [it|] eqn:E; [|discriminate].
      apply andb_true_iff in Hw. destruct Hw as [Hr Hq].
      exists (itemToIndex it j). split; [|split; [exact Hq | reflexivity]].
      apply (Hcomp j it E); [lia | exact Hr].
Qed.

(** ** Runs keep the invariant *)

Lemma clear_Inv k st :
  Inv k st ->
  Inv (length (allItems st)) (fst (_clear st)) /\
  opts (fst (_clear st)) = opts st /\
  allItems (fst (_clear st)) = allItems st /\
  snd (_clear st) = Normal tt.
Proof.
  intros HI. rewrite (clear_spec _ (inv_opts HI)). simpl.
  split; [|auto].
  exact (@Inv_new _ (allItems st) (inv_opts HI)).
Qed.

Lemma step_Inv k st c :
  Inv k st ->
  (exists k', Inv k' (fst (step st c))) /\ opts (fst (step st c)) = opts st.
Proof.
  intros HI. destruct c as [a| | | |]; unfold step;
    try (split; [exists k; exact HI | reflexivity]).
  - pose proof (_insert_spec a HI) as (H1 & H2 & _).
    destruct (_insert st a) as [st' r]. cbn [fst snd] in *. eauto.
  - destruct (clear_Inv HI) as (H1 & H2 & _).
    destruct (_clear st) as [st' r]. cbn [fst snd] in *. eauto.
Qed.

Lemma run_cons st c rest :
  run st (c :: rest) =
  (fst (run (fst (step st c)) rest), snd (step st c) :: snd (run (fst (step st c)) rest)).
Proof.
  simpl. destruct (step st c) as [st' r]. simpl.
  destruct (run st' rest) as [st'' rs]. reflexivity.
Qed.

Lemma run_Inv calls : forall k st,
  Inv k st ->
  (exists k', Inv k' (fst (run st calls))) /\ opts (fst (run st calls)) = opts st.
Proof.
  induction calls as [|c rest IH]; intros k st HI.
  - simpl. eauto.
  - rewrite run_cons. simpl.
    destruct (step_Inv c HI) as [[k1 H1] Ho1].
    destruct (IH _ _ H1) as [H2 Ho2]. split; [exact H2 | congruence].
Qed.

Lemma reachable_Inv st : reachable st -> exists k, Inv k st.
Proof.
  intros (options & st0 & calls & E & ->).
  apply (run_Inv calls (quadtree_Inv _ E)).
Qed.

Lemma skipn_app_le (A : Type) k (l d : list A) :
  (k <= length l)%nat -> skipn k (l ++ d) = skipn k l ++ d.
Proof.
  intros H. rewrite skipn_app.
  replace (k - length l)%nat with O by lia. reflexivity.
Qed.

(** The items indexed after a run are those appended since the last
    [clear]. *)
Lemma run_live calls : forall k st,
  Inv k st -> predictable (opts st) = true ->
  exists k', Inv k' (fst (run st calls)) /\
    skipn k' (allItems (fst (run st calls)))
    = live_items (opts st) (skipn k (allItems st)) calls.
Proof.
  induction calls as [|c rest IH]; intros k st HI Hp.
  - exists k. split; [exact HI|reflexivity].
  - rewrite run_cons. cbn [fst].
    destruct c as [a|t l b r|px py w h|obj|]; unfold step;
      try (cbn [fst live_items]; apply (IH _ _ HI Hp)).
    + pose proof (_insert_spec a HI) as (H1 & Ho & _ & _ & Hpr).
      destruct (Hpr Hp) as [Ha _].
      destruct (_insert st a) as [st' r]. cbn [fst snd live_items] in *.
      rewrite <- Ho in Hp. destruct (IH _ _ H1 Hp) as (k' & H2 & E).
      exists k'. split; [exact H2|].
      rewrite E, Ho, Ha, (skipn_app_le _ _ (inv_base HI)). reflexivity.
    + destruct (clear_Inv HI) as (H1 & Ho & Ha & _).
      destruct (_clear st) as [st' r]. cbn [fst snd live_items] in *.
      rewrite <- Ho in Hp. destruct (IH _ _ H1 Hp) as (k' & H2 & E).
      exists k'. split; [exact H2|].
      rewrite E, Ho, Ha, skipn_all. reflexivity.
Qed.

(** ** Sequences of [insert] calls *)

Lemma inserts_cons st a calls :
  inserts st (a :: calls) = inserts (fst (_insert st a)) calls.
Proof. reflexivity. Qed.

Lemma inserts_spec k calls : forall st,
  Inv k st ->
  Inv k (inserts st calls) /\ opts (inserts st calls) = opts st /\
  grows (tree st) (tree (inserts st calls)) /\
  (predictable (opts st) = true ->
   allItems (inserts st calls) = allItems st ++ stored (opts st) calls).
Proof.
  induction calls as [|a calls IH]; intros st HI.
  - simpl. rewrite app_nil_r. auto using grows_refl.
  - rewrite inserts_cons.
    destruct (_insert_spec a HI) as (H1 & O1 & G1 & _ & P1).
    destruct (IH _ H1) as (H2 & O2 & G2 & P2).
    split; [exact H2|]. split; [congruence|].
    split; [eapply grows_trans; eauto|].
    intros Hp. destruct (P1 Hp) as [A1 _]. rewrite O1 in P2.
    rewrite (P2 Hp), A1, <- app_assoc. reflexivity.
Qed.

Lemma in_root_frame o o' it : same_frame o o' -> in_root o it = in_root o' it.
Proof. intros (E1 & E2 & E3 & E4 & _). unfold in_root. congruence. Qed.

Lemma finite_origin_frame o o' : same_frame o o' -> finite_origin o = finite_origin o'.
Proof. intros (E1 & E2 & _). unfold finite_origin. congruence. Qed.

Lemma insert_effect_frame o o' a :
  same_frame o o' -> insert_effect o a = insert_effect o' a.
Proof.
  intros F. pose proof F as (_ & _ & _ & _ & Ed).
  assert (Hp : forall it, pushed o it = pushed o' it).
  { intros it. unfold pushed. rewrite Ed, (in_root_frame it F). reflexivity. }
  assert (Hv : forall it, checkIsValid o it = checkIsValid o' it).
  { intros it. unfold checkIsValid. rewrite Ed. reflexivity. }
  assert (Hl : forall rest, loop_effect o rest = loop_effect o' rest).
  { induction rest as [|cur rest IH]; simpl; [reflexivity|].
    rewrite Hp, IH. reflexivity. }
  destruct a as [item|[|first rest]]; unfold insert_effect; rewrite ?Hv, ?Hp, ?Hl;
    reflexivity.
Qed.

Lemma stored_frame o o' calls : same_frame o o' -> stored o calls = stored o' calls.
Proof.
  intros F. unfold stored. induction calls as [|a calls IH]; simpl; [reflexivity|].
  rewrite IH, (insert_effect_frame a F). reflexivity.
Qed.

Lemma answer_frame o o' t l b r live :
  same_frame o o' -> answer o t l b r live = answer o' t l b r live.
Proof.
  intros F. unfold answer. f_equal. apply filter_ext. intros it.
  rewrite (in_root_frame it F). reflexivity.
Qed.




Lemma pushed_in_root o it : in_root o it = true -> pushed o it = Normal tt.
Proof. unfold pushed. intros ->. rewrite andb_false_r. reflexivity. Qed.

Lemma checkIsValid_valid o it : lacks_xy it = false -> checkIsValid o it = Normal true.
Proof. unfold checkIsValid, lacks_xy. intros ->. reflexivity. Qed.



(** ** An index whose backing store starts later *)

Lemma shift_eq k n :
  shift k n =
  Node.mk (Node.top n) (Node.left n) (Node.bottom n) (Node.right n) (Node.depth n)
          (map (shift_item k) (Node.items n))
          (option_map (shift_quad k) (Node.nodes n)).
Proof. destruct n as [t l b r d its [ns|]]; reflexivity. Qed.

Lemma get_shift k q ns : Node.get q (shift_quad k ns) = shift k (Node.get q ns).
Proof. destruct q; reflexivity. Qed.

Lemma set_shift k q n ns :
  Node.set q (shift k n) (shift_quad k ns) = shift_quad k (Node.set q n ns).
Proof. destruct q; reflexivity. Qed.

Lemma containsPoint_shift k n px py :
  Node.containsPoint (shift k n) px py = Node.containsPoint n px py.
Proof. rewrite shift_eq. reflexivity. Qed.

Lemma containsRangePart_shift k n t l b r :
  Node.containsRangePart (shift k n) t l b r = Node.containsRangePart n t l b r.
Proof. rewrite shift_eq. reflexivity. Qed.

Lemma shift_new k t l b r d : shift k (Node.new t l b r d) = Node.new t l b r d.
Proof. reflexivity. Qed.

Lemma children_shift k n : Node.children (shift k n) = shift_quad k (Node.children n).
Proof. rewrite shift_eq. reflexivity. Qed.

Lemma set_items_shift k n its :
  Node.set_items (shift k n) (map (shift_item k) its) = shift k (Node.set_items n its).
Proof. rewrite !shift_eq. reflexivity. Qed.

Lemma set_nodes_shift k n ns :
  Node.set_nodes (shift k n) (Some (shift_quad k ns)) = shift k (Node.set_nodes n (Some ns)).
Proof. rewrite !shift_eq. reflexivity. Qed.

Lemma items_shift k n : Node.items (shift k n) = map (shift_item k) (Node.items n).
Proof. rewrite shift_eq. reflexivity. Qed.

Lemma nodes_shift k n : Node.nodes (shift k n) = option_map (shift_quad k) (Node.nodes n).
Proof. rewrite shift_eq. reflexivity. Qed.

Lemma depth_shift k n : Node.depth (shift k n) = Node.depth n.
Proof. rewrite shift_eq. reflexivity. Qed.

Lemma fuel_for_shift o k n : Node.fuel_for o (shift k n) = Node.fuel_for o n.
Proof.
  induction n as [n E|n ns E H1 H2 H3 H4] using node_induction.
  - rewrite !fuel_for_leaf, depth_shift; [reflexivity | exact E |].
    rewrite nodes_shift, E. reflexivity.
  - rewrite (@fuel_for_interior o n ns E).
    rewrite (@fuel_for_interior o (shift k n) (shift_quad k ns))
      by (rewrite nodes_shift, E; reflexivity).
    cbn [shift_quad Node.tl Node.tr Node.bl Node.br]. rewrite H1, H2, H3, H4. reflexivity.
Qed.

Section Shift.
Variable o : Opts.t.
Variable k : nat.

Section Body.
Variables ins1 ins2 : Node -> IndexItem -> option (Node * completion bool).
Hypothesis ins_shift : forall n it,
  ins1 (shift k n) (shift_item k it) = option_map (shift_result k) (ins2 n it).

Lemma delegate_shift qs : forall ns it,
  Node.delegate ins1 qs (shift_quad k ns) (shift_item k it)
  = option_map (shift_quads k) (Node.delegate ins2 qs ns it).
Proof.
  induction qs as [|q qs IH]; intros ns it; [reflexivity|].
  cbn [Node.delegate]. rewrite get_shift, ins_shift.
  destruct (ins2 (Node.get q ns) it) as [[n1 [[|]|e]]|]; cbn [option_map shift_result fst snd];
    rewrite ?set_shift; try reflexivity.
  apply IH.
Qed.

Lemma reinsert_shift its : forall n,
  Node.reinsert o ins1 (shift k n) (map (shift_item k) its)
  = option_map (shift_result k) (Node.reinsert o ins2 n its).
Proof.
  induction its as [|it its IH]; intros n; [reflexivity|].
  cbn [Node.reinsert map]. rewrite ins_shift.
  destruct (ins2 n it) as [[n1 [b|e]]|]; cbn [option_map shift_result fst snd];
    try reflexivity.
  destruct (Opts.debug_mode o && negb b); [reflexivity|]. apply IH.
Qed.

Lemma insert_body_shift n it :
  Node.insert_body o ins1 (shift k n) (shift_item k it)
  = option_map (shift_result k) (Node.insert_body o ins2 n it).
Proof.
  unfold Node.insert_body, Node.divide.
  rewrite containsPoint_shift. cbn [x y shift_item].
  destruct (negb _); [reflexivity|].
  rewrite nodes_shift.
  destruct (Node.nodes n) as [ns|] eqn:En; cbn [option_map].
  - rewrite delegate_shift.
    destruct (Node.delegate ins2 _ ns it) as [[ns' [[|]|e]]|];
      cbn [option_map shift_quads shift_result fst snd];
      try destruct (Opts.debug_mode o); rewrite ?set_nodes_shift; reflexivity.
  - rewrite items_shift, length_map, depth_shift.
    destruct (_ || _).
    + change [shift_item k it] with (map (shift_item k) [it]).
      rewrite <- map_app, set_items_shift. reflexivity.
    + rewrite children_shift, set_nodes_shift, reinsert_shift.
      destruct (Node.reinsert o ins2 _ _) as [[n2 [b|e]]|];
        cbn [option_map shift_result fst snd]; try reflexivity.
      change (@nil IndexItem) with (map (shift_item k) []).
      rewrite set_items_shift. apply ins_shift.
Qed.
End Body.

Lemma insert_fuel_shift f : forall n it,
  Node.insert_fuel f o (shift k n) (shift_item k it)
  = option_map (shift_result k) (Node.insert_fuel f o n it).
Proof.
  induction f as [|f IH]; intros n it; [reflexivity|].
  exact (@insert_body_shift _ _ IH n it).
Qed.

Lemma insert_shift n it :
  Node.insert o (shift k n) (shift_item k it) = shift_result k (Node.insert o n it).
Proof.
  unfold Node.insert. rewrite fuel_for_shift, insert_fuel_shift.
  destruct (Node.insert_fuel _ o n it); reflexivity.
Qed.
End Shift.

Lemma store_shift k j s :
  store (k + j) (map (Nat.add k) s) = map (Nat.add k) (store j s).
Proof.
  induction s as [|h s IH]; [reflexivity|].
  cbn [store map].
  replace (k + j <? k + h)%nat with (j <? h)%nat
    by (destruct (Nat.ltb_spec j h), (Nat.ltb_spec (k + j) (k + h)); lia || reflexivity).
  replace (k + j =? k + h)%nat with (j =? h)%nat
    by (destruct (Nat.eqb_spec j h), (Nat.eqb_spec (k + j) (k + h)); lia || reflexivity).
  destruct (j <? h)%nat; [reflexivity|].
  destruct (j =? h)%nat; [reflexivity|].
  cbn [map]. rewrite IH. reflexivity.
Qed.

Lemma collect_shift k t l b r its : forall s,
  Node.collect t l b r (map (shift_item k) its) (map (Nat.add k) s)
  = map (Nat.add k) (Node.collect t l b r its s).
Proof.
  induction its as [|it its IH]; intros s; [reflexivity|].
  cbn [Node.collect map x y i shift_item].
  destruct (pointIsInBounds _ _ _ _ _ _); [rewrite store_shift|]; apply IH.
Qed.

Lemma queryRange_shift k t l b r n : forall s,
  Node.queryRange (shift k n) t l b r (map (Nat.add k) s)
  = map (Nat.add k) (Node.queryRange n t l b r s).
Proof.
  induction n as [n E|n ns E H1 H2 H3 H4] using node_induction; intros s;
    rewrite (queryRange_eq (shift k n)), (queryRange_eq n),
      containsRangePart_shift, items_shift, nodes_shift, E;
    destruct (negb _); try reflexivity; cbn [option_map].
  - apply collect_shift.
  - cbn [shift_quad Node.tl Node.tr Node.bl Node.br].
    rewrite H1, H2, H3, H4. apply collect_shift.
Qed.

Lemma itemsByIndex_shift pre items index :
  itemsByIndex (pre ++ items) (map (Nat.add (length pre)) index)
  = itemsByIndex items index.
Proof.
  unfold itemsByIndex. rewrite map_map. apply map_ext. intros j.
  rewrite nth_error_app2 by lia. f_equal. lia.
Qed.

Lemma query_shifted k s1 s2 t l b r :
  shifted k s1 s2 ->
  itemsByIndex (allItems s1) (Node.queryRange (tree s1) t l b r [])
  = itemsByIndex (allItems s2) (Node.queryRange (tree s2) t l b r []).
Proof.
  intros (Ho & Ht & pre & Hk & Ha). rewrite Ht, Ha. subst k.
  change (@nil nat) with (map (Nat.add (length pre)) []) at 1.
  rewrite queryRange_shift. apply itemsByIndex_shift.
Qed.

Lemma push_and_insert_shifted k s1 s2 cur j :
  shifted k s1 s2 ->
  snd (push_and_insert s1 cur (k + j)) = snd (push_and_insert s2 cur j) /\
  shifted k (fst (push_and_insert s1 cur (k + j))) (fst (push_and_insert s2 cur j)).
Proof.
  intros (Ho & Ht & pre & Hk & Ha). unfold push_and_insert.
  rewrite Ho, Ht.
  change (itemToIndex cur (k + j)) with (shift_item k (itemToIndex cur j)).
  rewrite insert_shift.
  destruct (Node.insert (opts s2) (tree s2) (itemToIndex cur j)) as [n' c].
  cbn [shift_result fst snd].
  assert (Hs : forall c1 c2 : completion unit,
            shifted k
              (fst ({| opts := opts s2; tree := shift k n'; allItems := allItems s1 ++ [cur] |}, c1))
              (fst ({| opts := opts s2; tree := n'; allItems := allItems s2 ++ [cur] |}, c2))).
  { intros c1 c2. cbn [fst]. split; [reflexivity|]. split; [reflexivity|].
    exists pre. split; [exact Hk|]. cbn [allItems]. rewrite Ha, app_assoc. reflexivity. }
  destruct c as [b|e]; [destruct (Opts.debug_mode (opts s2) && negb b)|];
    (split; [reflexivity | apply Hs]).
Qed.

Lemma insert_loop_shifted k rest : forall s1 s2 tlb i,
  shifted k s1 s2 ->
  snd (insert_loop s1 (k + tlb) i rest) = snd (insert_loop s2 tlb i rest) /\
  shifted k (fst (insert_loop s1 (k + tlb) i rest)) (fst (insert_loop s2 tlb i rest)).
Proof.
  induction rest as [|cur rest IH]; intros s1 s2 tlb i R; [split; [reflexivity|exact R]|].
  cbn [insert_loop]. rewrite <- Nat.add_assoc.
  destruct (@push_and_insert_shifted k s1 s2 cur (tlb + i) R) as [Ec R'].
  destruct (push_and_insert s1 cur (k + (tlb + i))) as [s1' c1],
           (push_and_insert s2 cur (tlb + i)) as [s2' c2].
  cbn [fst snd] in Ec, R'. subst c2.
  destruct c1 as [u|e]; [apply IH, R' | split; [reflexivity | exact R']].
Qed.

Lemma shifted_length k s1 s2 :
  shifted k s1 s2 -> length (allItems s1) = (k + length (allItems s2))%nat.
Proof. intros (_ & _ & pre & Hk & Ha). rewrite Ha, length_app, Hk. reflexivity. Qed.

Lemma step_shifted k s1 s2 c :
  shifted k s1 s2 ->
  snd (step s1 c) = snd (step s2 c) /\ shifted k (fst (step s1 c)) (fst (step s2 c)).
Proof.
  intros R. pose proof R as (Ho & Ht & pre & Hk & Ha).
  pose proof (shifted_length R) as Hlen.
  destruct c as [a|t l b r|px py w h|obj|]; unfold step.
  - assert (H : snd (_insert s1 a) = snd (_insert s2 a) /\
                shifted k (fst (_insert s1 a)) (fst (_insert s2 a))).
    { destruct a as [item|[|first rest]]; unfold _insert; rewrite ?Ho.
      - destruct (checkIsValid (opts s2) item) as [[|]|e];
          try (split; [reflexivity | exact R]).
        rewrite !length_app, !Nat.add_sub, Hlen.
        apply push_and_insert_shifted, R.
      - split; [reflexivity | exact R].
      - destruct (checkIsValid (opts s2) first) as [[|]|e];
          try (split; [reflexivity | exact R]).
        rewrite Hlen. apply insert_loop_shifted, R. }
    destruct (_insert s1 a) as [s1' r1], (_insert s2 a) as [s2' r2].
    cbn [fst snd] in *. destruct H as [-> H]. auto.
  - cbn [fst snd]. split; [|exact R]. f_equal. unfold _queryRange, invalid_query. rewrite Ho.
    destruct t, l, b, r; try reflexivity.
    rewrite (@query_shifted k s1 s2 _ _ _ _ R). reflexivity.
  - cbn [fst snd]. split; [|exact R]. f_equal.
    unfold _queryRangeByCenter, invalid_query. rewrite Ho.
    destruct px, py, w, h; try reflexivity.
    rewrite (@query_shifted k s1 s2 _ _ _ _ R). reflexivity.
  - cbn [fst snd]. split; [|exact R]. f_equal.
    unfold _queryContainedBy, invalid_query. rewrite Ho.
    destruct obj as [[[[[] []] []] []]|]; try reflexivity.
    rewrite (@query_shifted k s1 s2 _ _ _ _ R). reflexivity.
  - unfold _clear, init, as_options.
    cbn [Options.top Options.left Options.bottom Options.right fst snd].
    rewrite Ho. split; [reflexivity|].
    split; [reflexivity|]. split; [reflexivity|].
    exists pre. split; [exact Hk | exact Ha].
Qed.

Lemma run_shifted k calls : forall s1 s2,
  shifted k s1 s2 -> snd (run s1 calls) = snd (run s2 calls).
Proof.
  induction calls as [|c rest IH]; intros s1 s2 R; [reflexivity|].
  rewrite !run_cons. cbn [snd].
  destruct (@step_shifted k s1 s2 c R) as [E R']. rewrite E, (IH _ _ R'). reflexivity.
Qed.

(** ** The claims *)

(** C1, as stated, fails: [clear] does not discard the backing store.  After
    one [insert] and a [clear] the store still holds the item. *)
Lemma C1_counterexample :
  allItems (fst (_clear (inserts (index100 2 4 false) [One (pt 1 1 0)]))) = [pt 1 1 0]
  /\ allItems (fst (_clear (inserts (index100 2 4 false) [One (pt 1 1 0)]))) <> [].
Proof. split; [reflexivity | discriminate]. Qed.

(** C1, amended: for every index state, [clear] replaces the root Node by a
    fresh one built from the stored configuration and keeps the backing
    store as it is; the resulting index still answers every subsequent
    sequence of [insert], query and [clear] calls exactly as a freshly
    constructed index with the same options does. *)
Theorem C1_clear_rebuilds_tree_keeps_store (st : State) :
  exists fresh,
    quadtree (as_options (opts st)) = Normal fresh /\
    allItems fresh = [] /\
    _clear st = ({| opts := opts fresh; tree := tree fresh; allItems := allItems st |},
                 Normal tt) /\
    forall calls, snd (run (fst (_clear st)) calls) = snd (run fresh calls).
Proof.
  destruct (init (as_options (opts st))) as [[o t]|e] eqn:E; [|discriminate].
  exists {| opts := o; tree := t; allItems := [] |}.
  assert (Eq : quadtree (as_options (opts st))
               = Normal {| opts := o; tree := t; allItems := [] |})
    by (unfold quadtree; rewrite E; reflexivity).
  assert (Ec : _clear st = ({| opts := o; tree := t; allItems := allItems st |}, Normal tt))
    by (unfold _clear; rewrite E; reflexivity).
  split; [exact Eq|]. split; [reflexivity|]. split; [exact Ec|].
  intros calls. apply (@run_shifted (length (allItems st))). rewrite Ec. cbn [fst].
  split; [reflexivity|]. cbn [tree allItems]. split.
  - unfold init, as_options in E.
    cbn [Options.top Options.left Options.bottom Options.right] in E.
    injection E as _ <-. reflexivity.
  - exists (allItems st). split; [reflexivity | symmetry; apply app_nil_r].
Qed.

(** C3, as stated, fails: an item outside the root rectangle is stored but
    never indexed, so a query rectangle that contains its point does not
    return it. *)
Lemma C3_counterexample :
  in_bounds 150 150 250 250 (pt 200 200 0) = true /\
  In (pt 200 200 0) (allItems (inserts (index100 2 4 false) [One (pt 200 200 0)])) /\
  _queryRange (inserts (index100 2 4 false) [One (pt 200 200 0)])
              (Num 150) (Num 150) (Num 250) (Num 250) = Normal [].
Proof. split; [reflexivity|]. split; [left; reflexivity | reflexivity]. Qed.

Lemma quadtree_empty options st : quadtree options = Normal st -> allItems st = [].
Proof.
  unfold quadtree. destruct (init options) as [[? ?]|]; [|discriminate].
  intros E. injection E as <-. reflexivity.
Qed.

(** The answer of [queryRange] on an index built by [insert] calls over a
    rectangle with a finite top left corner. *)
Lemma inserts_query options st0 calls t l b r :
  quadtree options = Normal st0 ->
  finite_origin (opts st0) = true ->
  _queryRange (inserts st0 calls) (Num t) (Num l) (Num b) (Num r)
  = Normal (answer (opts st0) t l b r (stored (opts st0) calls)) /\
  allItems (inserts st0 calls) = stored (opts st0) calls.
Proof.
  intros E Hf.
  destruct (inserts_spec calls (quadtree_Inv _ E)) as (HI & Ho & _ & Ha).
  specialize (Ha (finite_predictable _ Hf)).
  rewrite (quadtree_empty _ E) in Ha. cbn [app] in Ha.
  split; [|exact Ha].
  unfold _queryRange. rewrite (@query_spec 0 _ t l b r HI) by (rewrite Ho; exact Hf).
  rewrite Ho, Ha. reflexivity.
Qed.

(** C3, amended: for every index over a root rectangle with a finite top
    left corner that is built by [insert] calls, and every numeric query
    rectangle, an item appears in the result of [queryRange] if and only if
    it is in the backing store, its point lies in the root rectangle and its
    point satisfies the inclusive bounds test against the query rectangle;
    and an index that differs only in [max_per_cell] and [max_depth]
    returns the same result. *)
Theorem C3_query_is_bounds_test_within_root
  (options options' : Options.t) (st0 st0' : State) (calls : list insert_arg)
  (t l b r : float) :
  quadtree options = Normal st0 ->
  quadtree options' = Normal st0' ->
  same_frame (opts st0) (opts st0') ->
  finite_origin (opts st0) = true ->
  (exists found,
     _queryRange (inserts st0 calls) (Num t) (Num l) (Num b) (Num r) = Normal found /\
     forall it, In (Some it) found <->
                In it (allItems (inserts st0 calls)) /\
                in_root (opts st0) it = true /\ in_bounds t l b r it = true) /\
  _queryRange (inserts st0' calls) (Num t) (Num l) (Num b) (Num r)
  = _queryRange (inserts st0 calls) (Num t) (Num l) (Num b) (Num r).
Proof.
  intros E E' F Hf.
  assert (Hf' : finite_origin (opts st0') = true)
    by (rewrite <- (finite_origin_frame F); exact Hf).
  destruct (@inserts_query options st0 calls t l b r E Hf) as [Q1 Ha].
  destruct (@inserts_query options' st0' calls t l b r E' Hf') as [Q2 _].
  split.
  - eexists. split; [exact Q1|]. intros it. unfold answer. rewrite Ha.
    rewrite in_map_iff. split.
    + intros (it' & Eit & Hin). injection Eit as ->.
      apply filter_In in Hin. rewrite andb_true_iff in Hin. tauto.
    + intros (Hin & Hr & Hb). exists it. split; [reflexivity|].
      apply filter_In. rewrite Hr, Hb. auto.
  - rewrite Q1, Q2.
    rewrite (stored_frame calls F), (answer_frame _ _ _ _ _ F). reflexivity.
Qed.

Lemma C3_witness :
  quadtree (options100 (Some 1%Z) (Some 4%Z) None) = Normal (index100 1 4 false) /\
  quadtree (options100 (Some 7%Z) (Some 2%Z) None) = Normal (index100 7 2 false) /\
  same_frame (opts (index100 1 4 false)) (opts (index100 7 2 false)) /\
  finite_origin (opts (index100 1 4 false)) = true /\
  (exists found,
     _queryRange (inserts (index100 1 4 false) [Many [pt 1 1 0; pt 2 2 1; pt 60 60 2]])
                 (Num 0) (Num 0) (Num 50) (Num 50) = Normal found /\
     forall it, In (Some it) found <->
                In it (allItems (inserts (index100 1 4 false)
                                         [Many [pt 1 1 0; pt 2 2 1; pt 60 60 2]])) /\
                in_root (opts (index100 1 4 false)) it = true /\
                in_bounds 0 0 50 50 it = true) /\
  _queryRange (inserts (index100 7 2 false) [Many [pt 1 1 0; pt 2 2 1; pt 60 60 2]])
              (Num 0) (Num 0) (Num 50) (Num 50)
  = _queryRange (inserts (index100 1 4 false) [Many [pt 1 1 0; pt 2 2 1; pt 60 60 2]])
                (Num 0) (Num 0) (Num 50) (Num 50).
Proof.
  split; [reflexivity|]. split; [reflexivity|].
  split; [repeat split|]. split; [reflexivity|].
  apply (@C3_query_is_bounds_test_within_root
           (options100 (Some 1%Z) (Some 4%Z) None) (options100 (Some 7%Z) (Some 2%Z) None)).
  - reflexivity.
  - reflexivity.
  - repeat split.
  - reflexivity.
Defined.




(** C8: on the root from (0,0) to (100,100) with [max_per_cell = 1] and
    [max_depth = 4], after inserting (0,0), (100,100) and (50,50) in that
    order, [queryRange(0,0,50,50)] returns exactly the items at (0,0) and
    (50,50), and not the item at (100,100); in debug mode as well, and
    whether the points are inserted one by one or as one array. *)
Theorem C8_boundary_scenario (dbg : option bool) :
  exists st0,
    quadtree (options100 (Some 1%Z) (Some 4%Z) dbg) = Normal st0 /\
    _queryRange (inserts st0 [One (pt 0 0 0); One (pt 100 100 1); One (pt 50 50 2)])
                (Num 0) (Num 0) (Num 50) (Num 50)
    = Normal [Some (pt 0 0 0); Some (pt 50 50 2)] /\
    _queryRange (inserts st0 [Many [pt 0 0 0; pt 100 100 1; pt 50 50 2]])
                (Num 0) (Num 0) (Num 50) (Num 50)
    = Normal [Some (pt 0 0 0); Some (pt 50 50 2)] /\
    ~ In (Some (pt 100 100 1)) [Some (pt 0 0 0); Some (pt 50 50 2)].
Proof.
  destruct dbg as [[|]|]; eexists; (split; [reflexivity|]);
    (split; [vm_compute; reflexivity|]); (split; [vm_compute; reflexivity|]);
    intros [H|[H|[]]]; discriminate.
Qed.

(** C9: for every index, in debug mode or not, a query rectangle with four
    numeric bounds that lies entirely outside the root rectangle (to its
    left, to its right, above it or below it) makes [queryRange] return an
    empty sequence, and not raise. *)
Theorem C9_query_outside_root_is_empty (st : State) (t l b r : float) :
  (r <? Node.left (tree st)) = true \/ (Node.right (tree st) <? l) = true \/
  (b <? Node.top (tree st)) = true \/ (Node.bottom (tree st) <? t) = true ->
  _queryRange st (Num t) (Num l) (Num b) (Num r) = Normal [].
Proof.
  intros H. unfold _queryRange. rewrite queryRange_eq.
  assert (E : Node.containsRangePart (tree st) t l b r = false).
  { apply not_true_is_false. intros Hc.
    unfold Node.containsRangePart in Hc. apply rangesIntersect_true in Hc.
    destruct Hc as (H1 & H2 & H3 & H4).
    destruct H as [H|[H|[H|H]]]; apply ltb_not_leb in H; congruence. }
  rewrite E. reflexivity.
Qed.

Lemma C9_witness :
  ((300 <? Node.left (tree (inserts (index100 2 4 true) [One (pt 5 5 0)]))) = true \/
   (Node.right (tree (inserts (index100 2 4 true) [One (pt 5 5 0)])) <? 200) = true \/
   (300 <? Node.top (tree (inserts (index100 2 4 true) [One (pt 5 5 0)]))) = true \/
   (Node.bottom (tree (inserts (index100 2 4 true) [One (pt 5 5 0)])) <? 200) = true) /\
  _queryRange (inserts (index100 2 4 true) [One (pt 5 5 0)])
              (Num 200) (Num 200) (Num 300) (Num 300) = Normal [].
Proof.
  split.
  - right. left. reflexivity.
  - apply C9_query_outside_root_is_empty. right. left. reflexivity.
Defined.

(** C10: a [max_per_cell] or [max_depth] supplied as 0, or absent, gives the
    very index that the default (2, respectively 4) gives, so the two
    behave identically on every sequence of calls: the zero is not
    honoured. *)
Theorem C10_zero_option_is_the_default
  (t l b r : option float) (mpc md : option Z) (dbg : option bool) :
  quadtree (Options.mk t l b r (Some 0%Z) md dbg)
  = quadtree (Options.mk t l b r (Some 2%Z) md dbg) /\
  quadtree (Options.mk t l b r None md dbg)
  = quadtree (Options.mk t l b r (Some 2%Z) md dbg) /\
  quadtree (Options.mk t l b r mpc (Some 0%Z) dbg)
  = quadtree (Options.mk t l b r mpc (Some 4%Z) dbg) /\
  quadtree (Options.mk t l b r mpc None dbg)
  = quadtree (Options.mk t l b r mpc (Some 4%Z) dbg) /\
  forall calls,
    match quadtree (Options.mk t l b r (Some 0%Z) (Some 0%Z) dbg),
          quadtree (Options.mk t l b r (Some 2%Z) (Some 4%Z) dbg) with
    | Normal st, Normal st' => run st calls = run st' calls
    | Abrupt e, Abrupt e' => e = e'
    | _, _ => False
    end.
Proof.
  repeat split; try reflexivity.
  intros calls. unfold quadtree, init. simpl.
  destruct t, l, b, r; reflexivity.
Qed.

(** *** Arrays and invalid items *)

Lemma push_and_insert_eq k st cur :
  Inv k st -> predictable (opts st) = true ->
  push_and_insert st cur (length (allItems st)) =
  ({| opts := opts st;
      tree := fst (Node.insert (opts st) (tree st)
                     (itemToIndex cur (length (allItems st))));
      allItems := allItems st ++ [cur] |}, pushed (opts st) cur).
Proof.
  intros HI Hp.
  destruct (push_and_insert_spec cur HI) as (_ & Hf & _ & Hs & _).
  rewrite (surjective_pairing (push_and_insert st cur (length (allItems st)))).
  rewrite Hf, (Hs Hp). reflexivity.
Qed.

Lemma insert_loop_eq k rest : forall st tlb i,
  Inv k st -> predictable (opts st) = true ->
  (tlb + i = length (allItems st))%nat ->
  insert_loop st tlb i rest =
  ({| opts := opts st;
      tree := offer_all (opts st) (tree st) (length (allItems st))
                        (fst (loop_effect (opts st) rest));
      allItems := allItems st ++ fst (loop_effect (opts st) rest) |},
   snd (loop_effect (opts st) rest)).
Proof.
  induction rest as [|cur rest IH]; intros st tlb i HI Hp Hlen; simpl.
  - rewrite app_nil_r. destruct st; reflexivity.
  - rewrite Hlen, (push_and_insert_eq cur HI Hp).
    destruct (push_and_insert_spec cur HI) as (HI1 & _).
    rewrite (push_and_insert_eq cur HI Hp) in HI1. simpl in HI1.
    destruct (pushed (opts st) cur) as [u|e]; [|reflexivity].
    rewrite (IH _ tlb (S i) HI1) by (simpl; rewrite ?length_app; simpl; auto; lia).
    simpl. rewrite length_app, Nat.add_1_r.
    destruct (loop_effect (opts st) rest) as [d c]. simpl.
    rewrite <- app_assoc. reflexivity.
Qed.

Lemma loop_effect_quiet o rest :
  Opts.debug_mode o = false -> loop_effect o rest = (rest, Normal tt).
Proof.
  intros Hd. induction rest as [|cur rest IH]; simpl; [reflexivity|].
  unfold pushed. rewrite Hd, IH. reflexivity.
Qed.

Lemma in_root_valid o it : in_root o it = true -> lacks_xy it = false.
Proof.
  unfold in_root, in_bounds, lacks_xy. intros H.
  apply pointIsInBounds_true in H. destruct H as (a & c & -> & -> & _). reflexivity.
Qed.



Lemma reachable_index100 mpc md dbg :
  mpc <> 0%Z -> md <> 0%Z -> reachable (index100 mpc md dbg).
Proof.
  intros H1 H2. exists (options100 (Some mpc) (Some md) (Some dbg)), (index100 mpc md dbg), [].
  split; [|reflexivity].
  unfold quadtree, init, index100. simpl.
  destruct mpc; try (contradiction H1; reflexivity);
    destruct md; try (contradiction H2; reflexivity); reflexivity.
Qed.




(** C5, as stated, fails: a single item lacking [x] is not appended to the
    backing store; the store does not grow. *)
Lemma C5_counterexample :
  lacks_xy (no_x 0) = true /\
  Opts.debug_mode (opts (index100 2 4 false)) = false /\
  length (allItems (fst (_insert (index100 2 4 false) (One (no_x 0)))))
  <> S (length (allItems (index100 2 4 false))).
Proof. split; [reflexivity|]. split; [reflexivity|]. discriminate. Qed.

(** C5, amended: in non-debug mode an item lacking [x] or [y] never enters
    the tree.  Passed on its own, or as the first item of a sequence, it is
    not appended to the backing store either: the call changes nothing.
    Only behind a valid first item of a sequence is it appended to the
    backing store without being indexed. *)
Theorem C5_invalid_item_without_debug (st : State) (item : Item) :
  reachable st ->
  Opts.debug_mode (opts st) = false ->
  lacks_xy item = true ->
  _insert st (One item) = (st, Normal tt) /\
  (forall rest, _insert st (Many (item :: rest)) = (st, Normal tt)) /\
  (forall first before after,
     lacks_xy first = false ->
     allItems (fst (_insert st (Many (first :: before ++ item :: after))))
     = allItems st ++ first :: before ++ item :: after /\
     forall j,
       ~ In (itemToIndex item j)
            (all_items (tree (fst (_insert st (Many (first :: before ++ item :: after))))))).
Proof.
  intros Hr Hd Hbad. destruct (reachable_Inv Hr) as [k HI].
  split; [|split].
  - unfold _insert, checkIsValid. fold (lacks_xy item). rewrite Hbad, Hd. reflexivity.
  - intros rest. unfold _insert, checkIsValid. fold (lacks_xy item).
    rewrite Hbad, Hd. reflexivity.
  - intros first before after Hf.
    destruct (_insert_spec (Many (first :: before ++ item :: after)) HI)
      as (HI' & Ho & _ & _ & Hp).
    destruct (Hp (quiet_predictable _ Hd)) as [Ha _].
    split.
    + rewrite Ha. unfold insert_effect. rewrite (checkIsValid_valid _ _ Hf).
      rewrite (@loop_effect_quiet (opts st) _ Hd). reflexivity.
    + intros j Hin.
      destruct (@tree_entry k _ _ HI' Hin) as (it & _ & _ & Ew & Hroot).
      apply in_root_valid in Hroot.
      unfold itemToIndex in Ew. injection Ew as Ex Ey.
      unfold lacks_xy in *. rewrite Ex, Ey in Hbad. congruence.
Qed.

Lemma C5_witness :
  reachable (index100 2 4 false) /\
  Opts.debug_mode (opts (index100 2 4 false)) = false /\
  lacks_xy (no_x 7) = true /\
  _insert (index100 2 4 false) (One (no_x 7)) = (index100 2 4 false, Normal tt).
Proof.
  split; [apply reachable_index100; discriminate|].
  split; [reflexivity|]. split; [reflexivity|].
  apply (@C5_invalid_item_without_debug (index100 2 4 false) (no_x 7)).
  - apply reachable_index100; discriminate.
  - reflexivity.
  - reflexivity.
Defined.

(** *** The invariant of the nodes *)

Lemma every_node_eq P n :
  every_node P n =
  (P n /\
   match Node.nodes n with
   | None => True
   | Some ns => every_node P (Node.tl ns) /\ every_node P (Node.tr ns)
                /\ every_node P (Node.bl ns) /\ every_node P (Node.br ns)
   end).
Proof. destruct n; reflexivity. Qed.

Lemma node_ok_of n : geo n -> tidy n -> firm n -> node_ok n.
Proof.
  intros Hg Ht Hf. split.
  - intros Hi. rewrite tidy_eq in Ht.
    destruct (Node.nodes n); [destruct Ht as [Ht _]; contradiction | reflexivity].
  - intros ns E. pose proof (@geo_quadrants n ns Hg E) as Hq.
    pose proof (@firm_corner n ns Hf E) as Hc.
    rewrite tidy_eq, E in Ht.
    split; [tauto|]. split; [exact Hq|]. split; [|split; [|split]].
    + intros q. destruct (Hq q) as (_ & _ & _ & _ & Hd). rewrite Hd.
      destruct q; reflexivity.
    + intros px py. apply (@quadrants_cover n ns px py Hq Hc).
    + intros q q' a c. apply quadrants_overlap, Hq.
    + intros Hw q px py. apply (@quadrants_within n ns q px py Hq Hw).
Qed.

Lemma every_node_ok n : geo n -> tidy n -> firm n -> every_node node_ok n.
Proof.
  induction n as [n E|n ns E H1 H2 H3 H4] using node_induction; intros Hg Ht Hf;
    rewrite every_node_eq, E; (split; [apply node_ok_of; assumption|]); auto.
  pose proof (fun q => @geo_kid n ns q Hg E) as Hk.
  pose proof (fun q => @firm_kid n ns q Hf E) as Hfk.
  rewrite tidy_eq, E in Ht. destruct Ht as (_ & T1 & T2 & T3 & T4).
  repeat split;
    [apply H1; [apply (Hk TOP_LEFT)| |apply (Hfk TOP_LEFT)]
    |apply H2; [apply (Hk TOP_RIGHT)| |apply (Hfk TOP_RIGHT)]
    |apply H3; [apply (Hk BOTTOM_LEFT)| |apply (Hfk BOTTOM_LEFT)]
    |apply H4; [apply (Hk BOTTOM_RIGHT)| |apply (Hfk BOTTOM_RIGHT)]];
    assumption.
Qed.

(** C7, as stated, fails in binary64.  On the whole plane the cuts of the
    split are not numbers: the root has children, and the point (1,1) of its
    rectangle is in none of them.  On the rectangle from [-2^1023] to
    [2^1023] the width overflows and the vertical cut is at plus infinity,
    not at the midpoint: the top left child contains a point to the right of
    the root rectangle. *)
Lemma C7_counterexample :
  (quadtree (Options.mk (Some neg_infinity) (Some neg_infinity)
                        (Some infinity) (Some infinity)
                        (Some 2%Z) (Some 4%Z) (Some false))
   = Normal (plane 2 4 false) /\
   exists ns,
     Node.nodes (tree (inserts (plane 2 4 false)
                               [One (pt 1 1 0); One (pt 2 2 1); One (pt 3 3 2)])) = Some ns /\
     Node.containsPoint (tree (inserts (plane 2 4 false)
                                 [One (pt 1 1 0); One (pt 2 2 1); One (pt 3 3 2)]))
                        (Some 1) (Some 1) = true /\
     forall q, Node.containsPoint (Node.get q ns) (Some 1) (Some 1) = false) /\
  (quadtree (Options.mk (Some 0) (Some (- 0x1p1023)) (Some 100) (Some 0x1p1023)
                        (Some 1%Z) (Some 4%Z) (Some false))
   = Normal (huge 1 4 false) /\
   exists ns,
     Node.nodes (tree (inserts (huge 1 4 false) [One (pt 1 1 0); One (pt 1 60 1)]))
     = Some ns /\
     Node.right (Node.tl ns) = infinity /\
     Node.containsPoint (Node.tl ns) (Some 0x1.8p1023) (Some 1) = true /\
     Node.containsPoint (tree (inserts (huge 1 4 false) [One (pt 1 1 0); One (pt 1 60 1)]))
                        (Some 0x1.8p1023) (Some 1) = false).
Proof.
  split; (split; [reflexivity|]); eexists; (split; [vm_compute; reflexivity|]).
  - split; [vm_compute; reflexivity|]. intros q. destruct q; vm_compute; reflexivity.
  - repeat split; vm_compute; reflexivity.
Qed.

(** C7, amended: when the top left corner of the root rectangle is finite,
    every node of every reachable index satisfies the invariant: a node
    with children has an empty item list and exactly the four quadrants as
    children, cut at the coordinates [left + (right - left) / 2] and
    [top + (bottom - top) / 2] as binary64 computes them, one level deeper,
    covering its rectangle with no gap and no overlap except on the cuts,
    and lying within it if the cuts do; a node with items has no children.
    Every call keeps the invariant.  Whatever the root rectangle, an
    [insert], with the splits it makes, keeps every node's rectangle and
    depth and never removes children or puts items back into a node that
    has children, so a node is split at most once and for good; a query
    changes nothing. *)
Theorem C7_node_invariant (st : State) :
  reachable st ->
  (finite_origin (opts st) = true ->
   every_node node_ok (tree st) /\
   (forall c, every_node node_ok (tree (fst (step st c))))) /\
  (forall item, grows (tree st) (tree (fst (_insert st item)))) /\
  (forall c, is_query c = true -> fst (step st c) = st).
Proof.
  intros Hr. destruct (reachable_Inv Hr) as [k HI].
  split; [|split].
  - intros Hf. destruct (inv_full HI Hf) as (Ht & Hfirm & _). split.
    + apply every_node_ok; [exact (inv_geo HI) | exact Ht | exact Hfirm].
    + intros c. destruct (step_Inv c HI) as [[k' HI'] Ho].
      rewrite <- Ho in Hf. destruct (inv_full HI' Hf) as (Ht' & Hfirm' & _).
      apply every_node_ok; [exact (inv_geo HI') | exact Ht' | exact Hfirm'].
  - intros item. apply (_insert_spec item HI).
  - intros [a| | | |]; simpl; intros H; try reflexivity; discriminate.
Qed.

Lemma C7_witness :
  reachable (fst (run (index100 1 4 true)
                      [Insert (One (pt 0 0 0)); Insert (One (pt 100 100 1));
                       Insert (One (pt 50 50 2))])) /\
  every_node node_ok
    (tree (fst (run (index100 1 4 true)
                    [Insert (One (pt 0 0 0)); Insert (One (pt 100 100 1));
                     Insert (One (pt 50 50 2))]))).
Proof.
  assert (R : reachable (fst (run (index100 1 4 true)
                      [Insert (One (pt 0 0 0)); Insert (One (pt 100 100 1));
                       Insert (One (pt 50 50 2))]))).
  { exists (options100 (Some 1%Z) (Some 4%Z) (Some true)), (index100 1 4 true),
      [Insert (One (pt 0 0 0)); Insert (One (pt 100 100 1)); Insert (One (pt 50 50 2))].
    split; reflexivity. }
  split; [exact R|]. destruct (C7_node_invariant R) as [H _].
  destruct (H eq_refl) as [H1 _]. exact H1.
Defined.

(** *** Routing to a leaf at the depth cap *)

Lemma leaf_at_eq n px py :
  leaf_at n px py =
  if negb (Node.containsPoint n px py) then None
  else
    match Node.nodes n with
    | None => Some n
    | Some ns =>
        match leaf_at (Node.tl ns) px py with
        | Some l => Some l
        | None =>
            match leaf_at (Node.tr ns) px py with
            | Some l => Some l
            | None =>
                match leaf_at (Node.bl ns) px py with
                | Some l => Some l
                | None => leaf_at (Node.br ns) px py
                end
            end
        end
    end.
Proof. destruct n; reflexivity. Qed.

Lemma node_count_eq n :
  node_count n =
  match Node.nodes n with
  | None => 1%nat
  | Some ns => S (node_count (Node.tl ns) + node_count (Node.tr ns)
                  + node_count (Node.bl ns) + node_count (Node.br ns))
  end.
Proof. destruct n; reflexivity. Qed.

Lemma leaf_at_miss n px py :
  Node.containsPoint n px py = false -> leaf_at n px py = None.
Proof. intros H. rewrite leaf_at_eq, H. reflexivity. Qed.

Lemma first_hit_eq ns px py :
  first_hit ns px py =
  if Node.containsPoint (Node.tl ns) px py then Some TOP_LEFT
  else if Node.containsPoint (Node.tr ns) px py then Some TOP_RIGHT
  else if Node.containsPoint (Node.bl ns) px py then Some BOTTOM_LEFT
  else if Node.containsPoint (Node.br ns) px py then Some BOTTOM_RIGHT
  else None.
Proof. reflexivity. Qed.

(** Under a finite top left corner every point of the rectangle of a node
    is routed to a leaf. *)
Lemma leaf_at_some n px py :
  geo n -> finite_corner n = true -> Node.containsPoint n px py = true ->
  exists lf, leaf_at n px py = Some lf.
Proof.
  induction n as [n E|n ns E H1 H2 H3 H4] using node_induction; intros Hg Hf Hc;
    rewrite leaf_at_eq, Hc, E; cbn [negb]; [eauto|].
  pose proof (@geo_quadrants n ns Hg E) as Hq.
  destruct (@quadrants_cover n ns px py Hq Hf Hc) as [q0 Hq0].
  pose proof (fun q => @geo_kid n ns q Hg E) as Hk.
  pose proof (fun q => @first_hit_finite n ns px py q Hq Hf Hc) as Hfin.
  rewrite first_hit_eq in Hfin.
  destruct (Node.containsPoint (Node.tl ns) px py) eqn:C1.
  { destruct (H1 (Hk TOP_LEFT) (Hfin TOP_LEFT eq_refl) eq_refl) as [l ->]. eauto. }
  rewrite (leaf_at_miss _ _ _ C1).
  destruct (Node.containsPoint (Node.tr ns) px py) eqn:C2.
  { destruct (H2 (Hk TOP_RIGHT) (Hfin TOP_RIGHT eq_refl) eq_refl) as [l ->]. eauto. }
  rewrite (leaf_at_miss _ _ _ C2).
  destruct (Node.containsPoint (Node.bl ns) px py) eqn:C3.
  { destruct (H3 (Hk BOTTOM_LEFT) (Hfin BOTTOM_LEFT eq_refl) eq_refl) as [l ->]. eauto. }
  rewrite (leaf_at_miss _ _ _ C3).
  destruct (Node.containsPoint (Node.br ns) px py) eqn:C4.
  { destruct (H4 (Hk BOTTOM_RIGHT) (Hfin BOTTOM_RIGHT eq_refl) eq_refl) as [l ->]. eauto. }
  destruct q0; simpl in Hq0; congruence.
Qed.

Section Capped.
Variable o : Opts.t.

Lemma lands_leaf n it :
  Node.nodes n = None ->
  Node.containsPoint n (x it) (y it) = true ->
  (Opts.max_depth o <= Node.depth n)%Z ->
  lands o n it n.
Proof.
  intros En Hc Hd. pose proof (insert_unfold o n it) as E.
  unfold Node.insert_body in E. rewrite Hc, En in E. cbn [negb] in E.
  apply Z.leb_le in Hd. rewrite Hd, orb_true_r in E. injection E as E.
  unfold lands. rewrite <- E. cbn [fst snd].
  split; [reflexivity|]. split.
  - rewrite leaf_at_eq. nsimpl.
    rewrite (@containsPoint_box _ n _ _ (same_box_set_items n _)), Hc, En. reflexivity.
  - rewrite !node_count_eq. nsimpl. rewrite En. reflexivity.
Qed.

Lemma lands_interior n ns it lf :
  geo n -> Node.nodes n = Some ns ->
  (forall q l, leaf_at (Node.get q ns) (x it) (y it) = Some l ->
               (Opts.max_depth o <= Node.depth l)%Z -> lands o (Node.get q ns) it l) ->
  leaf_at n (x it) (y it) = Some lf ->
  (Opts.max_depth o <= Node.depth lf)%Z ->
  lands o n it lf.
Proof.
  intros Hg En IH Hl Hd.
  rewrite leaf_at_eq, En in Hl.
  destruct (Node.containsPoint n (x it) (y it)) eqn:Hc; [|discriminate].
  cbn [negb] in Hl.
  pose proof (insert_unfold o n it) as E.
  unfold Node.insert_body in E. rewrite Hc, En in E. cbn [negb] in E.
  pose proof (fun q => @geo_kid n ns q Hg En) as Hk.
  pose proof (@geo_quadrants n ns Hg En) as Hq.
  assert (Hsome : forall q, first_hit ns (x it) (y it) = Some q ->
                            exists l, leaf_at (Node.get q ns) (x it) (y it) = Some l).
  { intros q Hfh. pose proof (@first_hit_hits ns _ _ q Hfh) as Hh.
    destruct (finite_corner n) eqn:Hf.
    - apply leaf_at_some; [apply Hk | | exact Hh].
      apply (@first_hit_finite n ns _ _ q Hq Hf Hc Hfh).
    - rewrite (@quadrants_dead n ns q _ _ Hq Hf) in Hh. discriminate. }
  rewrite first_hit_eq in Hsome.
  assert (Hbox : forall ns', Node.containsPoint (Node.set_nodes n (Some ns')) (x it) (y it)
                             = true).
  { intros ns'. rewrite (@containsPoint_box _ n _ _ (same_box_set_nodes n _)). exact Hc. }
  unfold lands.
  destruct (Node.containsPoint (Node.tl ns) (x it) (y it)) eqn:C1.
  { destruct (Hsome TOP_LEFT eq_refl) as [l1 L1]. cbn [Node.get] in L1.
    rewrite L1 in Hl. injection Hl as ->. destruct (IH TOP_LEFT lf L1 Hd) as (A1 & A2 & A3).
    simpl in E, A1, A2, A3. destruct (Node.insert o (Node.tl ns) it) as [k' c'].
    simpl in A1, A2, A3. subst c'. injection E as E. rewrite <- E. cbn [fst snd].
    split; [reflexivity|]. split.
    - rewrite leaf_at_eq, Hbox. nsimpl. cbn [negb Node.set Node.tl]. rewrite A2. reflexivity.
    - rewrite (node_count_eq n), En, node_count_eq. nsimpl.
      cbn [Node.set Node.tl Node.tr Node.bl Node.br]. lia. }
  pose proof (leaf_at_miss _ _ _ C1) as L1. rewrite L1 in Hl.
  pose proof (@insert_reject o (Node.tl ns) it C1) as R1. simpl in E. rewrite R1 in E.
  destruct (Node.containsPoint (Node.tr ns) (x it) (y it)) eqn:C2.
  { destruct (Hsome TOP_RIGHT eq_refl) as [l2 L2]. cbn [Node.get] in L2.
    rewrite L2 in Hl. injection Hl as ->. destruct (IH TOP_RIGHT lf L2 Hd) as (A1 & A2 & A3).
    simpl in E, A1, A2, A3. destruct (Node.insert o (Node.tr ns) it) as [k' c'].
    simpl in A1, A2, A3. subst c'. injection E as E. rewrite <- E. cbn [fst snd].
    split; [reflexivity|]. split.
    - rewrite leaf_at_eq, Hbox. nsimpl. cbn [negb Node.set Node.tl Node.tr].
      rewrite L1, A2. reflexivity.
    - rewrite (node_count_eq n), En, node_count_eq. nsimpl.
      cbn [Node.set Node.tl Node.tr Node.bl Node.br]. lia. }
  pose proof (leaf_at_miss _ _ _ C2) as L2. rewrite L2 in Hl.
  pose proof (@insert_reject o (Node.tr ns) it C2) as R2. simpl in E. rewrite R2 in E.
  destruct (Node.containsPoint (Node.bl ns) (x it) (y it)) eqn:C3.
  { destruct (Hsome BOTTOM_LEFT eq_refl) as [l3 L3]. cbn [Node.get] in L3.
    rewrite L3 in Hl. injection Hl as ->.
    destruct (IH BOTTOM_LEFT lf L3 Hd) as (A1 & A2 & A3).
    simpl in E, A1, A2, A3. destruct (Node.insert o (Node.bl ns) it) as [k' c'].
    simpl in A1, A2, A3. subst c'. injection E as E. rewrite <- E. cbn [fst snd].
    split; [reflexivity|]. split.
    - rewrite leaf_at_eq, Hbox. nsimpl. cbn [negb Node.set Node.tl Node.tr Node.bl].
      rewrite L1, L2, A2. reflexivity.
    - rewrite (node_count_eq n), En, node_count_eq. nsimpl.
      cbn [Node.set Node.tl Node.tr Node.bl Node.br]. lia. }
  pose proof (leaf_at_miss _ _ _ C3) as L3. rewrite L3 in Hl.
  pose proof (@insert_reject o (Node.bl ns) it C3) as R3. simpl in E. rewrite R3 in E.
  destruct (IH BOTTOM_RIGHT lf Hl Hd) as (A1 & A2 & A3).
  simpl in E, A1, A2, A3. destruct (Node.insert o (Node.br ns) it) as [k' c'].
  simpl in A1, A2, A3. subst c'. injection E as E. rewrite <- E. cbn [fst snd].
  split; [reflexivity|]. split.
  - rewrite leaf_at_eq, Hbox. nsimpl. cbn [negb Node.set Node.tl Node.tr Node.bl Node.br].
    rewrite L1, L2, L3, A2. reflexivity.
  - rewrite (node_count_eq n), En, node_count_eq. nsimpl.
    cbn [Node.set Node.tl Node.tr Node.bl Node.br]. lia.
Qed.

Lemma insert_lands n it : forall lf,
  geo n -> leaf_at n (x it) (y it) = Some lf ->
  (Opts.max_depth o <= Node.depth lf)%Z ->
  lands o n it lf.
Proof.
  induction n as [n E|n ns E H1 H2 H3 H4] using node_induction; intros lf Hg Hl Hd.
  - rewrite leaf_at_eq, E in Hl.
    destruct (Node.containsPoint n (x it) (y it)) eqn:Hc; [|discriminate].
    injection Hl as <-. apply lands_leaf; assumption.
  - apply (@lands_interior n ns); try assumption.
    intros q l Hq Hdl. pose proof (@geo_kid n ns q Hg E) as Hk.
    destruct q; simpl in *; auto.
Qed.
End Capped.

Lemma offer_all_app o items1 : forall t k items2,
  offer_all o t k (items1 ++ items2)
  = offer_all o (offer_all o t k items1) (k + length items1) items2.
Proof.
  induction items1 as [|it items1 IH]; intros t k items2; simpl.
  - rewrite Nat.add_0_r. reflexivity.
  - rewrite IH. f_equal. lia.
Qed.

Lemma offer_all_lands o px py items : forall t k lf,
  geo t -> leaf_at t px py = Some lf ->
  (Opts.max_depth o <= Node.depth lf)%Z ->
  all_at px py items ->
  leaf_at (offer_all o t k items) px py
  = Some (Node.set_items lf (Node.items lf ++ wrapped_at px py k (length items)))
  /\ node_count (offer_all o t k items) = node_count t.
Proof.
  unfold wrapped_at.
  induction items as [|it items IH]; intros t k lf Hg Hl Hd Hall; simpl.
  - rewrite app_nil_r. split; [|reflexivity]. rewrite Hl. destruct lf; reflexivity.
  - inversion Hall as [|? ? [Ex Ey] Hrest]; subst.
    set (w := itemToIndex it k).
    assert (Hl' : leaf_at t (x w) (y w) = Some lf) by exact Hl.
    destruct (@insert_lands o t w lf Hg Hl' Hd) as (_ & A2 & A3).
    destruct (@insert_sane o t w Hg) as (Hg1 & _).
    destruct (IH (fst (Node.insert o t w)) (S k) _ Hg1 A2 Hd Hrest) as (B1 & B2).
    split; [|congruence].
    rewrite B1. nsimpl. rewrite <- app_assoc. reflexivity.
Qed.

(** An item routed to a leaf at the depth cap is stored and indexed, and
    the call ends normally, whatever the root rectangle. *)
Lemma push_and_insert_lands k st cur lf :
  Inv k st ->
  leaf_at (tree st) (item_x cur) (item_y cur) = Some lf ->
  (Opts.max_depth (opts st) <= Node.depth lf)%Z ->
  push_and_insert st cur (length (allItems st)) =
  ({| opts := opts st;
      tree := fst (Node.insert (opts st) (tree st)
                     (itemToIndex cur (length (allItems st))));
      allItems := allItems st ++ [cur] |}, Normal tt).
Proof.
  intros HI Hl Hd. unfold push_and_insert.
  destruct (@insert_lands (opts st) (tree st) (itemToIndex cur (length (allItems st))) lf
              (inv_geo HI) Hl Hd) as (Hc & _).
  destruct (Node.insert (opts st) (tree st) _) as [tree' res].
  cbn [fst snd] in *. subst res. cbn [negb]. rewrite andb_false_r. reflexivity.
Qed.

Lemma insert_loop_lands k px py rest : forall st tlb i lf,
  Inv k st -> (tlb + i = length (allItems st))%nat ->
  leaf_at (tree st) px py = Some lf ->
  (Opts.max_depth (opts st) <= Node.depth lf)%Z ->
  all_at px py rest ->
  insert_loop st tlb i rest =
  ({| opts := opts st;
      tree := offer_all (opts st) (tree st) (length (allItems st)) rest;
      allItems := allItems st ++ rest |}, Normal tt).
Proof.
  induction rest as [|cur rest IH]; intros st tlb i lf HI Hlen Hl Hd Hall; simpl.
  - rewrite app_nil_r. destruct st; reflexivity.
  - inversion Hall as [|? ? [Ex Ey] Hrest]; subst.
    rewrite Hlen, (push_and_insert_lands cur HI Hl Hd).
    destruct (push_and_insert_spec cur HI) as (HI1 & _).
    rewrite (push_and_insert_lands cur HI Hl Hd) in HI1. cbn [fst] in HI1.
    destruct (@insert_lands (opts st) (tree st) (itemToIndex cur (length (allItems st))) lf
                (inv_geo HI) Hl Hd) as (_ & A2 & _).
    rewrite (IH _ tlb (S i)
               (Node.set_items lf
                  (Node.items lf ++ [itemToIndex cur (length (allItems st))])) HI1);
      [| cbn [allItems]; rewrite length_app; simpl; lia | exact A2 | exact Hd | exact Hrest].
    cbn [opts tree allItems]. rewrite length_app, Nat.add_1_r, <- app_assoc. reflexivity.
Qed.

Lemma leaf_at_valid k st px py lf it :
  Inv k st -> leaf_at (tree st) px py = Some lf ->
  item_x it = px -> item_y it = py -> lacks_xy it = false.
Proof.
  intros HI Hl Ex Ey. apply (@in_root_valid (opts st)).
  unfold in_root, in_bounds. rewrite Ex, Ey, <- (containsPoint_root _ _ (inv_box HI)).
  rewrite leaf_at_eq in Hl.
  destruct (Node.containsPoint (tree st) px py); [reflexivity | discriminate].
Qed.

Lemma insert_offer_all k st a px py lf :
  Inv k st ->
  leaf_at (tree st) px py = Some lf ->
  (Opts.max_depth (opts st) <= Node.depth lf)%Z ->
  all_at px py (items_of a) ->
  _insert st a =
  ({| opts := opts st;
      tree := offer_all (opts st) (tree st) (length (allItems st)) (items_of a);
      allItems := allItems st ++ items_of a |}, Normal tt).
Proof.
  intros HI Hl Hd Hall. destruct a as [item|[|first rest]]; unfold _insert, items_of in *.
  - inversion Hall as [|? ? [Ex Ey] _]; subst.
    rewrite (checkIsValid_valid _ _ (@leaf_at_valid k st _ _ lf item HI Hl eq_refl eq_refl)).
    rewrite length_app, Nat.add_sub, (push_and_insert_lands item HI Hl Hd). reflexivity.
  - simpl. rewrite app_nil_r. destruct st; reflexivity.
  - inversion Hall as [|? ? [Ex Ey] _]; subst.
    rewrite (checkIsValid_valid _ _ (@leaf_at_valid k st _ _ lf first HI Hl eq_refl eq_refl)).
    apply (@insert_loop_lands k (item_x first) (item_y first) (first :: rest) st
             (length (allItems st)) 0 lf HI); auto.
Qed.

Lemma inserts_offer_all k px py calls : forall st lf,
  Inv k st ->
  leaf_at (tree st) px py = Some lf ->
  (Opts.max_depth (opts st) <= Node.depth lf)%Z ->
  all_at px py (flat_map items_of calls) ->
  tree (inserts st calls)
  = offer_all (opts st) (tree st) (length (allItems st)) (flat_map items_of calls).
Proof.
  induction calls as [|a calls IH]; intros st lf HI Hl Hd Hall; [reflexivity|].
  simpl in Hall. unfold all_at in Hall. apply Forall_app in Hall. destruct Hall as [H1 H2].
  pose proof (@insert_offer_all k st a px py lf HI Hl Hd H1) as Ea.
  destruct (_insert_spec a HI) as (HI1 & Ho & _).
  destruct (@offer_all_lands (opts st) px py (items_of a) (tree st) (length (allItems st)) lf
              (inv_geo HI) Hl Hd H1) as [Hl1 _].
  rewrite inserts_cons. rewrite Ea in HI1, Ho |- *. cbn [fst opts tree allItems] in *.
  rewrite (IH _ _ HI1 Hl1 Hd H2).
  cbn [opts tree allItems flat_map]. rewrite offer_all_app, length_app. reflexivity.
Qed.

(** C6, as stated, fails for a configured [max_depth] of 0: the zero is
    replaced by 4 and nodes deeper than 0 are created. *)
Lemma C6_counterexample :
  quadtree (options100 (Some 1%Z) (Some 0%Z) None) = Normal (index100 1 4 false) /\
  depth_leb 0 (tree (inserts (index100 1 4 false)
                             [One (pt 10 10 0); One (pt 10 10 1); One (pt 10 10 2)]))
  = false.
Proof. split; [reflexivity | vm_compute; reflexivity]. Qed.

(** C6, amended: let [D] be the effective [max_depth], that is the
    configured value, or 4 when none or 0 was configured, and let it be
    non-negative.  Then no sequence of calls ever creates a node deeper
    than [D]; and once the leaf a point is routed to is at depth [D], all
    further items with these coordinates accumulate in the item list of
    that single leaf, in order, and no node is created. *)
Theorem C6_depth_cap
  (options : Options.t) (st0 : State) (calls : list op) :
  quadtree options = Normal st0 ->
  (0 <= or_number (Options.max_depth options) 4)%Z ->
  let D := or_number (Options.max_depth options) 4 in
  let st := fst (run st0 calls) in
  Opts.max_depth (opts st) = D /\
  depth_leb D (tree st) = true /\
  forall px py lf more,
    leaf_at (tree st) px py = Some lf ->
    (D <= Node.depth lf)%Z ->
    all_at px py (flat_map items_of more) ->
    leaf_at (tree (inserts st more)) px py
    = Some (Node.set_items lf
              (Node.items lf ++
               wrapped_at px py (length (allItems st)) (length (flat_map items_of more))))
    /\ node_count (tree (inserts st more)) = node_count (tree st).
Proof.
  intros E HD D st.
  destruct (run_Inv calls (quadtree_Inv _ E)) as [[k HI] Ho]. fold st in HI, Ho.
  assert (Hmd : Opts.max_depth (opts st) = D).
  { rewrite Ho. unfold quadtree, init in E.
    destruct (Options.top options), (Options.left options),
      (Options.bottom options), (Options.right options); try discriminate.
    injection E as <-. reflexivity. }
  split; [exact Hmd|]. split.
  - rewrite <- Hmd. apply (inv_depth HI). rewrite Hmd. exact HD.
  - intros px py lf more Hl Hd Hall. rewrite <- Hmd in Hd.
    rewrite (@inserts_offer_all k px py more st lf HI Hl Hd Hall).
    apply offer_all_lands; [exact (inv_geo HI) | exact Hl | exact Hd | exact Hall].
Qed.

Lemma C6_witness :
  quadtree (options100 (Some 1%Z) (Some 2%Z) None) = Normal (index100 1 2 false) /\
  (0 <= or_number (Options.max_depth (options100 (Some 1%Z) (Some 2%Z) None)) 4)%Z /\
  leaf_at (tree (fst (run (index100 1 2 false)
                          [Insert (One (pt 10 10 0)); Insert (One (pt 10 10 1));
                           Insert (One (pt 10 10 2))])))
          (Some 10) (Some 10) = Some capped_leaf /\
  (or_number (Options.max_depth (options100 (Some 1%Z) (Some 2%Z) None)) 4
   <= Node.depth capped_leaf)%Z /\
  all_at (Some 10) (Some 10)
         (flat_map items_of [Many [pt 10 10 3; pt 10 10 4]; One (pt 10 10 5)]) /\
  depth_leb 2 (tree (fst (run (index100 1 2 false)
                              [Insert (One (pt 10 10 0)); Insert (One (pt 10 10 1));
                               Insert (One (pt 10 10 2))]))) = true /\
  node_count (tree (inserts (fst (run (index100 1 2 false)
                                      [Insert (One (pt 10 10 0)); Insert (One (pt 10 10 1));
                                       Insert (One (pt 10 10 2))]))
                            [Many [pt 10 10 3; pt 10 10 4]; One (pt 10 10 5)]))
  = node_count (tree (fst (run (index100 1 2 false)
                               [Insert (One (pt 10 10 0)); Insert (One (pt 10 10 1));
                                Insert (One (pt 10 10 2))]))).
Proof.
  assert (E : quadtree (options100 (Some 1%Z) (Some 2%Z) None)
              = Normal (index100 1 2 false)) by reflexivity.
  assert (HD : (0 <= or_number (Options.max_depth (options100 (Some 1%Z) (Some 2%Z) None))
                               4)%Z) by (simpl; lia).
  assert (Hall : all_at (Some 10) (Some 10)
                   (flat_map items_of [Many [pt 10 10 3; pt 10 10 4]; One (pt 10 10 5)]))
    by (repeat constructor).
  split; [exact E|]. split; [exact HD|]. split; [vm_compute; reflexivity|].
  split; [simpl; lia|]. split; [exact Hall|].
  destruct (@C6_depth_cap (options100 (Some 1%Z) (Some 2%Z) None) (index100 1 2 false)
              [Insert (One (pt 10 10 0)); Insert (One (pt 10 10 1));
               Insert (One (pt 10 10 2))] E HD) as (_ & Hdepth & Hleaf).
  split; [exact Hdepth|].
  destruct (Hleaf (Some 10) (Some 10) capped_leaf
                  [Many [pt 10 10 3; pt 10 10 4]; One (pt 10 10 5)]) as [_ Hcount].
  - vm_compute. reflexivity.
  - simpl. lia.
  - exact Hall.
  - exact Hcount.
Defined.

(** ** Further properties of the code *)

(** *** The backing store and the configuration *)

Lemma push_and_insert_store st cur index :
  allItems (fst (push_and_insert st cur index)) = allItems st ++ [cur].
Proof.
  unfold push_and_insert.
  destruct (Node.insert (opts st) (tree st) (itemToIndex cur index)) as [tree' [res|e]];
    [destruct (Opts.debug_mode (opts st) && negb res)|]; reflexivity.
Qed.

Lemma insert_loop_store rest : forall st tlb i,
  exists d d', rest = d ++ d' /\
               allItems (fst (insert_loop st tlb i rest)) = allItems st ++ d.
Proof.
  induction rest as [|cur rest IH]; intros st tlb i; simpl.
  - exists [], []. split; [reflexivity | rewrite app_nil_r; reflexivity].
  - pose proof (push_and_insert_store st cur (tlb + i)) as E.
    destruct (push_and_insert st cur (tlb + i)) as [st' [u|e]]; simpl in E.
    + destruct (IH st' tlb (S i)) as (d & d' & -> & Ea).
      exists (cur :: d), d'. split; [reflexivity|].
      rewrite Ea, E, <- app_assoc. reflexivity.
    + exists [cur], rest. auto.
Qed.

Lemma _insert_store st a :
  exists d d', items_of a = d ++ d' /\
               allItems (fst (_insert st a)) = allItems st ++ d.
Proof.
  destruct a as [item|[|first rest]]; unfold _insert, items_of.
  - destruct (checkIsValid (opts st) item) as [[|]|e].
    + exists [item], []. split; [reflexivity | apply push_and_insert_store].
    + exists [], [item]. split; [reflexivity | rewrite app_nil_r; reflexivity].
    + exists [], [item]. split; [reflexivity | rewrite app_nil_r; reflexivity].
  - exists [], []. split; [reflexivity | simpl; rewrite app_nil_r; reflexivity].
  - destruct (checkIsValid (opts st) first) as [[|]|e].
    + apply insert_loop_store.
    + exists [], (first :: rest). split; [reflexivity | rewrite app_nil_r; reflexivity].
    + exists [], (first :: rest). split; [reflexivity | rewrite app_nil_r; reflexivity].
Qed.

Lemma _clear_store st : allItems (fst (_clear st)) = allItems st.
Proof. unfold _clear. destruct (init _) as [[o t]|e]; reflexivity. Qed.

(** X1: the backing store is append-only.  A call of [insert] appends a
    prefix of the items it was given, in their order, and nothing else;
    [clear] leaves the store as it is; so no sequence of calls ever removes
    or moves a stored item, and an item keeps its position for good. *)
Theorem X1_backing_store_is_append_only (st : State) :
  (forall a, exists d d', items_of a = d ++ d' /\
                          allItems (fst (_insert st a)) = allItems st ++ d) /\
  allItems (fst (_clear st)) = allItems st /\
  (forall calls, exists d, allItems (fst (run st calls)) = allItems st ++ d) /\
  (forall calls j it, nth_error (allItems st) j = Some it ->
                      nth_error (allItems (fst (run st calls))) j = Some it).
Proof.
  assert (R : forall calls s, exists d, allItems (fst (run s calls)) = allItems s ++ d).
  { induction calls as [|c rest IH]; intros s.
    - exists []. simpl. rewrite app_nil_r. reflexivity.
    - rewrite run_cons. cbn [fst].
      destruct (IH (fst (step s c))) as [d Ed]. rewrite Ed.
      destruct c as [a| | | |]; unfold step; cbn [fst]; eauto.
      destruct (_insert_store s a) as (d1 & _ & _ & E1).
        destruct (_insert s a) as [s' r]. cbn [fst] in *. rewrite E1, <- app_assoc. eauto. }
  split; [intros a; apply _insert_store|]. split; [apply _clear_store|].
  split; [intros calls; apply R|].
  intros calls j it E. destruct (R calls st) as [d ->].
  rewrite nth_error_app1; [exact E|]. apply nth_error_Some. congruence.
Qed.

(** X2: the configuration of a reachable index never changes: after any
    sequence of calls, [clear] included, [opts] is what it was. *)
Theorem X2_configuration_is_immutable (st : State) (calls : list op) :
  reachable st -> opts (fst (run st calls)) = opts st.
Proof.
  intros Hr. destruct (reachable_Inv Hr) as [k HI]. apply (run_Inv calls HI).
Qed.

Lemma X2_witness :
  reachable (index100 3 5 true) /\
  opts (fst (run (index100 3 5 true)
                 [Insert (One (pt 1 1 0)); Clear; Insert (Many [pt 2 2 1; pt 300 1 2])]))
  = opts (index100 3 5 true).
Proof.
  split; [apply reachable_index100; discriminate|].
  apply X2_configuration_is_immutable. apply reachable_index100; discriminate.
Defined.

(** X3: construction fails, with the error of [init], exactly when one of
    the four bounds is absent; otherwise it gives an index with an empty
    backing store whose tree is a single empty leaf at depth 0 over the
    given rectangle, and whose [max_per_cell] and [max_depth] are not 0. *)
Theorem X3_construction (options : Options.t) :
  (quadtree options = Abrupt NotEnoughInitOptions <->
   Options.top options = None \/ Options.left options = None \/
   Options.bottom options = None \/ Options.right options = None) /\
  (forall e, quadtree options = Abrupt e -> e = NotEnoughInitOptions) /\
  (forall st, quadtree options = Normal st ->
     allItems st = [] /\ root_box st /\ normal_opts (opts st) /\
     Node.items (tree st) = [] /\ Node.nodes (tree st) = None /\
     Options.top options = Some (Opts.top (opts st)) /\
     Options.left options = Some (Opts.left (opts st)) /\
     Options.bottom options = Some (Opts.bottom (opts st)) /\
     Options.right options = Some (Opts.right (opts st))).
Proof.
  unfold quadtree, init.
  destruct (Options.top options) as [t|], (Options.left options) as [l|],
    (Options.bottom options) as [b|], (Options.right options) as [r|];
    (split; [split; [intros H; try discriminate H; auto
                    | intros [H|[H|[H|H]]]; try discriminate H; reflexivity]
            |split; [intros e H; try discriminate H; injection H as <-; reflexivity
                    |intros st H; try discriminate H]]).
  injection H as <-. cbn [allItems tree opts].
  split; [reflexivity|]. split; [apply same_box_refl|].
  split; [|repeat split].
  unfold normal_opts. simpl.
  destruct (Options.max_per_cell options) as [[| |]|],
    (Options.max_depth options) as [[| |]|]; simpl; split; discriminate.
Qed.

Lemma X3_witness :
  quadtree (options100 None None None) = Normal (index100 2 4 false) /\
  allItems (index100 2 4 false) = [] /\
  quadtree (Options.mk (Some 0) None (Some 1) (Some 1) None None None)
  = Abrupt NotEnoughInitOptions.
Proof.
  split; [reflexivity|].
  destruct (X3_construction (options100 None None None)) as (_ & _ & H).
  destruct (H (index100 2 4 false) eq_refl) as (E & _).
  split; [exact E|].
  apply (X3_construction (Options.mk (Some 0) None (Some 1) (Some 1) None None None)).
  right. left. reflexivity.
Defined.

Lemma queryRange_new t l b r t' l' b' r' d index :
  Node.queryRange (Node.new t' l' b' r' d) t l b r index = index.
Proof.
  rewrite queryRange_eq. destruct (negb _); reflexivity.
Qed.

(** X4: [clear] never raises, whatever the state, and right after it every
    query with numeric arguments, in each of the three forms, returns the
    empty sequence. *)
Theorem X4_clear_empties_the_index (st : State) :
  snd (_clear st) = Normal tt /\
  (forall t l b r,
     _queryRange (fst (_clear st)) (Num t) (Num l) (Num b) (Num r) = Normal []) /\
  (forall cx cy w h,
     _queryRangeByCenter (fst (_clear st)) (Num cx) (Num cy) (Num w) (Num h) = Normal []) /\
  (forall cx cy w h,
     _queryContainedBy (fst (_clear st)) (Some (Num cx, Num cy, Num w, Num h)) = Normal []).
Proof.
  unfold _clear, init, as_options.
  cbn [Options.top Options.left Options.bottom Options.right fst snd].
  split; [reflexivity|].
  unfold _queryRange, _queryRangeByCenter, _queryContainedBy. cbn [tree allItems].
  repeat split; intros; rewrite queryRange_new; reflexivity.
Qed.

(** *** Errors of [insert] *)

Lemma checkIsValid_abrupt o it e :
  checkIsValid o it = Abrupt e ->
  Opts.debug_mode o = true /\ e = InvalidItem it /\ lacks_xy it = true.
Proof.
  unfold checkIsValid. fold (lacks_xy it).
  destruct (lacks_xy it), (Opts.debug_mode o); try discriminate.
  intros H. injection H as <-. auto.
Qed.

Lemma insert_loop_errors k rest : forall st tlb i e,
  Inv k st -> (tlb + i = length (allItems st))%nat ->
  snd (insert_loop st tlb i rest) = Abrupt e ->
  Opts.debug_mode (opts st) = true /\
  exists it, In it rest /\
    ((e = ItemNotInserted it /\ in_root (opts st) it = false) \/
     (node_error (opts st) e /\ in_root (opts st) it = true /\
      finite_origin (opts st) = false)).
Proof.
  induction rest as [|cur rest IH]; intros st tlb i e HI Hlen He; [discriminate|].
  cbn [insert_loop] in He. rewrite Hlen in He.
  destruct (push_and_insert_spec cur HI) as (HI1 & Hf & _ & _ & Herr).
  destruct (push_and_insert st cur (length (allItems st))) as [st1 [u|e1]].
  - cbn [fst snd] in HI1, Hf.
    destruct (IH st1 tlb (S i) e HI1) as (Hd & it & Hin & H).
    + rewrite Hf. cbn [allItems]. rewrite length_app. simpl. lia.
    + exact He.
    + rewrite Hf in Hd, H. cbn [opts] in Hd, H.
      split; [exact Hd|]. exists it. split; [right; exact Hin | exact H].
  - cbn [snd] in He, Herr. injection He as ->.
    destruct (Herr e eq_refl) as [Hd H].
    split; [exact Hd|]. exists cur. split; [left; reflexivity | exact H].
Qed.

(** X5: on a reachable index, [insert] raises only in debug mode, and then
    one of three errors: "invalid item", for a single item or the first
    item of an array that lacks [x] or [y]; "item not inserted", for an
    item of the call whose point the root rectangle does not contain; or
    the error of [Node.insert] for a point that no child accepts, which
    occurs only for an item in the root rectangle when the top left corner
    of the root rectangle is not finite.  The error of [divide] never
    occurs. *)
Theorem X5_errors_of_insert (st : State) (a : insert_arg) (e : error) :
  reachable st ->
  snd (_insert st a) = Abrupt e ->
  Opts.debug_mode (opts st) = true /\
  ((exists it, e = InvalidItem it /\ lacks_xy it = true /\
               (a = One it \/ exists rest, a = Many (it :: rest))) \/
   (exists it, e = ItemNotInserted it /\ In it (items_of a) /\
               in_root (opts st) it = false) \/
   (exists it px py, e = ItemNotInsertedIntoAnyNode px py /\ In it (items_of a) /\
                     in_root (opts st) it = true /\ finite_origin (opts st) = false)).
Proof.
  intros Hr He. destruct (reachable_Inv Hr) as [k HI].
  assert (Hcase : forall it,
            (e = ItemNotInserted it /\ in_root (opts st) it = false) \/
            (node_error (opts st) e /\ in_root (opts st) it = true /\
             finite_origin (opts st) = false) ->
            In it (items_of a) ->
            (exists it, e = InvalidItem it /\ lacks_xy it = true /\
                        (a = One it \/ exists rest, a = Many (it :: rest))) \/
            (exists it, e = ItemNotInserted it /\ In it (items_of a) /\
                        in_root (opts st) it = false) \/
            (exists it px py, e = ItemNotInsertedIntoAnyNode px py /\ In it (items_of a) /\
                              in_root (opts st) it = true /\
                              finite_origin (opts st) = false)).
  { intros it [[-> Hout]|[[_ (px & py & ->)] [Hin Hf]]] Hit; right; [left|right]; eauto 8. }
  destruct a as [item|[|first rest]]; unfold _insert in He; cbn [items_of] in *.
  - destruct (checkIsValid (opts st) item) as [[|]|e'] eqn:Ev; cbn [snd] in He;
      try discriminate.
    + rewrite length_app, Nat.add_sub in He.
      destruct (push_and_insert_spec item HI) as (_ & _ & _ & _ & Herr).
      destruct (Herr e He) as [Hd H].
      split; [exact Hd|]. apply (Hcase item H). left. reflexivity.
    + injection He as ->. destruct (checkIsValid_abrupt _ _ Ev) as (Hd & -> & Hl).
      split; [exact Hd|]. left. exists item. auto.
  - discriminate.
  - destruct (checkIsValid (opts st) first) as [[|]|e'] eqn:Ev; cbn [snd] in He;
      try discriminate.
    + destruct (@insert_loop_errors k (first :: rest) st (length (allItems st)) 0 e HI)
        as (Hd & it & Hin & H);
        [lia | exact He |].
      split; [exact Hd|]. apply (Hcase it H Hin).
    + injection He as ->.
      destruct (checkIsValid_abrupt _ _ Ev) as (Hd & -> & Hl).
      split; [exact Hd|]. left. exists first. eauto.
Qed.

Lemma X5_witness :
  reachable (plane 2 4 true) /\
  snd (_insert (plane 2 4 true) (Many [pt 1 1 0; pt 2 2 1; pt 3 3 2]))
  = Abrupt (ItemNotInsertedIntoAnyNode (Some 1) (Some 1)) /\
  Opts.debug_mode (opts (plane 2 4 true)) = true /\
  ((exists it, ItemNotInsertedIntoAnyNode (Some 1) (Some 1) = InvalidItem it /\
               lacks_xy it = true /\
               (Many [pt 1 1 0; pt 2 2 1; pt 3 3 2] = One it \/
                exists rest, Many [pt 1 1 0; pt 2 2 1; pt 3 3 2] = Many (it :: rest))) \/
   (exists it, ItemNotInsertedIntoAnyNode (Some 1) (Some 1) = ItemNotInserted it /\
               In it (items_of (Many [pt 1 1 0; pt 2 2 1; pt 3 3 2])) /\
               in_root (opts (plane 2 4 true)) it = false) \/
   (exists it px py,
      ItemNotInsertedIntoAnyNode (Some 1) (Some 1) = ItemNotInsertedIntoAnyNode px py /\
      In it (items_of (Many [pt 1 1 0; pt 2 2 1; pt 3 3 2])) /\
      in_root (opts (plane 2 4 true)) it = true /\
      finite_origin (opts (plane 2 4 true)) = false)).
Proof.
  assert (R : reachable (plane 2 4 true)).
  { exists (Options.mk (Some neg_infinity) (Some neg_infinity) (Some infinity) (Some infinity)
                       (Some 2%Z) (Some 4%Z) (Some true)), (plane 2 4 true), [].
    split; reflexivity. }
  split; [exact R|]. split; [vm_compute; reflexivity|].
  apply (@X5_errors_of_insert (plane 2 4 true)
           (Many [pt 1 1 0; pt 2 2 1; pt 3 3 2])
           (ItemNotInsertedIntoAnyNode (Some 1) (Some 1)) R).
  vm_compute. reflexivity.
Defined.

(** X6: a single item that has both coordinates but whose point is outside
    the root rectangle is appended to the backing store and not indexed: the
    tree is left exactly as it was.  Debug mode then raises "item not
    inserted"; without debug mode the call ends normally. *)
Theorem X6_item_outside_root_is_stored_not_indexed (st : State) (item : Item) :
  reachable st ->
  lacks_xy item = false ->
  in_root (opts st) item = false ->
  _insert st (One item) =
  ({| opts := opts st; tree := tree st; allItems := allItems st ++ [item] |},
   if Opts.debug_mode (opts st) then Abrupt (ItemNotInserted item) else Normal tt).
Proof.
  intros Hr Hv Hroot. destruct (reachable_Inv Hr) as [k HI].
  unfold _insert. rewrite (checkIsValid_valid _ _ Hv).
  rewrite length_app, Nat.add_sub. unfold push_and_insert.
  rewrite insert_reject by (rewrite (containsPoint_root _ _ (inv_box HI)); exact Hroot).
  cbn [negb]. rewrite andb_true_r.
  destruct (Opts.debug_mode (opts st)); reflexivity.
Qed.

Lemma X6_witness :
  reachable (index100 2 4 true) /\
  lacks_xy (pt 101 50 0) = false /\
  in_root (opts (index100 2 4 true)) (pt 101 50 0) = false /\
  _insert (index100 2 4 true) (One (pt 101 50 0)) =
  ({| opts := opts (index100 2 4 true); tree := tree (index100 2 4 true);
      allItems := [pt 101 50 0] |},
   Abrupt (ItemNotInserted (pt 101 50 0))).
Proof.
  split; [apply reachable_index100; discriminate|].
  split; [reflexivity|]. split; [reflexivity|].
  apply (@X6_item_outside_root_is_stored_not_indexed (index100 2 4 true) (pt 101 50 0)).
  - apply reachable_index100; discriminate.
  - reflexivity.
  - reflexivity.
Defined.

(** *** Queries *)

(** X7: a query never raises without debug mode.  In debug mode each of the
    three query methods raises exactly when one of its arguments is not a
    number (or, for [queryContainedBy], when the object is missing), with
    the error of that method; without debug mode such a call returns the
    empty sequence. *)
Theorem X7_errors_of_queries (st : State) (a b c d : arg) :
  let dbg := Opts.debug_mode (opts st) in
  (forall e, _queryRange st a b c d = Abrupt e <->
             dbg = true /\ all_numeric a b c d = false /\
             e = InvalidArgumentsQueryRange) /\
  (forall e, _queryRangeByCenter st a b c d = Abrupt e <->
             dbg = true /\ all_numeric a b c d = false /\
             e = InvalidArgumentsQueryRangeCenter) /\
  (forall e, _queryContainedBy st (Some (a, b, c, d)) = Abrupt e <->
             dbg = true /\ all_numeric a b c d = false /\
             e = InvalidArgumentsQueryContainedBy) /\
  (forall e, _queryContainedBy st None = Abrupt e <->
             dbg = true /\ e = InvalidArgumentsQueryContainedBy) /\
  (dbg = false -> all_numeric a b c d = false ->
   _queryRange st a b c d = Normal [] /\
   _queryRangeByCenter st a b c d = Normal [] /\
   _queryContainedBy st (Some (a, b, c, d)) = Normal [] /\
   _queryContainedBy st None = Normal []).
Proof.
  unfold _queryRange, _queryRangeByCenter, _queryContainedBy, invalid_query, all_numeric.
  cbv zeta. destruct (Opts.debug_mode (opts st)); destruct a, b, c, d; simpl;
    repeat split; intros; try discriminate; try tauto;
    repeat match goal with
           | H : _ /\ _ |- _ => destruct H
           | H : Abrupt _ = Abrupt _ |- _ => injection H as <-
           end; subst; try reflexivity; try discriminate.
Qed.

Lemma X7_witness :
  Opts.debug_mode (opts (index100 2 4 false)) = false /\
  all_numeric (Num 0) NotNum (Num 1) (Num 1) = false /\
  _queryRange (index100 2 4 false) (Num 0) NotNum (Num 1) (Num 1) = Normal [] /\
  _queryRangeByCenter (index100 2 4 true) (Num 0) NotNum (Num 1) (Num 1)
  = Abrupt InvalidArgumentsQueryRangeCenter.
Proof.
  split; [reflexivity|]. split; [reflexivity|]. split.
  - destruct (X7_errors_of_queries (index100 2 4 false) (Num 0) NotNum (Num 1) (Num 1))
      as (_ & _ & _ & _ & H).
    apply (H eq_refl eq_refl).
  - destruct (X7_errors_of_queries (index100 2 4 true) (Num 0) NotNum (Num 1) (Num 1))
      as (_ & H & _).
    apply H. repeat split.
Defined.
(** X8: on an index over a root rectangle with a finite top left corner,
    after any sequence of calls, the three query forms return, in the order
    of the backing store and without any [undefined], exactly the items
    appended to the backing store since the last [clear] (or since
    construction) whose point lies in the root rectangle and in the query
    rectangle; for the two center forms this rectangle has the bounds
    [x - w / 2], [x + w / 2], [y - h / 2] and [y + h / 2] as binary64
    computes them, and [queryContainedBy] answers as [queryRangeByCenter]
    does. *)
Theorem X8_the_three_query_forms
  (options : Options.t) (st0 : State) (calls : list op) :
  quadtree options = Normal st0 ->
  finite_origin (opts st0) = true ->
  (forall t l b r,
     _queryRange (fst (run st0 calls)) (Num t) (Num l) (Num b) (Num r)
     = Normal (answer (opts st0) t l b r (live_items (opts st0) [] calls))) /\
  (forall cx cy w h,
     _queryRangeByCenter (fst (run st0 calls)) (Num cx) (Num cy) (Num w) (Num h)
     = Normal (answer (opts st0) (cy - h / 2) (cx - w / 2) (cy + h / 2) (cx + w / 2)
                      (live_items (opts st0) [] calls))) /\
  (forall cx cy w h,
     _queryContainedBy (fst (run st0 calls)) (Some (Num cx, Num cy, Num w, Num h))
     = _queryRangeByCenter (fst (run st0 calls)) (Num cx) (Num cy) (Num w) (Num h)).
Proof.
  intros E Hf.
  destruct (@run_live calls 0 st0 (quadtree_Inv _ E) (finite_predictable _ Hf))
    as (k & HI & Hlive).
  destruct (run_Inv calls (quadtree_Inv _ E)) as [_ Ho].
  rewrite (quadtree_empty _ E) in Hlive. cbn [skipn] in Hlive.
  assert (Hf' : finite_origin (opts (fst (run st0 calls))) = true)
    by (rewrite Ho; exact Hf).
  unfold _queryRange, _queryRangeByCenter, _queryContainedBy.
  repeat split; intros; rewrite (@query_spec k _ _ _ _ _ HI Hf'), Ho, Hlive; reflexivity.
Qed.

Lemma X8_witness :
  quadtree (options100 (Some 1%Z) (Some 4%Z) None) = Normal (index100 1 4 false) /\
  finite_origin (opts (index100 1 4 false)) = true /\
  live_items (opts (index100 1 4 false)) []
    [Insert (One (pt 10 10 0)); Clear; Insert (Many [pt 20 20 1; pt 200 20 2; pt 70 70 3])]
  = [pt 20 20 1; pt 200 20 2; pt 70 70 3] /\
  (forall t l b r,
     _queryRange (fst (run (index100 1 4 false)
                           [Insert (One (pt 10 10 0)); Clear;
                            Insert (Many [pt 20 20 1; pt 200 20 2; pt 70 70 3])]))
                 (Num t) (Num l) (Num b) (Num r)
     = Normal (answer (opts (index100 1 4 false)) t l b r
                 (live_items (opts (index100 1 4 false)) []
                    [Insert (One (pt 10 10 0)); Clear;
                     Insert (Many [pt 20 20 1; pt 200 20 2; pt 70 70 3])]))) /\
  (forall cx cy w h,
     _queryRangeByCenter (fst (run (index100 1 4 false)
                           [Insert (One (pt 10 10 0)); Clear;
                            Insert (Many [pt 20 20 1; pt 200 20 2; pt 70 70 3])]))
                 (Num cx) (Num cy) (Num w) (Num h)
     = Normal (answer (opts (index100 1 4 false))
                 (cy - h / 2) (cx - w / 2) (cy + h / 2) (cx + w / 2)
                 (live_items (opts (index100 1 4 false)) []
                    [Insert (One (pt 10 10 0)); Clear;
                     Insert (Many [pt 20 20 1; pt 200 20 2; pt 70 70 3])]))) /\
  (forall cx cy w h,
     _queryContainedBy (fst (run (index100 1 4 false)
                           [Insert (One (pt 10 10 0)); Clear;
                            Insert (Many [pt 20 20 1; pt 200 20 2; pt 70 70 3])]))
                 (Some (Num cx, Num cy, Num w, Num h))
     = _queryRangeByCenter (fst (run (index100 1 4 false)
                           [Insert (One (pt 10 10 0)); Clear;
                            Insert (Many [pt 20 20 1; pt 200 20 2; pt 70 70 3])]))
                 (Num cx) (Num cy) (Num w) (Num h)).
Proof.
  split; [reflexivity|]. split; [reflexivity|]. split; [reflexivity|].
  apply (@X8_the_three_query_forms (options100 (Some 1%Z) (Some 4%Z) None)
           (index100 1 4 false)
           [Insert (One (pt 10 10 0)); Clear;
            Insert (Many [pt 20 20 1; pt 200 20 2; pt 70 70 3])] eq_refl eq_refl).
Defined.

Lemma in_query_within t l b r t' l' b' r' w :
  within_rect t l b r t' l' b' r' = true ->
  in_query t l b r w -> in_query t' l' b' r' w.
Proof.
  unfold within_rect, in_query. rewrite !andb_true_iff.
  intros [[[H1 H2] H3] H4]. rewrite !pointIsInBounds_true.
  intros (a & c & Ea & Ec & ? & ? & ? & ?). exists a, c.
  repeat split; auto; eapply leb_trans; eauto.
Qed.

(** X9: enlarging the query rectangle never loses a result: on a reachable
    index everything a query returns is also returned by any query whose
    rectangle contains the first one. *)
Theorem X9_larger_rectangle_returns_more
  (st : State) (t l b r t' l' b' r' : float) :
  reachable st ->
  within_rect t l b r t' l' b' r' = true ->
  exists found found',
    _queryRange st (Num t) (Num l) (Num b) (Num r) = Normal found /\
    _queryRange st (Num t') (Num l') (Num b') (Num r') = Normal found' /\
    incl found found'.
Proof.
  intros Hr Hw. destruct (reachable_Inv Hr) as [k HI].
  unfold _queryRange.
  eexists. eexists. split; [reflexivity|]. split; [reflexivity|].
  intros v Hv. unfold itemsByIndex in *. apply in_map_iff in Hv.
  destruct Hv as (j & <- & Hj). apply in_map_iff. exists j. split; [reflexivity|].
  apply (tree_query_in t l b r j HI) in Hj. apply (tree_query_in t' l' b' r' j HI).
  destruct Hj as (w & Hin & Hq & Ei). exists w.
  split; [exact Hin|]. split; [|exact Ei].
  apply (@in_query_within t l b r t' l' b' r' w Hw Hq).
Qed.

Lemma X9_witness :
  reachable (fst (run (index100 2 4 false)
                      [Insert (Many [pt 15 15 0; pt 40 40 1; pt 90 90 2])])) /\
  within_rect 10 10 20 20 0 0 50 50 = true /\
  _queryRange (fst (run (index100 2 4 false)
                        [Insert (Many [pt 15 15 0; pt 40 40 1; pt 90 90 2])]))
              (Num 10) (Num 10) (Num 20) (Num 20) = Normal [Some (pt 15 15 0)] /\
  _queryRange (fst (run (index100 2 4 false)
                        [Insert (Many [pt 15 15 0; pt 40 40 1; pt 90 90 2])]))
              (Num 0) (Num 0) (Num 50) (Num 50)
  = Normal [Some (pt 15 15 0); Some (pt 40 40 1)] /\
  exists found found',
    _queryRange (fst (run (index100 2 4 false)
                          [Insert (Many [pt 15 15 0; pt 40 40 1; pt 90 90 2])]))
                (Num 10) (Num 10) (Num 20) (Num 20) = Normal found /\
    _queryRange (fst (run (index100 2 4 false)
                          [Insert (Many [pt 15 15 0; pt 40 40 1; pt 90 90 2])]))
                (Num 0) (Num 0) (Num 50) (Num 50) = Normal found' /\
    incl found found'.
Proof.
  assert (R : reachable (fst (run (index100 2 4 false)
                      [Insert (Many [pt 15 15 0; pt 40 40 1; pt 90 90 2])]))).
  { exists (options100 (Some 2%Z) (Some 4%Z) (Some false)), (index100 2 4 false),
      [Insert (Many [pt 15 15 0; pt 40 40 1; pt 90 90 2])].
    split; reflexivity. }
  split; [exact R|]. split; [reflexivity|].
  split; [vm_compute; reflexivity|]. split; [vm_compute; reflexivity|].
  apply (@X9_larger_rectangle_returns_more _ 10 10 20 20 0 0 50 50 R eq_refl).
Defined.

(** X10: insert and look up.  After a single item whose point is in the
    root rectangle was inserted into a reachable index over a root
    rectangle with a finite top left corner, the call has ended normally
    and the query for the rectangle reduced to that point returns the item,
    as the last element of its result. *)
Theorem X10_inserted_item_is_found (st : State) (item : Item) (a c : float) :
  reachable st ->
  finite_origin (opts st) = true ->
  item_x item = Some a -> item_y item = Some c ->
  in_root (opts st) item = true ->
  snd (_insert st (One item)) = Normal tt /\
  exists found,
    _queryRange (fst (_insert st (One item))) (Num c) (Num a) (Num c) (Num a)
    = Normal (found ++ [Some item]).
Proof.
  intros Hr Hf Ex Ey Hroot. destruct (reachable_Inv Hr) as [k HI].
  destruct (_insert_spec (One item) HI) as (HI' & Ho & _ & _ & Hp).
  destruct (Hp (finite_predictable _ Hf)) as [Ha Hc].
  assert (Ee : insert_effect (opts st) (One item) = ([item], Normal tt)).
  { unfold insert_effect.
    rewrite (checkIsValid_valid _ _ (in_root_valid _ _ Hroot)), (pushed_in_root _ _ Hroot).
    reflexivity. }
  rewrite Ee in Ha, Hc. cbn [fst snd] in Ha, Hc.
  split; [exact Hc|].
  unfold _queryRange.
  rewrite (@query_spec k _ _ _ _ _ HI') by (rewrite Ho; exact Hf).
  rewrite Ho, Ha, skipn_app_le by exact (inv_base HI).
  unfold answer. rewrite filter_app, map_app. simpl.
  assert (Hb : in_bounds c a c a item = true).
  { unfold in_root, in_bounds in *. rewrite Ex, Ey in *.
    apply pointIsInBounds_true in Hroot.
    destruct Hroot as (a' & c' & Ea & Ec & H1 & _ & H3 & _).
    injection Ea as <-. injection Ec as <-.
    destruct (leb_defined _ _ H1) as [_ Da], (leb_defined _ _ H3) as [_ Dc].
    apply pointIsInBounds_true.
    exists a, c. repeat split; apply leb_refl; assumption. }
  rewrite Hroot, Hb. simpl. eauto.
Qed.

Lemma X10_witness :
  reachable (fst (run (index100 1 4 true) [Insert (Many [pt 30 40 0; pt 60 60 1])])) /\
  finite_origin
    (opts (fst (run (index100 1 4 true) [Insert (Many [pt 30 40 0; pt 60 60 1])]))) = true /\
  item_x (pt 30 40 7) = Some 30 /\ item_y (pt 30 40 7) = Some 40 /\
  in_root (opts (fst (run (index100 1 4 true) [Insert (Many [pt 30 40 0; pt 60 60 1])])))
          (pt 30 40 7) = true /\
  snd (_insert (fst (run (index100 1 4 true) [Insert (Many [pt 30 40 0; pt 60 60 1])]))
               (One (pt 30 40 7))) = Normal tt /\
  exists found,
    _queryRange
      (fst (_insert (fst (run (index100 1 4 true) [Insert (Many [pt 30 40 0; pt 60 60 1])]))
                    (One (pt 30 40 7))))
      (Num 40) (Num 30) (Num 40) (Num 30)
    = Normal (found ++ [Some (pt 30 40 7)]).
Proof.
  assert (R : reachable (fst (run (index100 1 4 true)
                                  [Insert (Many [pt 30 40 0; pt 60 60 1])]))).
  { exists (options100 (Some 1%Z) (Some 4%Z) (Some true)), (index100 1 4 true),
      [Insert (Many [pt 30 40 0; pt 60 60 1])].
    split; reflexivity. }
  split; [exact R|].
  split; [reflexivity|]. split; [reflexivity|]. split; [reflexivity|].
  split; [reflexivity|].
  apply (@X10_inserted_item_is_found _ (pt 30 40 7) 30 40 R eq_refl eq_refl eq_refl eq_refl).
Defined.

Lemma collect_nothing t l b r its : forall index,
  (forall px py, pointIsInBounds px py t l b r = false) ->
  Node.collect t l b r its index = index.
Proof.
  induction its as [|it its IH]; intros index H; simpl; [reflexivity|].
  rewrite H. apply IH, H.
Qed.

Lemma queryRange_nothing t l b r n : forall index,
  (forall px py, pointIsInBounds px py t l b r = false) ->
  Node.queryRange n t l b r index = index.
Proof.
  induction n as [n E|n ns E H1 H2 H3 H4] using node_induction; intros index H;
    rewrite queryRange_eq, E; destruct (negb _); auto;
    rewrite collect_nothing by exact H; auto.
  rewrite H4, H3, H2, H1; auto.
Qed.

Lemma inverted_rectangle_is_empty t l b r px py :
  (r <? l) = true \/ (b <? t) = true -> pointIsInBounds px py t l b r = false.
Proof.
  intros H. apply not_true_is_false. intros Hp.
  apply pointIsInBounds_true in Hp. destruct Hp as (a & c & _ & _ & H1 & H2 & H3 & H4).
  pose proof (leb_trans _ _ _ H1 H2) as Hx. pose proof (leb_trans _ _ _ H3 H4) as Hy.
  destruct H as [H|H]; apply ltb_not_leb in H; congruence.
Qed.

(** X11: a query whose rectangle is inverted ([right < left] or
    [bottom < top]) returns the empty sequence on every index, whatever the
    tree holds; so do the center forms when the rectangle they compute is
    inverted.  A negative width or height does not suffice for that: a
    tiny negative width and height are absorbed by the rounding of
    [x - w / 2] and [x + w / 2], and the query finds the item at the
    center. *)
Theorem X11_inverted_query_is_empty (st : State) :
  (forall t l b r, (r <? l) = true \/ (b <? t) = true ->
     _queryRange st (Num t) (Num l) (Num b) (Num r) = Normal []) /\
  (forall cx cy w h,
     (cx + w / 2 <? cx - w / 2) = true \/ (cy + h / 2 <? cy - h / 2) = true ->
     _queryRangeByCenter st (Num cx) (Num cy) (Num w) (Num h) = Normal [] /\
     _queryContainedBy st (Some (Num cx, Num cy, Num w, Num h)) = Normal []) /\
  ((- 0x1p-1000 <? 0) = true /\
   _queryRangeByCenter (inserts (index100 2 4 false) [One (pt 1 1 0)])
                       (Num 1) (Num 1) (Num (- 0x1p-1000)) (Num (- 0x1p-1000))
   = Normal [Some (pt 1 1 0)]).
Proof.
  split; [|split].
  - intros t l b r H. unfold _queryRange.
    rewrite queryRange_nothing; [reflexivity|].
    intros px py. apply inverted_rectangle_is_empty, H.
  - intros cx cy w h H. unfold _queryRangeByCenter, _queryContainedBy.
    rewrite queryRange_nothing; [auto|].
    intros px py. apply inverted_rectangle_is_empty, H.
  - split; vm_compute; reflexivity.
Qed.

Lemma X11_witness :
  ((1 <? 9) = true \/ (5 <? 0) = true) /\
  _queryRange (inserts (index100 1 4 false) [One (pt 5 5 0); One (pt 6 6 1)])
              (Num 0) (Num 9) (Num 5) (Num 1) = Normal [] /\
  ((5 + (-4) / 2 <? 5 - (-4) / 2) = true \/ (5 + 4 / 2 <? 5 - 4 / 2) = true) /\
  _queryRangeByCenter (inserts (index100 1 4 false) [One (pt 5 5 0); One (pt 6 6 1)])
                      (Num 5) (Num 5) (Num (-4)) (Num 4) = Normal [] /\
  _queryContainedBy (inserts (index100 1 4 false) [One (pt 5 5 0); One (pt 6 6 1)])
                    (Some (Num 5, Num 5, Num (-4), Num 4)) = Normal [].
Proof.
  destruct (X11_inverted_query_is_empty
              (inserts (index100 1 4 false) [One (pt 5 5 0); One (pt 6 6 1)]))
    as (H1 & H2 & _).
  split; [left; reflexivity|].
  split; [apply H1; left; reflexivity|].
  split; [left; reflexivity|].
  apply (H2 5 5 (-4) 4). left. reflexivity.
Defined.

(** X12: an index constructed over an inverted root rectangle
    ([right < left] or [bottom < top]) is accepted by the constructor but
    never indexes anything: after any sequence of calls every query, in each
    of the three forms, returns the empty sequence. *)
Theorem X12_inverted_root_indexes_nothing
  (options : Options.t) (st0 : State) (calls : list op) :
  quadtree options = Normal st0 ->
  (Opts.right (opts st0) <? Opts.left (opts st0)) = true \/
  (Opts.bottom (opts st0) <? Opts.top (opts st0)) = true ->
  (forall t l b r,
     _queryRange (fst (run st0 calls)) (Num t) (Num l) (Num b) (Num r) = Normal []) /\
  (forall cx cy w h,
     _queryRangeByCenter (fst (run st0 calls)) (Num cx) (Num cy) (Num w) (Num h)
     = Normal []) /\
  (forall cx cy w h,
     _queryContainedBy (fst (run st0 calls)) (Some (Num cx, Num cy, Num w, Num h))
     = Normal []).
Proof.
  intros E Hinv.
  destruct (run_Inv calls (quadtree_Inv _ E)) as [[k HI] Ho].
  assert (Hq : forall t l b r,
            Node.queryRange (tree (fst (run st0 calls))) t l b r [] = []).
  { intros t l b r.
    destruct (Node.queryRange (tree (fst (run st0 calls))) t l b r []) as [|j rest] eqn:Eq;
      [reflexivity|]. exfalso.
    assert (Hj : In j (Node.queryRange (tree (fst (run st0 calls))) t l b r []))
      by (rewrite Eq; left; reflexivity).
    apply (tree_query_in t l b r j HI) in Hj. destruct Hj as (w & Hw & _).
    destruct (@tree_entry k _ w HI Hw) as (it & _ & _ & _ & Hroot).
    rewrite Ho in Hroot. unfold in_root, in_bounds in Hroot.
    rewrite (@inverted_rectangle_is_empty _ _ _ _ _ _ Hinv) in Hroot. discriminate. }
  unfold _queryRange, _queryRangeByCenter, _queryContainedBy.
  repeat split; intros; rewrite Hq; reflexivity.
Qed.

Lemma X12_witness :
  quadtree (Options.mk (Some 0) (Some 100) (Some 100) (Some 0) None None None)
  = Normal {| opts := Opts.mk 0 100 100 0 2 4 false;
              tree := Node.new 0 100 100 0 0; allItems := [] |} /\
  ((0 <? 100) = true \/ (100 <? 0) = true) /\
  _queryRange (fst (run {| opts := Opts.mk 0 100 100 0 2 4 false;
                           tree := Node.new 0 100 100 0 0; allItems := [] |}
                        [Insert (One (pt 50 50 0))]))
              (Num 0) (Num 0) (Num 100) (Num 100) = Normal [].
Proof.
  split; [reflexivity|]. split; [left; reflexivity|].
  apply (@X12_inverted_root_indexes_nothing
           (Options.mk (Some 0) (Some 100) (Some 100) (Some 0) None None None)
           {| opts := Opts.mk 0 100 100 0 2 4 false;
              tree := Node.new 0 100 100 0 0; allItems := [] |}
           [Insert (One (pt 50 50 0))] eq_refl).
  left. reflexivity.
Defined.

(** X13: the pruning of [queryRange] never loses a match: on the tree of a
    reachable index the recursive query with pruning collects exactly the
    indices that a scan of all the items of the tree, with no pruning at
    all, collects. *)
Theorem X13_pruned_query_is_linear_scan (st : State) (t l b r : float) :
  reachable st ->
  Node.queryRange (tree st) t l b r [] = linear_scan t l b r (tree st).
Proof.
  intros Hr. destruct (reachable_Inv Hr) as [k HI]. unfold linear_scan.
  apply sorted_unique.
  - apply queryRange_sorted. constructor.
  - apply collect_sorted. constructor.
  - intros j. rewrite (@queryRange_in t l b r (tree st) [] j (inv_geo HI)), collect_in.
    reflexivity.
Qed.

Lemma X13_witness :
  reachable (fst (run (index100 1 4 false)
                      [Insert (Many [pt 0 0 0; pt 100 100 1; pt 50 50 2; pt 60 10 3])])) /\
  Node.queryRange
    (tree (fst (run (index100 1 4 false)
                    [Insert (Many [pt 0 0 0; pt 100 100 1; pt 50 50 2; pt 60 10 3])])))
    0 0 50 50 []
  = linear_scan 0 0 50 50
      (tree (fst (run (index100 1 4 false)
                      [Insert (Many [pt 0 0 0; pt 100 100 1; pt 50 50 2; pt 60 10 3])]))).
Proof.
  assert (R : reachable (fst (run (index100 1 4 false)
                      [Insert (Many [pt 0 0 0; pt 100 100 1; pt 50 50 2; pt 60 10 3])]))).
  { exists (options100 (Some 1%Z) (Some 4%Z) (Some false)), (index100 1 4 false),
      [Insert (Many [pt 0 0 0; pt 100 100 1; pt 50 50 2; pt 60 10 3])].
    split; reflexivity. }
  split; [exact R|]. exact (X13_pruned_query_is_linear_scan 0 0 50 50 R).
Defined.

(** *** The intersection test *)



(** *** The capacity of the leaves *)

Lemma within_capacity_eq o n :
  within_capacity o n =
  match Node.nodes n with
  | None =>
      (Z.of_nat (length (Node.items n)) <=? Z.max 0 (Opts.max_per_cell o))%Z
      || (Opts.max_depth o <=? Node.depth n)%Z
  | Some ns =>
      within_capacity o (Node.tl ns) && within_capacity o (Node.tr ns)
      && within_capacity o (Node.bl ns) && within_capacity o (Node.br ns)
  end.
Proof. destruct n; reflexivity. Qed.

Lemma within_capacity_interior o n ns :
  Node.nodes n = Some ns ->
  (within_capacity o n = true <-> forall q, within_capacity o (Node.get q ns) = true).
Proof.
  intros E. rewrite within_capacity_eq, E, !andb_true_iff. split.
  - intros [[[? ?] ?] ?] q. destruct q; assumption.
  - intros H. repeat split;
      [apply (H TOP_LEFT) | apply (H TOP_RIGHT) | apply (H BOTTOM_LEFT) | apply (H BOTTOM_RIGHT)].
Qed.

Lemma within_capacity_emptied o n :
  within_capacity o n = true -> within_capacity o (Node.set_items n []) = true.
Proof.
  rewrite !within_capacity_eq. nsimpl. destruct (Node.nodes n); [auto|].
  intros _. apply orb_true_iff. left. apply Z.leb_le. simpl. lia.
Qed.

Section Capacity.
Variable o : Opts.t.

Section Body.
Variable ins : Node -> IndexItem -> option (Node * completion bool).
Hypothesis ins_cap : forall n it r,
  ins n it = Some r -> within_capacity o n = true -> within_capacity o (fst r) = true.

Lemma delegate_capacity qs : forall ns it ns' c,
  Node.delegate ins qs ns it = Some (ns', c) ->
  (forall q, within_capacity o (Node.get q ns) = true) ->
  forall q, within_capacity o (Node.get q ns') = true.
Proof.
  induction qs as [|q qs IH]; simpl; intros ns it ns' c E H.
  - injection E as <- <-. exact H.
  - destruct (ins (Node.get q ns) it) as [[n1 c1]|] eqn:E1; try discriminate.
    pose proof (@ins_cap _ _ _ E1 (H q)) as H1. cbn [fst] in H1.
    assert (Hset : forall q', within_capacity o (Node.get q' (Node.set q n1 ns)) = true).
    { intros q'. destruct (quadrant_eq_dec q q') as [<-|Hq].
      - rewrite get_set_same. exact H1.
      - rewrite (get_set_other _ _ Hq). apply H. }
    destruct c1 as [[|]|e]; try (injection E as <- <-; exact Hset).
    exact (@IH _ _ _ _ E Hset).
Qed.

Lemma reinsert_capacity its : forall n n' c,
  Node.reinsert o ins n its = Some (n', c) ->
  within_capacity o n = true -> within_capacity o n' = true.
Proof.
  induction its as [|it its IH]; simpl; intros n n' c E H.
  - injection E as <- <-. exact H.
  - destruct (ins n it) as [[n1 c1]|] eqn:E1; try discriminate.
    pose proof (@ins_cap _ _ _ E1 H) as H1. cbn [fst] in H1.
    destruct c1 as [b|e]; [|injection E as <- <-; exact H1].
    destruct (Opts.debug_mode o && negb b); [injection E as <- <-; exact H1|].
    exact (@IH _ _ _ E H1).
Qed.

Lemma insert_body_capacity n it r :
  Node.insert_body o ins n it = Some r ->
  within_capacity o n = true -> within_capacity o (fst r) = true.
Proof.
  unfold Node.insert_body, Node.divide. intros E H.
  destruct (negb _); [injection E as <-; exact H|].
  destruct (Node.nodes n) as [ns|] eqn:En.
  - destruct (Node.delegate ins _ ns it) as [[ns' c]|] eqn:Ed; try discriminate.
    pose proof (@delegate_capacity _ _ _ _ _ Ed
                  (proj1 (@within_capacity_interior o n ns En) H)) as Hk.
    assert (Hn : within_capacity o (Node.set_nodes n (Some ns')) = true)
      by (apply (@within_capacity_interior o (Node.set_nodes n (Some ns')) ns' eq_refl);
          exact Hk).
    destruct c as [[|]|e]; try destruct (Opts.debug_mode o); injection E as <-; exact Hn.
  - destruct (_ || _) eqn:Eroom.
    + injection E as <-. cbn [fst]. rewrite within_capacity_eq. nsimpl. rewrite En.
      apply orb_true_iff in Eroom. apply orb_true_iff.
      destruct Eroom as [Hlt|Hd]; [left | right; exact Hd].
      apply Z.ltb_lt in Hlt. apply Z.leb_le. rewrite length_app. simpl. lia.
    + assert (H1 : within_capacity o (Node.set_nodes n (Some (Node.children n))) = true).
      { apply (@within_capacity_interior o (Node.set_nodes n (Some (Node.children n)))
                 (Node.children n) eq_refl).
        intros q. destruct q; simpl; apply orb_true_iff; left; apply Z.leb_le; lia. }
      destruct (Node.reinsert o ins _ _) as [[n2 c]|] eqn:Er; try discriminate.
      pose proof (@reinsert_capacity _ _ _ _ Er H1) as H2.
      destruct c as [b|e]; [|injection E as <-; exact H2].
      exact (@ins_cap _ _ _ E (@within_capacity_emptied _ _ H2)).
Qed.
End Body.

Lemma insert_fuel_capacity f : forall n it r,
  Node.insert_fuel f o n it = Some r ->
  within_capacity o n = true -> within_capacity o (fst r) = true.
Proof.
  induction f as [|f IH]; intros n it r E; [discriminate|].
  exact (@insert_body_capacity _ IH _ _ _ E).
Qed.

Lemma insert_capacity n it :
  within_capacity o n = true -> within_capacity o (fst (Node.insert o n it)) = true.
Proof. eapply insert_fuel_capacity. apply insert_fuel_enough, le_n. Qed.
End Capacity.

Lemma push_and_insert_capacity st cur index :
  within_capacity (opts st) (tree st) = true ->
  opts (fst (push_and_insert st cur index)) = opts st /\
  within_capacity (opts st) (tree (fst (push_and_insert st cur index))) = true.
Proof.
  intros H. unfold push_and_insert.
  pose proof (insert_capacity (opts st) (tree st) (itemToIndex cur index) H) as H1.
  destruct (Node.insert (opts st) (tree st) (itemToIndex cur index)) as [tree' [res|e]];
    [destruct (Opts.debug_mode (opts st) && negb res)|]; auto.
Qed.

Lemma insert_loop_capacity rest : forall st tlb i,
  within_capacity (opts st) (tree st) = true ->
  opts (fst (insert_loop st tlb i rest)) = opts st /\
  within_capacity (opts st) (tree (fst (insert_loop st tlb i rest))) = true.
Proof.
  induction rest as [|cur rest IH]; intros st tlb i H; simpl; [auto|].
  destruct (push_and_insert_capacity st cur (tlb + i) H) as [Ho Hc].
  destruct (push_and_insert st cur (tlb + i)) as [st' [u|e]]; cbn [fst] in *; [|auto].
  rewrite <- Ho in Hc. destruct (IH st' tlb (S i) Hc) as [Ho' Hc'].
  rewrite Ho in Ho', Hc'. auto.
Qed.

Lemma _insert_capacity st a :
  within_capacity (opts st) (tree st) = true ->
  opts (fst (_insert st a)) = opts st /\
  within_capacity (opts st) (tree (fst (_insert st a))) = true.
Proof.
  intros H. destruct a as [item|[|first rest]]; unfold _insert.
  - destruct (checkIsValid (opts st) item) as [[|]|e]; auto.
    apply push_and_insert_capacity, H.
  - auto.
  - destruct (checkIsValid (opts st) first) as [[|]|e]; auto.
    apply insert_loop_capacity, H.
Qed.

Lemma step_capacity st c :
  within_capacity (opts st) (tree st) = true ->
  within_capacity (opts (fst (step st c))) (tree (fst (step st c))) = true.
Proof.
  intros H. destruct c as [a| | | |]; unfold step; cbn [fst]; auto.
  - destruct (_insert_capacity st a H) as [Ho Hc].
    destruct (_insert st a) as [st' r]. cbn [fst] in *. rewrite Ho. exact Hc.
  - unfold _clear, init, as_options.
    cbn [Options.top Options.left Options.bottom Options.right fst tree opts].
    rewrite within_capacity_eq. nsimpl.
    apply orb_true_iff. left. apply Z.leb_le. simpl. lia.
Qed.

(** X15: the split threshold is honoured.  In every reachable index, and
    after any further sequence of calls, each leaf that is above the depth
    cap ([depth < max_depth]) holds at most [max_per_cell] items; only
    leaves at the depth cap hold more. *)
Theorem X15_leaves_hold_at_most_max_per_cell (st : State) (calls : list op) :
  reachable st ->
  within_capacity (opts st) (tree st) = true /\
  within_capacity (opts (fst (run st calls))) (tree (fst (run st calls))) = true.
Proof.
  assert (R : forall cs s, within_capacity (opts s) (tree s) = true ->
                within_capacity (opts (fst (run s cs))) (tree (fst (run s cs))) = true).
  { induction cs as [|c cs IH]; intros s H; [exact H|].
    rewrite run_cons. cbn [fst]. apply IH, step_capacity, H. }
  intros (options & st0 & cs & E & ->).
  assert (H0 : within_capacity (opts st0) (tree st0) = true).
  { unfold quadtree, init in E.
    destruct (Options.top options), (Options.left options),
      (Options.bottom options), (Options.right options); try discriminate.
    injection E as <-. cbn [tree opts]. rewrite within_capacity_eq. nsimpl.
    apply orb_true_iff. left. apply Z.leb_le. simpl. lia. }
  split; [apply R, H0 | apply R, R, H0].
Qed.

Lemma X15_witness :
  reachable (fst (run (index100 2 3 false)
                      [Insert (Many [pt 1 1 0; pt 2 2 1; pt 3 3 2; pt 90 90 3; pt 4 4 4])])) /\
  within_capacity
    (opts (fst (run (index100 2 3 false)
                    [Insert (Many [pt 1 1 0; pt 2 2 1; pt 3 3 2; pt 90 90 3; pt 4 4 4])])))
    (tree (fst (run (index100 2 3 false)
                    [Insert (Many [pt 1 1 0; pt 2 2 1; pt 3 3 2; pt 90 90 3; pt 4 4 4])])))
  = true.
Proof.
  assert (R : reachable (fst (run (index100 2 3 false)
                      [Insert (Many [pt 1 1 0; pt 2 2 1; pt 3 3 2; pt 90 90 3; pt 4 4 4])]))).
  { exists (options100 (Some 2%Z) (Some 3%Z) (Some false)), (index100 2 3 false),
      [Insert (Many [pt 1 1 0; pt 2 2 1; pt 3 3 2; pt 90 90 3; pt 4 4 4])].
    split; reflexivity. }
  split; [exact R|].
  destruct (X15_leaves_hold_at_most_max_per_cell [] R) as [H _]. exact H.
Defined.

(** *** No item is lost or held twice *)

(** X16: on a tree with sound geometry whose rectangle has a finite top
    left corner, [Node.insert] never throws and returns [true] exactly when
    the rectangle of the node contains the point.  An accepted item is then
    held by the tree exactly once more, and every item held before is still
    held, as often as before, whatever splits were made; a rejected item
    leaves the tree as it was.  The geometry stays sound. *)
Theorem X16_insert_places_the_item_once (o : Opts.t) (n : Node) (it : IndexItem) :
  geo n -> finite_corner n = true ->
  snd (Node.insert o n it) = Normal (Node.containsPoint n (x it) (y it)) /\
  Permutation (all_items (fst (Node.insert o n it)))
              (if Node.containsPoint n (x it) (y it) then it :: all_items n
               else all_items n) /\
  (Node.containsPoint n (x it) (y it) = false -> fst (Node.insert o n it) = n) /\
  geo (fst (Node.insert o n it)).
Proof.
  intros Hg Hf. destruct (@insert_good o n it Hg Hf) as (Hc & Hown & _).
  destruct (@insert_sane o n it Hg) as (Hg' & _ & Hrej & _).
  split; [exact Hc|]. split; [exact Hown|]. split; [|exact Hg'].
  intros H. rewrite (Hrej H). reflexivity.
Qed.

Lemma X16_witness :
  geo (Node.mk 0 0 100 100 0 [ {| x := Some 10; y := Some 10; i := 0%nat |} ] None) /\
  finite_corner
    (Node.mk 0 0 100 100 0 [ {| x := Some 10; y := Some 10; i := 0%nat |} ] None) = true /\
  snd (Node.insert (opts (index100 1 4 false))
         (Node.mk 0 0 100 100 0 [ {| x := Some 10; y := Some 10; i := 0%nat |} ] None)
         {| x := Some 80; y := Some 20; i := 1%nat |})
  = Normal true /\
  Permutation
    (all_items (fst (Node.insert (opts (index100 1 4 false))
         (Node.mk 0 0 100 100 0 [ {| x := Some 10; y := Some 10; i := 0%nat |} ] None)
         {| x := Some 80; y := Some 20; i := 1%nat |})))
    [ {| x := Some 80; y := Some 20; i := 1%nat |};
      {| x := Some 10; y := Some 10; i := 0%nat |} ].
Proof.
  assert (Hg : geo (Node.mk 0 0 100 100 0
                      [ {| x := Some 10; y := Some 10; i := 0%nat |} ] None)).
  { split; [|exact I]. constructor; [reflexivity | constructor]. }
  split; [exact Hg|]. split; [reflexivity|].
  destruct (@X16_insert_places_the_item_once (opts (index100 1 4 false)) _
              {| x := Some 80; y := Some 20; i := 1%nat |} Hg eq_refl) as (H1 & H2 & _).
  split; [exact H1 | exact H2].
Defined.

(** X17: single ownership.  In every reachable index each entry of the tree
    carries the position and the coordinates of an item of the backing
    store, and no position of the backing store is held by two entries of
    the tree: an inserted item lives in at most one leaf, once. *)
Theorem X17_each_stored_item_is_held_once (st : State) :
  reachable st ->
  NoDup (map i (all_items (tree st))) /\
  forall w, In w (all_items (tree st)) ->
    exists it, nth_error (allItems st) (i w) = Some it /\
               x w = item_x it /\ y w = item_y it.
Proof.
  intros Hr. destruct (reachable_Inv Hr) as [k HI]. split; [exact (inv_nodup HI)|].
  intros w Hw. destruct (inv_sound HI w Hw) as (it & E & _ & Ew).
  exists it. split; [exact E|]. rewrite Ew. split; reflexivity.
Qed.

Lemma X17_witness :
  reachable (fst (run (index100 1 3 false)
                      [Insert (One (pt 10 10 0)); Insert (Many [pt 10 10 1; pt 60 60 2]);
                       Clear; Insert (One (pt 10 10 3))])) /\
  NoDup (map i (all_items
                  (tree (fst (run (index100 1 3 false)
                                  [Insert (One (pt 10 10 0));
                                   Insert (Many [pt 10 10 1; pt 60 60 2]);
                                   Clear; Insert (One (pt 10 10 3))]))))).
Proof.
  assert (R : reachable (fst (run (index100 1 3 false)
                      [Insert (One (pt 10 10 0)); Insert (Many [pt 10 10 1; pt 60 60 2]);
                       Clear; Insert (One (pt 10 10 3))]))).
  { exists (options100 (Some 1%Z) (Some 3%Z) (Some false)), (index100 1 3 false),
      [Insert (One (pt 10 10 0)); Insert (Many [pt 10 10 1; pt 60 60 2]);
       Clear; Insert (One (pt 10 10 3))].
    split; reflexivity. }
  split; [exact R|].
  destruct (X17_each_stored_item_is_held_once R) as [H _]. exact H.
Defined.

(** *** The split *)

Lemma children_box a b q :
  same_box a b -> same_box (Node.get q (Node.children a)) (Node.get q (Node.children b)).
Proof.
  intros (Ht & Hl & Hb & Hr & Hd). unfold same_box.
  destruct q; simpl; rewrite Ht, Hl, Hb, Hr, Hd; repeat split.
Qed.

Lemma insert_as_ins_keeps o n it r : Some (Node.insert o n it) = Some r -> keeps o n r.
Proof. intros E. injection E as <-. apply insert_keeps. Qed.

Lemma insert_as_ins_sane o n it r :
  Some (Node.insert o n it) = Some r -> geo n -> sane o n it r.
Proof. intros E. injection E as <-. apply insert_sane. Qed.

Lemma insert_as_ins_good o n it r :
  Some (Node.insert o n it) = Some r -> geo n -> finite_corner n = true -> good n it r.
Proof. intros E. injection E as <-. apply insert_good. Qed.

Lemma reinsert_defined o ins :
  (forall n it, exists r, ins n it = Some r) ->
  forall its n, exists r, Node.reinsert o ins n its = Some r.
Proof.
  intros H its. induction its as [|it its IH]; intros n; simpl; [eauto|].
  destruct (H n it) as [[n1 [b|e]] ->]; [|eauto].
  destruct (Opts.debug_mode o && negb b); eauto.
Qed.

(** X18: [divide] on a leaf with sound geometry and a rectangle that is not
    inverted and has a finite top left corner never throws and returns
    [true]; afterwards the node has the same rectangle and depth, an empty
    item list and the four quadrants as children, and the children together
    hold exactly the items the leaf held, each once, each in a child whose
    rectangle contains it. *)
Theorem X18_divide_redistributes_the_items (o : Opts.t) (n : Node) :
  geo n -> Node.nodes n = None ->
  box_ok n -> finite_corner n = true ->
  exists n' ns',
    divide_now o n = Some (n', Normal true) /\
    same_box n' n /\ Node.items n' = [] /\ Node.nodes n' = Some ns' /\
    quadrants_of n ns' /\
    Permutation (quad_items ns') (Node.items n) /\
    (forall q, Forall (inside (Node.get q ns')) (all_items (Node.get q ns'))) /\
    geo n'.
Proof.
  intros Hg En Hbox Hf. unfold divide_now, Node.divide.
  set (n1 := Node.set_nodes n (Some (Node.children n))).
  pose proof (@geo_inside n Hg) as Hitems. rewrite (@all_items_leaf n En) in Hitems.
  assert (Hg1 : geo n1).
  { apply (@geo_interior _ (Node.children n)); [reflexivity| |exact Hbox| |].
    - rewrite quad_items_children, app_nil_r. exact Hitems.
    - intros q. apply same_box_refl.
    - intros q. apply geo_children. }
  destruct (Node.reinsert o _ n1 (Node.items n)) as [[n2 c]|] eqn:Er.
  2:{ destruct (@reinsert_defined o (fun n' it' => Some (Node.insert o n' it'))
                  (fun n' it' => ex_intro _ _ eq_refl) (Node.items n) n1) as [r Er'].
      congruence. }
  destruct (@reinsert_good o _ (@insert_as_ins_keeps o) (@insert_as_ins_sane o)
              (@insert_as_ins_good o) _ _ _ _ Er Hg1 Hf) as (-> & Hk & _);
    [discriminate | apply incl_refl |].
  destruct (@reinsert_sane o _ (@insert_as_ins_keeps o) (@insert_as_ins_sane o)
              _ _ _ _ Er Hg1) as (Hg2 & _); [discriminate | apply incl_refl |].
  pose proof (@reinsert_keeps o _ (@insert_as_ins_keeps o) _ _ _ _ Er) as (Hgr & _).
  destruct (@grows_interior n1 n2 Hgr) as [Hn2 Hi2]; [discriminate|].
  destruct (Node.nodes n2) as [ns'|] eqn:En2; [|contradiction Hn2; reflexivity].
  pose proof (@grows_box _ _ Hgr) as Hb2.
  exists (Node.set_items n2 []), ns'.
  split; [reflexivity|].
  split; [eapply same_box_trans; [apply same_box_set_items | exact Hb2]|].
  split; [reflexivity|]. split; [exact En2|].
  split; [|split; [|split]].
  - intros q. eapply same_box_trans; [apply (@geo_quadrants n2 ns' Hg2 En2)|].
    apply children_box. exact Hb2.
  - rewrite <- (@kid_items_eq n2 ns' En2), Hk.
    change (kid_items n1) with (quad_items (Node.children n)).
    rewrite quad_items_children, app_nil_r. reflexivity.
  - intros q. apply geo_inside. apply (@geo_kid n2 ns' q Hg2 En2).
  - apply geo_set_items_nil, Hg2.
Qed.

Lemma X18_witness :
  geo (Node.mk 0 0 100 100 0 [ {| x := Some 10; y := Some 10; i := 0%nat |};
                               {| x := Some 90; y := Some 90; i := 1%nat |} ] None) /\
  box_ok (Node.mk 0 0 100 100 0 [ {| x := Some 10; y := Some 10; i := 0%nat |};
                                  {| x := Some 90; y := Some 90; i := 1%nat |} ] None) /\
  finite_corner
    (Node.mk 0 0 100 100 0 [ {| x := Some 10; y := Some 10; i := 0%nat |};
                             {| x := Some 90; y := Some 90; i := 1%nat |} ] None) = true /\
  exists n' ns',
    divide_now (opts (index100 1 4 false))
      (Node.mk 0 0 100 100 0 [ {| x := Some 10; y := Some 10; i := 0%nat |};
                               {| x := Some 90; y := Some 90; i := 1%nat |} ] None)
    = Some (n', Normal true) /\
    same_box n' (Node.mk 0 0 100 100 0 [ {| x := Some 10; y := Some 10; i := 0%nat |};
                                         {| x := Some 90; y := Some 90; i := 1%nat |} ] None) /\
    Node.items n' = [] /\ Node.nodes n' = Some ns' /\
    quadrants_of (Node.mk 0 0 100 100 0 [ {| x := Some 10; y := Some 10; i := 0%nat |};
                                          {| x := Some 90; y := Some 90; i := 1%nat |} ] None)
                 ns' /\
    Permutation (quad_items ns')
                [ {| x := Some 10; y := Some 10; i := 0%nat |};
                  {| x := Some 90; y := Some 90; i := 1%nat |} ] /\
    (forall q, Forall (inside (Node.get q ns')) (all_items (Node.get q ns'))) /\
    geo n'.
Proof.
  assert (Hg : geo (Node.mk 0 0 100 100 0
                      [ {| x := Some 10; y := Some 10; i := 0%nat |};
                        {| x := Some 90; y := Some 90; i := 1%nat |} ] None)).
  { split; [|exact I]. repeat constructor. }
  assert (Hb : box_ok (Node.mk 0 0 100 100 0
                      [ {| x := Some 10; y := Some 10; i := 0%nat |};
                        {| x := Some 90; y := Some 90; i := 1%nat |} ] None))
    by (split; reflexivity).
  split; [exact Hg|]. split; [exact Hb|]. split; [reflexivity|].
  exact (@X18_divide_redistributes_the_items (opts (index100 1 4 false)) _
           Hg eq_refl Hb eq_refl).
Defined.

(** *** Arrays against single items *)

Lemma accepted_quietly_pushed o it : accepted_quietly o it = true -> pushed o it = Normal tt.
Proof.
  unfold accepted_quietly, pushed. rewrite andb_true_iff, orb_true_iff.
  intros [_ [H|H]].
  - apply negb_true_iff in H. rewrite H. reflexivity.
  - rewrite H, andb_false_r. reflexivity.
Qed.

Lemma accepted_quietly_valid o it : accepted_quietly o it = true -> lacks_xy it = false.
Proof.
  unfold accepted_quietly. rewrite andb_true_iff. intros [H _].
  apply negb_true_iff, H.
Qed.

Lemma loop_effect_accepted o rest :
  forallb (accepted_quietly o) rest = true -> loop_effect o rest = (rest, Normal tt).
Proof.
  induction rest as [|cur rest IH]; simpl; [reflexivity|].
  rewrite andb_true_iff. intros [H1 H2].
  rewrite (accepted_quietly_pushed _ _ H1), (IH H2). reflexivity.
Qed.

Lemma inserts_ones k items : forall st,
  Inv k st -> predictable (opts st) = true ->
  forallb (accepted_quietly (opts st)) items = true ->
  inserts st (map One items) =
  {| opts := opts st;
     tree := offer_all (opts st) (tree st) (length (allItems st)) items;
     allItems := allItems st ++ items |}.
Proof.
  induction items as [|a items IH]; intros st HI Hp H.
  - simpl. rewrite app_nil_r. destruct st; reflexivity.
  - simpl in H. apply andb_true_iff in H. destruct H as [H1 H2].
    cbn [map]. rewrite inserts_cons.
    assert (E : _insert st (One a) =
                ({| opts := opts st;
                    tree := fst (Node.insert (opts st) (tree st)
                                   (itemToIndex a (length (allItems st))));
                    allItems := allItems st ++ [a] |}, Normal tt)).
    { unfold _insert. rewrite (checkIsValid_valid _ _ (accepted_quietly_valid _ _ H1)).
      rewrite length_app, Nat.add_sub, (push_and_insert_eq a HI Hp).
      rewrite (accepted_quietly_pushed _ _ H1). reflexivity. }
    destruct (_insert_spec (One a) HI) as (HI1 & _).
    rewrite E in HI1 |- *. cbn [fst] in HI1 |- *.
    rewrite (IH _ HI1) by (cbn [opts]; assumption). cbn [opts tree allItems offer_all].
    rewrite length_app, Nat.add_1_r, <- app_assoc. reflexivity.
Qed.

(** X19: inserting an array is inserting its items one by one.  On a
    reachable index, when debug mode is off or the top left corner of the
    root rectangle is finite, for items that all have both coordinates and,
    if debug mode is on, all lie in the root rectangle, the call with the
    array ends normally in exactly the state that the calls with the single
    items, in the same order, end in. *)
Theorem X19_array_is_items_one_by_one (st : State) (items : list Item) :
  reachable st ->
  predictable (opts st) = true ->
  forallb (accepted_quietly (opts st)) items = true ->
  _insert st (Many items) = (inserts st (map One items), Normal tt).
Proof.
  intros Hr Hp H. destruct (reachable_Inv Hr) as [k HI].
  rewrite (inserts_ones items HI Hp H).
  destruct items as [|first rest]; unfold _insert.
  - simpl. rewrite app_nil_r. destruct st; reflexivity.
  - pose proof H as H'. simpl in H'. apply andb_true_iff in H'. destruct H' as [H1 _].
    rewrite (checkIsValid_valid _ _ (accepted_quietly_valid _ _ H1)).
    rewrite (insert_loop_eq (first :: rest) _ 0 HI Hp) by lia.
    rewrite (loop_effect_accepted _ _ H). reflexivity.
Qed.

Lemma X19_witness :
  reachable (index100 1 4 true) /\
  predictable (opts (index100 1 4 true)) = true /\
  forallb (accepted_quietly (opts (index100 1 4 true))) [pt 10 10 0; pt 10 10 1; pt 90 5 2]
  = true /\
  _insert (index100 1 4 true) (Many [pt 10 10 0; pt 10 10 1; pt 90 5 2])
  = (inserts (index100 1 4 true) (map One [pt 10 10 0; pt 10 10 1; pt 90 5 2]), Normal tt).
Proof.
  split; [apply reachable_index100; discriminate|]. split; [reflexivity|].
  split; [reflexivity|].
  apply X19_array_is_items_one_by_one.
  - apply reachable_index100; discriminate.
  - reflexivity.
  - reflexivity.
Defined.

Lemma stored_ones o items :
  stored o (map One items) = filter (fun it => negb (lacks_xy it)) items.
Proof.
  unfold stored. induction items as [|a items IH]; simpl; [reflexivity|].
  rewrite IH. unfold checkIsValid. fold (lacks_xy a).
  destruct (lacks_xy a); [destruct (Opts.debug_mode o)|]; reflexivity.
Qed.

Lemma filter_permutation (A : Type) (p : A -> bool) (l1 l2 : list A) :
  Permutation l1 l2 -> Permutation (filter p l1) (filter p l2).
Proof.
  induction 1 as [|a l1 l2 H IH|a c l|l1 l2 l3 H1 IH1 H2 IH2]; simpl.
  - constructor.
  - destruct (p a); [constructor|]; exact IH.
  - destruct (p a), (p c); try reflexivity. apply perm_swap.
  - eapply Permutation_trans; eassumption.
Qed.

(** X20: the results of a query do not depend on the order of insertion.
    When the same single items are inserted, in two different orders, into
    a reachable index over a root rectangle with a finite top left corner,
    every query returns the same items in both indexes, each as often,
    possibly in a different order, although the two trees may differ. *)
Theorem X20_results_do_not_depend_on_insertion_order
  (st : State) (items items' : list Item) (t l b r : float) :
  reachable st ->
  finite_origin (opts st) = true ->
  Permutation items items' ->
  exists found found',
    _queryRange (inserts st (map One items)) (Num t) (Num l) (Num b) (Num r)
    = Normal found /\
    _queryRange (inserts st (map One items')) (Num t) (Num l) (Num b) (Num r)
    = Normal found' /\
    Permutation found found'.
Proof.
  intros Hr Hf Hp. destruct (reachable_Inv Hr) as [k HI].
  destruct (inserts_spec (map One items) HI) as (H1 & O1 & _ & A1).
  destruct (inserts_spec (map One items') HI) as (H2 & O2 & _ & A2).
  specialize (A1 (finite_predictable _ Hf)). specialize (A2 (finite_predictable _ Hf)).
  unfold _queryRange.
  rewrite (@query_spec k _ _ _ _ _ H1) by (rewrite O1; exact Hf).
  rewrite (@query_spec k _ _ _ _ _ H2) by (rewrite O2; exact Hf).
  rewrite O1, O2, A1, A2, !stored_ones, !skipn_app_le by exact (inv_base HI).
  eexists. eexists. split; [reflexivity|]. split; [reflexivity|].
  unfold answer. apply Permutation_map, filter_permutation.
  apply Permutation_app_head, filter_permutation, Hp.
Qed.

Lemma X20_witness :
  reachable (fst (run (index100 1 4 false) [Insert (One (pt 20 20 0))])) /\
  finite_origin (opts (fst (run (index100 1 4 false) [Insert (One (pt 20 20 0))]))) = true /\
  Permutation [pt 10 10 1; pt 90 5 2; pt 10 10 3] [pt 90 5 2; pt 10 10 3; pt 10 10 1] /\
  exists found found',
    _queryRange (inserts (fst (run (index100 1 4 false) [Insert (One (pt 20 20 0))]))
                         (map One [pt 10 10 1; pt 90 5 2; pt 10 10 3]))
                (Num 0) (Num 0) (Num 50) (Num 100) = Normal found /\
    _queryRange (inserts (fst (run (index100 1 4 false) [Insert (One (pt 20 20 0))]))
                         (map One [pt 90 5 2; pt 10 10 3; pt 10 10 1]))
                (Num 0) (Num 0) (Num 50) (Num 100) = Normal found' /\
    Permutation found found'.
Proof.
  assert (R : reachable (fst (run (index100 1 4 false) [Insert (One (pt 20 20 0))]))).
  { exists (options100 (Some 1%Z) (Some 4%Z) (Some false)), (index100 1 4 false),
      [Insert (One (pt 20 20 0))].
    split; reflexivity. }
  assert (P : Permutation [pt 10 10 1; pt 90 5 2; pt 10 10 3]
                          [pt 90 5 2; pt 10 10 3; pt 10 10 1])
    by (apply (Permutation_cons_append [pt 90 5 2; pt 10 10 3] (pt 10 10 1))).
  split; [exact R|]. split; [reflexivity|]. split; [exact P|].
  apply (@X20_results_do_not_depend_on_insertion_order _ _ _ 0 0 50 100 R eq_refl P).
Defined.

(** *** Termination *)


